(** * Weekly Exercise 4: the expression calculator and its compiler

    A shallow embedding of [calculator.py], [compiler.py] and of the
    token rules, the grammar actions and the [unparse] method of
    [exprparser.py], and the properties of the lexer, of the evaluator,
    of the sequentializing compiler and of the code it emits. *)

From Stdlib Require Import ZArith List Ascii String Lia Bool Permutation Sorted.
From Stdlib Require Import DecimalString DecimalZ DecimalN.
From stdpp Require Import gmap strings.
Import ListNotations.

Local Open Scope Z_scope.

(** ** Python objects at the leaves and the syntax tree *)

(** The value a tree node carries: a [str] (node types, operator and
    variable names) or an [int] (what [t_NUMBER] makes of a literal). *)
Inductive value : Type :=
  | VStr (s : string)
  | VInt (z : Z).

(** Modelled from the spec: the [ValueTree] class ([valuetree.py] is not
    among the sources).  A node carries a value and an ordered list of
    child nodes; [get_value] and [get_children] read them. *)
#[warnings="-register-all"]
Inductive ValueTree : Type :=
  | Node (v : value) (children : list ValueTree).

Definition get_value (t : ValueTree) : value :=
  match t with Node v _ => v end.

Definition get_children (t : ValueTree) : list ValueTree :=
  match t with Node _ cs => cs end.

#[global] Instance value_eq_dec : EqDecision value.
Proof. solve_decision. Defined.

#[global] Instance value_countable : Countable value.
Proof.
  refine (inj_countable'
            (fun v => match v with VStr s => inl s | VInt z => inr z end)
            (fun x => match x with inl s => VStr s | inr z => VInt z end) _).
  intros []; reflexivity.
Defined.

(** Python's [==] between two leaf values. *)
Definition value_eqb (a b : value) : bool := bool_decide (a = b).

(** [str(n)] of an [int]. *)
Definition str_of_Z (z : Z) : string := NilZero.string_of_int (Z.to_int z).

(** [str(v)], which is also what [format] makes of [v]. *)
Definition py_str (v : value) : string :=
  match v with
  | VStr s => s
  | VInt z => str_of_Z z
  end.

(** ** Exceptions and results

    [NotRepresented] is no exception of Python: it marks a result (a
    [float]) that the instance [int_arith] below cannot hold. *)

Inductive exn : Type :=
  | ValueError (msg : string)
  | IndexError
  | TypeError
  | AttributeError (msg : string)
  | NameError (name : string)
  | SyntaxError
  | ZeroDivisionError
  | OverflowError
  | NotRepresented.

Inductive result (A : Type) : Type :=
  | Ok (a : A)
  | Raise (e : exn).
Arguments Ok {A} a.
Arguments Raise {A} e.

(** ** The host arithmetic

    The calculator's lambdas and the emitted Python both compute with
    the arithmetic of the Python objects they are handed.  It is an
    interface here: each operation either returns an object or raises. *)
Class PyArith : Type := {
  num : Type;
  (** the object a literal leaf stands for *)
  lit : value -> num;
  (** [-x], [x + y], [x - y], [x * y], [x / y], [x ** y] *)
  py_neg : num -> result num;
  py_add : num -> num -> result num;
  py_sub : num -> num -> result num;
  py_mul : num -> num -> result num;
  py_truediv : num -> num -> result num;
  py_pow : num -> num -> result num;
}.

(** A dictionary with [str] keys written as a table, and [d.get(k)]. *)
Fixpoint dict_get {V : Type} (d : list (string * V)) (k : value) : option V :=
  match d with
  | [] => None
  | (k', v) :: d' => if value_eqb k (VStr k') then Some v else dict_get d' k
  end.

(** The newline of the parse diagnostic, which joins [errors] with it. *)
Definition newline : string := String (ascii_of_nat 10) EmptyString.

(** A list comprehension [[f(c, state) for c in cs]] over a function that
    works on a mutable state: left to right, and it stops at the first
    call that raises. *)
Definition comprehension {S A : Type} (f : ValueTree -> S -> result A * S)
  : list ValueTree -> S -> result (list A) * S :=
  fix loop (cs : list ValueTree) (s : S) : result (list A) * S :=
    match cs with
    | [] => (Ok [], s)
    | c :: cs' =>
      match f c s with
      | (Ok v, s1) =>
        match loop cs' s1 with
        | (Ok vs, s2) => (Ok (v :: vs), s2)
        | (Raise e, s2) => (Raise e, s2)
        end
      | (Raise e, s1) => (Raise e, s1)
      end
    end.

(** What the calls of a comprehension log, when each call [f c s] logs
    [lg c s]. *)
Definition comprehension_log {S A W : Type} (lg : ValueTree -> S -> list W)
    (f : ValueTree -> S -> result A * S) : list ValueTree -> S -> list W :=
  fix loop (cs : list ValueTree) (s : S) : list W :=
    match cs with
    | [] => []
    | c :: cs' =>
      lg c s ++
      match f c s with
      | (Ok _, s1) => loop cs' s1
      | (Raise _, _) => []
      end
    end.

(** ** calculator.py *)

Section Calculator.
Context `{PyArith}.

(** A lambda of [op_to_fn] applied to the argument list: a call with the wrong
    number of arguments raises [TypeError]. *)
Definition lambda1 (f : num -> result num) (args : list num) : result num :=
  match args with
  | [x] => f x
  | _ => Raise TypeError
  end.

Definition lambda2 (f : num -> num -> result num) (args : list num) : result num :=
  match args with
  | [x; y] => f x y
  | _ => Raise TypeError
  end.

(** [Calculator.op_to_fn]; the entry for ['?'] is [None]. *)
Definition op_to_fn : list (string * option (list num -> result num)) :=
  [ ("neg", Some (lambda1 py_neg));
    ("+", Some (lambda2 py_add));
    ("-", Some (lambda2 py_sub));
    ("*", Some (lambda2 py_mul));
    ("/", Some (lambda2 py_truediv));
    ("sqr", Some (lambda1 (fun x => py_mul x x)));
    ("?", None) ].

(** [self.op_to_fn.get(op)]: [None] for a missing key and for ['?']. *)
Definition op_to_fn_get (op : value) : option (list num -> result num) :=
  match dict_get op_to_fn op with
  | Some fn => fn
  | None => None
  end.

(** The binding store [var_dict] of the evaluator. *)
Abbreviation bindings := (gmap value num).

(** [Calculator.evaluate_ast].  [var_dict] is mutated in place by the
    source, so the store comes back with the outcome, also when the
    outcome is an exception. *)
Fixpoint evaluate_ast (ast : ValueTree) (var_dict : bindings)
  : result num * bindings :=
  match ast with
  | Node ntype children =>
    if value_eqb ntype (VStr "const") then
      match children with
      | c0 :: _ => (Ok (lit (get_value c0)), var_dict)
      | [] => (Raise IndexError, var_dict)
      end
    else if value_eqb ntype (VStr "apply") then
      match children with
      | [] => (Raise IndexError, var_dict)
      | c0 :: rest =>
        let op := get_value c0 in
        match op_to_fn_get op with
        | None =>
          (Raise (ValueError
             ("Evaluation error, no implementation of operation '"
                +:+ py_str op +:+ "'")), var_dict)
        | Some fn =>
          let args := comprehension evaluate_ast rest var_dict in
          match args with
          | (Ok vs, vd) => (fn vs, vd)
          | (Raise e, vd) => (Raise e, vd)
          end
        end
      end
    else if value_eqb ntype (VStr "set") then
      match children with
      | c0 :: c1 :: _ =>
        let name := get_value c0 in
        match evaluate_ast c1 var_dict with
        | (Ok v, vd) => (Ok v, <[name := v]> vd)
        | (Raise e, vd) => (Raise e, vd)
        end
      | _ => (Raise IndexError, var_dict)
      end
    else if value_eqb ntype (VStr "get") then
      match children with
      | c0 :: _ =>
        let name := get_value c0 in
        match var_dict !! name with
        | None =>
          (Raise (ValueError
             ("Evaluation error, variable '" +:+ py_str name
                +:+ "' has no value yet")), var_dict)
        | Some v => (Ok v, var_dict)
        end
      | [] => (Raise IndexError, var_dict)
      end
    else
      (Raise (ValueError
         ("Evaluation internal error, AST node type '" +:+ py_str ntype
            +:+ "' not implemented")), var_dict)
  end.

(** The assignments [var_dict[name] = value] that a call of
    [evaluate_ast] carries out, in the order it carries them out: one for
    each [set] node whose right-hand side it evaluated to a value.  The
    source keeps no such list; it is the record the properties of the
    store are stated against. *)
Fixpoint set_log (ast : ValueTree) (var_dict : bindings) : list (value * num) :=
  match ast with
  | Node ntype children =>
    if value_eqb ntype (VStr "const") then []
    else if value_eqb ntype (VStr "apply") then
      match children with
      | [] => []
      | c0 :: rest =>
        match op_to_fn_get (get_value c0) with
        | None => []
        | Some _ =>
          comprehension_log set_log evaluate_ast rest var_dict
        end
      end
    else if value_eqb ntype (VStr "set") then
      match children with
      | c0 :: c1 :: _ =>
        set_log c1 var_dict ++
        match evaluate_ast c1 var_dict with
        | (Ok v, _) => [(get_value c0, v)]
        | (Raise _, _) => []
        end
      | _ => []
      end
    else []
  end.

(** The store after the assignments of a log. *)
Definition apply_sets (log : list (value * num)) (var_dict : bindings) : bindings :=
  fold_left (fun vd w => <[fst w := snd w]> vd) log var_dict.

(** [Calculator.evaluate], with the parser's answer [(errors, ast)] for
    [expr_str] as an argument.  It returns [None] when the parser hands
    back no tree at all. *)
Definition evaluate (errors : list string) (ast : option ValueTree)
    (var_dict : bindings) : result (option num) * bindings :=
  if (0 <? length errors)%nat then
    (Raise (ValueError ("Parsing generated errors:" +:+ newline
                          +:+ String.concat newline errors)), var_dict)
  else
    match ast with
    | None => (Ok None, var_dict)
    | Some ast =>
      match evaluate_ast ast var_dict with
      | (Ok v, vd) => (Ok (Some v), vd)
      | (Raise e, vd) => (Raise e, vd)
      end
    end.

End Calculator.

(** ** compiler.py *)

(** The generation map [var_dict] of the compiler: a Python [dict], which
    keeps its keys in insertion order. *)
Abbreviation gens := (list (value * Z)).

(** [var_dict.get(name)], and [name in var_dict] when it is [Some]. *)
Fixpoint gens_get (d : gens) (k : value) : option Z :=
  match d with
  | [] => None
  | (k', g) :: d' => if value_eqb k k' then Some g else gens_get d' k
  end.

(** [var_dict[name] = g]: an existing key keeps its place, a new one
    goes to the end. *)
Fixpoint gens_set (d : gens) (k : value) (g : Z) : gens :=
  match d with
  | [] => [(k, g)]
  | (k', g') :: d' =>
    if value_eqb k k' then (k', g) :: d' else (k', g') :: gens_set d' k g
  end.

(** [var_dict.get(name, 0)]. *)
Definition gens_get_default (d : gens) (k : value) : Z :=
  match gens_get d k with
  | Some g => g
  | None => 0
  end.

(** [Compiler.make_gen_name]. *)
Definition make_gen_name (name : value) (gen_num : Z) : value :=
  if 0 <? gen_num then
    VStr ("_" +:+ py_str name +:+ "_" +:+ str_of_Z gen_num)
  else name.

(** [a + b] where [a] is a [str]: a [TypeError] unless [b] is one too. *)
Definition str_plus (a : string) (b : value) : result string :=
  match b with
  | VStr s => Ok (a +:+ s)
  | VInt _ => Raise TypeError
  end.

(** The two objects [compile_ast] mutates: the generation map and the
    list of statements. *)
Record cstate : Type := CState {
  cs_var_dict : gens;
  cs_code : list string;
}.

(** A computation over them that returns or raises; the state comes back
    in both cases, since the mutations stay. *)
Definition comp (A : Type) : Type := cstate -> result A * cstate.

Definition ret {A} (a : A) : comp A := fun st => (Ok a, st).

Definition raise {A} (e : exn) : comp A := fun st => (Raise e, st).

Definition bind {A B} (c : comp A) (k : A -> comp B) : comp B :=
  fun st =>
    match c st with
    | (Ok a, st') => k a st'
    | (Raise e, st') => (Raise e, st')
    end.

Notation "x <- c ;; k" := (bind c (fun x => k))
  (at level 100, c at next level, right associativity).

Definition lift {A} (r : result A) : comp A := fun st => (r, st).

(** [code.append(line)]. *)
Definition code_append (line : string) : comp unit :=
  fun st => (Ok tt, CState (cs_var_dict st) (cs_code st ++ [line])).

(** [var_dict.get(name, 0)] on the current map. *)
Definition var_dict_get (name : value) : comp Z :=
  fun st => (Ok (gens_get_default (cs_var_dict st) name), st).

(** The [if name in var_dict: var_dict[name] += 1 / else: var_dict[name] = 1]
    of the [set] branch; returns the new [var_dict[name]]. *)
Definition var_dict_bump (name : value) : comp Z :=
  fun st =>
    let g := match gens_get (cs_var_dict st) name with
             | Some g => g + 1
             | None => 1
             end in
    (Ok g, CState (gens_set (cs_var_dict st) name g) (cs_code st)).

(** [Compiler.compile_ast]; the returned [code_str] is whatever object the
    branch built, a [str] in all but the [get] of a name that is not one. *)
Fixpoint compile_ast (ast : ValueTree) : comp value :=
  match ast with
  | Node ntype children =>
    if value_eqb ntype (VStr "const") then
      match children with
      | c0 :: _ => ret (VStr (py_str (get_value c0)))
      | [] => raise IndexError
      end
    else if value_eqb ntype (VStr "get") then
      match children with
      | c0 :: _ =>
        let name := get_value c0 in
        gen_num <- var_dict_get name ;;
        ret (make_gen_name name gen_num)
      | [] => raise IndexError
      end
    else if value_eqb ntype (VStr "set") then
      match children with
      | c0 :: rest =>
        let name := get_value c0 in
        match rest with
        | c1 :: _ =>
          const_num <- compile_ast c1 ;;
          g <- var_dict_bump name ;;
          s <- lift (str_plus "_" name) ;;
          let code_str := s +:+ "_" +:+ str_of_Z g in
          line <- lift (str_plus (code_str +:+ " = ") const_num) ;;
          _ <- code_append line ;;
          ret (VStr code_str)
        | [] => raise IndexError
        end
      | [] => raise IndexError
      end
    else if value_eqb ntype (VStr "apply") then
      match children with
      | c0 :: rest =>
        if value_eqb (get_value c0) (VStr "neg") then
          match rest with
          | c1 :: _ =>
            temp_value <- compile_ast c1 ;;
            s <- lift (str_plus "(-" temp_value) ;;
            ret (VStr (s +:+ ")"))
          | [] => raise IndexError
          end
        else if value_eqb (get_value c0) (VStr "sqr") then
          match rest with
          | c1 :: _ =>
            temp_value <- compile_ast c1 ;;
            s <- lift (str_plus "(" temp_value) ;;
            ret (VStr (s +:+ " ** 2)"))
          | [] => raise IndexError
          end
        else
          let operator := get_value c0 in
          match rest with
          | c1 :: rest' =>
            digit_1 <- compile_ast c1 ;;
            match rest' with
            | c2 :: _ =>
              digit_2 <- compile_ast c2 ;;
              s1 <- lift (str_plus "(" digit_1) ;;
              s2 <- lift (str_plus (s1 +:+ " ") operator) ;;
              s3 <- lift (str_plus (s2 +:+ " ") digit_2) ;;
              ret (VStr (s3 +:+ ")"))
            | [] => raise IndexError
            end
          | [] => raise IndexError
          end
      | [] => raise IndexError
      end
    else
      raise (ValueError
        ("Evaluation internal error, AST node type '" +:+ py_str ntype
           +:+ "' not implemented"))
  end.

(** What [Compiler.compile] hands back: [None], the parse diagnostic (a
    [str]), or the exception object [e] of the [except] clause. *)
Inductive compile_return : Type :=
  | ReturnNone
  | ReturnStr (s : string)
  | ReturnExc (e : exn).

(** [key_fn] of [compile]: [t[0][0:1]] is the first character, if any. *)
Definition key_fn (t : value * Z) : result string :=
  match fst t with
  | VStr s =>
    Ok (if negb (String.eqb (substring 0 1 s) "_") then "_" +:+ s else s)
  | VInt _ => Raise TypeError
  end.

(** [sorted(items, key=key_fn)]: the keys are computed first, one per
    item; the sort is stable, items with equal keys keep their order. *)
Fixpoint with_keys (items : gens) : result (list (string * (value * Z))) :=
  match items with
  | [] => Ok []
  | t :: items' =>
    match key_fn t with
    | Raise e => Raise e
    | Ok k =>
      match with_keys items' with
      | Raise e => Raise e
      | Ok l => Ok ((k, t) :: l)
      end
    end
  end.

Fixpoint insert_by_key (x : string * (value * Z))
    (l : list (string * (value * Z))) : list (string * (value * Z)) :=
  match l with
  | [] => [x]
  | y :: l' =>
    if String.leb (fst x) (fst y) then x :: y :: l'
    else y :: insert_by_key x l'
  end.

Definition sorted (items : gens) : result gens :=
  match with_keys items with
  | Raise e => Raise e
  | Ok l => Ok (map snd (fold_right insert_by_key [] l))
  end.

(** [range(1, gen + 1)]. *)
Definition range1 (gen : Z) : list Z :=
  map Z.of_nat (seq 1 (Z.to_nat gen)).

(** The body of the cleanup loop for one item [(v, gen)]: the lines it
    appends.  (It also resets [var_dict[v]] to 0; the map is local to the
    call and is not read again.) *)
Definition cleanup_item (t : value * Z) : list string :=
  let '(v, gen) := t in
  if 0 <? gen then
    [ "# Update and cleanup " +:+ py_str v;
      py_str v +:+ " = " +:+ py_str (make_gen_name v gen) ]
    ++ map (fun g => "del(" +:+ py_str (make_gen_name v g) +:+ ")")
           (range1 gen)
  else [].

(** [Compiler.compile].  The parser is the ply engine; its answer
    [(errors, ast)] for [expr_str] is an argument here.  The outcome is
    what the call returns or raises, with the list [code] as the call
    leaves it. *)
Definition compile (errors : list string) (ast : option ValueTree)
    (expr_str : string) (code : list string)
  : result compile_return * list string :=
  if (0 <? length errors)%nat then
    (Ok (ReturnStr ("Parsing generated errors:" +:+ newline
                      +:+ String.concat newline errors)), code)
  else
    match ast with
    | None => (Ok ReturnNone, code)
    | Some ast =>
      let initial_code_len := length code in
      let code := code ++ ["# code for:"; "# " +:+ expr_str] in
      match compile_ast ast (CState [] code) with
      | (Ok last_expr, st) =>
        let code := cs_code st ++ ["_result = " +:+ py_str last_expr] in
        match sorted (cs_var_dict st) with
        | Raise e => (Raise e, code)
        | Ok items => (Ok ReturnNone, code ++ concat (map cleanup_item items))
        end
      | (Raise (ValueError msg), st) =>
        (Ok (ReturnExc (ValueError msg)),
         if (initial_code_len <? length (cs_code st))%nat
         then firstn initial_code_len (cs_code st)
         else cs_code st)
      | (Raise e, st) => (Raise e, cs_code st)
      end
    end.

(** ** exprparser.py *)

(** The token class [t_NAME = r'[a-zA-Z_][a-zA-Z0-9_]*']. *)
Definition is_letter (c : ascii) : bool :=
  let n := nat_of_ascii c in
  ((65 <=? n) && (n <=? 90) || (97 <=? n) && (n <=? 122))%nat.

Definition is_digit (c : ascii) : bool :=
  let n := nat_of_ascii c in ((48 <=? n) && (n <=? 57))%nat.

Definition is_underscore (c : ascii) : bool := Ascii.eqb c "_".

Definition name_start (c : ascii) : bool := is_letter c || is_underscore c.

Definition name_char (c : ascii) : bool :=
  is_letter c || is_digit c || is_underscore c.

Definition t_NAME (s : string) : bool :=
  match s with
  | EmptyString => false
  | String c s' => name_start c && forallb name_char (list_ascii_of_string s')
  end.

(** The trees the grammar actions build.  [expression] follows the
    [p_expression_*] and [p_fn_apply*] rules, [expr_list] the two
    [p_expr_list_*] rules, [statement] the two [p_statement_*] rules. *)
Inductive expression : ValueTree -> Prop :=
  | p_expression_assign name e :
      t_NAME name = true -> expression e ->
      expression (Node (VStr "set") [Node (VStr name) []; e])
  | p_expression_binop op e1 e2 :
      In op ["+"; "-"; "*"; "/"] -> expression e1 -> expression e2 ->
      expression (Node (VStr "apply") [Node (VStr op) []; e1; e2])
  | p_expression_uminus e :
      expression e ->
      expression (Node (VStr "apply") [Node (VStr "neg") []; e])
  | p_fn_apply_0 name :
      t_NAME name = true ->
      expression (Node (VStr "apply") [Node (VStr name) []])
  | p_fn_apply name args :
      t_NAME name = true -> expr_list args ->
      expression (Node (VStr "apply") (Node (VStr name) [] :: args))
  | p_expression_number n :
      0 <= n ->
      expression (Node (VStr "const") [Node (VInt n) []])
  | p_expression_name name :
      t_NAME name = true ->
      expression (Node (VStr "get") [Node (VStr name) []])
with expr_list : list ValueTree -> Prop :=
  | p_expr_list_1 e :
      expression e -> expr_list [e]
  | p_expr_list_2 l e :
      expr_list l -> expression e -> expr_list (l ++ [e]).

Scheme expression_mut := Minimality for expression Sort Prop
  with expr_list_mut := Minimality for expr_list Sort Prop.

Inductive statement : ValueTree -> Prop :=
  | p_statement_expr e : expression e -> statement e
  | p_statement_empty : statement (Node (VStr "pass") []).

(** The attributes an [ExprParser] object has: the instance variables
    the two [__init__] methods set and the methods of [ExprParser] and
    [ValueParser]. *)
Definition ExprParser_attributes : list string :=
  ["lexer"; "yacc"; "error_stack"; "node_types";
   "__init__"; "parse"; "unparse"].

(** [self.fn_to_op] inside [ExprParser.unparse]: the attribute lookup,
    which would yield a table from node values to operator symbols. *)
Definition self_fn_to_op : result (list (string * string)) :=
  if existsb (String.eqb "fn_to_op") ExprParser_attributes then Ok []
  else Raise (AttributeError
                "'ExprParser' object has no attribute 'fn_to_op'").

(** [ExprParser.unparse]. *)
Fixpoint unparse (t : ValueTree) : result string :=
  match t with
  | Node v children =>
    let n := length children in
    if (n =? 0)%nat then Ok (py_str v)
    else
      match self_fn_to_op with
      | Raise e => Raise e
      | Ok fn_to_op =>
        let op := dict_get fn_to_op v in
        let binary_op :=
          (n =? 2)%nat && match op with Some _ => true | None => false end in
        let op := match op with Some o => o | None => py_str v end in
        let fix unparse_all (cs : list ValueTree) : result (list string) :=
          match cs with
          | [] => Ok []
          | c :: cs' =>
            match unparse c with
            | Raise e => Raise e
            | Ok s =>
              match unparse_all cs' with
              | Raise e => Raise e
              | Ok l => Ok (s :: l)
              end
            end
          end in
        match unparse_all children with
        | Raise e => Raise e
        | Ok parts =>
          if binary_op then
            match parts with
            | [a; b] => Ok ("(" +:+ a +:+ " " +:+ op +:+ " " +:+ b +:+ ")")
            | _ => Raise IndexError
            end
          else Ok (op +:+ "(" +:+ String.concat "," parts +:+ ")")
        end
      end
  end.

(** ** The Python that [compile] emits

    The statements are run as [comptest.py] runs them: the lines are
    joined into one program, Python compiles it, then executes it in a
    dictionary of variables.  The reader below accepts the lines the
    compiler emits for trees the evaluator accepts: comments,
    [name = expression], [del(name)], with expressions built from names,
    unsigned literals, [(-e)] and [(e1 op e2)] for [+ - * / **].  Any
    other line is refused as a [SyntaxError]; Python itself accepts more. *)

Inductive pyexpr : Type :=
  | PName (x : string)
  | PNum (n : Z)
  | PNeg (e : pyexpr)
  | PBin (op : string) (e1 e2 : pyexpr).

Inductive pystmt : Type :=
  | SComment
  | SAssign (x : string) (e : pyexpr)
  | SDel (x : string).

(** The reserved words of Python 3, none of which is an identifier. *)
Definition keywords : list string :=
  ["False"; "None"; "True"; "and"; "as"; "assert"; "async"; "await";
   "break"; "class"; "continue"; "def"; "del"; "elif"; "else"; "except";
   "finally"; "for"; "from"; "global"; "if"; "import"; "in"; "is";
   "lambda"; "nonlocal"; "not"; "or"; "pass"; "raise"; "return"; "try";
   "while"; "with"; "yield"].

Definition is_keyword (s : string) : bool := existsb (String.eqb s) keywords.

Definition is_identifier (s : string) : bool := t_NAME s && negb (is_keyword s).

Definition binary_operators : list string := ["+"; "-"; "*"; "/"; "**"].

Definition operator_char (c : ascii) : bool :=
  existsb (Ascii.eqb c) ["+"; "-"; "*"; "/"]%char.

(** The longest prefix of characters satisfying [p], and the rest. *)
Fixpoint span (p : ascii -> bool) (l : list ascii) : list ascii * list ascii :=
  match l with
  | c :: l' =>
    if p c then let (w, r) := span p l' in (c :: w, r) else ([], l)
  | [] => ([], [])
  end.

(** A name or an unsigned decimal literal (as [str] prints an [int]). *)
Definition read_atom (l : list ascii) : option (pyexpr * list ascii) :=
  let (w, r) := span name_char l in
  let s := string_of_list_ascii w in
  match w with
  | [] => None
  | c :: _ =>
    if is_digit c then
      match NilZero.int_of_string s with
      | Some d =>
        if String.eqb (str_of_Z (Z.of_int d)) s
        then Some (PNum (Z.of_int d), r) else None
      | None => None
      end
    else if is_identifier s then Some (PName s, r)
    else None
  end.

Fixpoint read_expr (fuel : nat) (l : list ascii) : option (pyexpr * list ascii) :=
  match fuel with
  | O => None
  | S fuel' =>
    match l with
    | c :: l1 =>
      if Ascii.eqb c "(" then
        match l1 with
        | c1 :: l2 =>
          if Ascii.eqb c1 "-" then
            (* ( - expression ) *)
            match read_expr fuel' l2 with
            | Some (e, c2 :: r) =>
              if Ascii.eqb c2 ")" then Some (PNeg e, r) else None
            | _ => None
            end
          else
            (* ( expression operator expression ) *)
            match read_expr fuel' l1 with
            | Some (e1, c2 :: l3) =>
              let (o, l4) := span operator_char l3 in
              let op := string_of_list_ascii o in
              if Ascii.eqb c2 " " && existsb (String.eqb op) binary_operators then
                match l4 with
                | c3 :: l5 =>
                  if Ascii.eqb c3 " " then
                    match read_expr fuel' l5 with
                    | Some (e2, c4 :: r) =>
                      if Ascii.eqb c4 ")" then Some (PBin op e1 e2, r) else None
                    | _ => None
                    end
                  else None
                | [] => None
                end
              else None
            | _ => None
            end
        | [] => None
        end
      else read_atom l
    | [] => None
    end
  end.

(** One line of the program.  A comment runs to the end of its line, so
    a line with a newline in it is not one comment. *)
Definition read_stmt (line : string) : option pystmt :=
  let l := list_ascii_of_string line in
  match l with
  | [] => None
  | c :: rest =>
    if Ascii.eqb c "#" then
      if existsb (Ascii.eqb (ascii_of_nat 10)) rest then None else Some SComment
    else
      let (w, r) := span name_char l in
      let x := string_of_list_ascii w in
      if String.eqb x "del" then
        match r with
        | c1 :: r1 =>
          let (w1, r2) := span name_char r1 in
          let y := string_of_list_ascii w1 in
          if Ascii.eqb c1 "(" && is_identifier y
             && bool_decide (r2 = [")"%char])
          then Some (SDel y) else None
        | [] => None
        end
      else if is_identifier x then
        match r with
        | c1 :: c2 :: c3 :: r1 =>
          if Ascii.eqb c1 " " && Ascii.eqb c2 "=" && Ascii.eqb c3 " " then
            match read_expr (length r1) r1 with
            | Some (e, []) => Some (SAssign x e)
            | _ => None
            end
          else None
        | _ => None
        end
      else None
  end.

Fixpoint read_program (code : list string) : option (list pystmt) :=
  match code with
  | [] => Some []
  | line :: code' =>
    match read_stmt line, read_program code' with
    | Some s, Some p => Some (s :: p)
    | _, _ => None
    end
  end.

Section Python.
Context `{PyArith}.

(** The variables of an execution: the [locals] dictionary. *)
Abbreviation context := (gmap string num).

Definition binary_operation (op : string) : num -> num -> result num :=
  if String.eqb op "+" then py_add
  else if String.eqb op "-" then py_sub
  else if String.eqb op "*" then py_mul
  else if String.eqb op "/" then py_truediv
  else py_pow.

Fixpoint eval_py (e : pyexpr) (ctx : context) : result num :=
  match e with
  | PName x =>
    match ctx !! x with
    | Some v => Ok v
    | None => Raise (NameError x)
    end
  | PNum n => Ok (lit (VInt n))
  | PNeg e1 =>
    match eval_py e1 ctx with
    | Ok v => py_neg v
    | Raise e => Raise e
    end
  | PBin op e1 e2 =>
    match eval_py e1 ctx with
    | Ok v1 =>
      match eval_py e2 ctx with
      | Ok v2 => binary_operation op v1 v2
      | Raise e => Raise e
      end
    | Raise e => Raise e
    end
  end.

Definition exec_stmt (s : pystmt) (ctx : context) : result unit * context :=
  match s with
  | SComment => (Ok tt, ctx)
  | SAssign x e =>
    match eval_py e ctx with
    | Ok v => (Ok tt, <[x := v]> ctx)
    | Raise e => (Raise e, ctx)
    end
  | SDel x =>
    match ctx !! x with
    | Some _ => (Ok tt, delete x ctx)
    | None => (Raise (NameError x), ctx)
    end
  end.

Fixpoint exec_stmts (p : list pystmt) (ctx : context) : result unit * context :=
  match p with
  | [] => (Ok tt, ctx)
  | s :: p' =>
    match exec_stmt s ctx with
    | (Ok _, ctx') => exec_stmts p' ctx'
    | (Raise e, ctx') => (Raise e, ctx')
    end
  end.

(** [exec(program, globals, locals)] for the program made of the lines
    [code]: nothing runs unless every line compiles. *)
Definition exec_program (code : list string) (ctx : context)
  : result unit * context :=
  match read_program code with
  | Some p => exec_stmts p ctx
  | None => (Raise SyntaxError, ctx)
  end.

End Python.

(** ** An instance of the arithmetic: [int] and [str] objects

    Exact integers under [-x], [+], [-], [*] and [**] with a
    non-negative exponent; concatenation and repetition of strings; a
    [TypeError] for the other operand types.  A quotient of two integers
    and a power with a negative exponent are floats, which the instance
    does not hold. *)

Fixpoint str_repeat (s : string) (n : nat) : string :=
  match n with
  | O => EmptyString
  | S n' => s +:+ str_repeat s n'
  end.

Definition int_neg (x : value) : result value :=
  match x with
  | VInt a => Ok (VInt (- a))
  | VStr _ => Raise TypeError
  end.

Definition int_add (x y : value) : result value :=
  match x, y with
  | VInt a, VInt b => Ok (VInt (a + b))
  | VStr a, VStr b => Ok (VStr (a +:+ b))
  | _, _ => Raise TypeError
  end.

Definition int_sub (x y : value) : result value :=
  match x, y with
  | VInt a, VInt b => Ok (VInt (a - b))
  | _, _ => Raise TypeError
  end.

Definition int_mul (x y : value) : result value :=
  match x, y with
  | VInt a, VInt b => Ok (VInt (a * b))
  | VStr a, VInt b => Ok (VStr (str_repeat a (Z.to_nat b)))
  | VInt a, VStr b => Ok (VStr (str_repeat b (Z.to_nat a)))
  | VStr _, VStr _ => Raise TypeError
  end.

Definition int_truediv (x y : value) : result value :=
  match x, y with
  | VInt a, VInt b =>
    if b =? 0 then Raise ZeroDivisionError else Raise NotRepresented
  | _, _ => Raise TypeError
  end.

Definition int_pow (x y : value) : result value :=
  match x, y with
  | VInt a, VInt b =>
    if 0 <=? b then Ok (VInt (a ^ b))
    else if a =? 0 then Raise ZeroDivisionError
    else Raise NotRepresented
  | _, _ => Raise TypeError
  end.

Definition int_arith : PyArith := {|
  num := value;
  lit := fun v => v;
  py_neg := int_neg;
  py_add := int_add;
  py_sub := int_sub;
  py_mul := int_mul;
  py_truediv := int_truediv;
  py_pow := int_pow;
|}.

(** The tree of the empty input, built by [p_statement_empty]. *)
Definition pass_tree : ValueTree := Node (VStr "pass") [].

(** The message of the [ValueError] both backends raise for a node type
    they have no branch for. *)
Definition not_implemented (ntype : value) : string :=
  "Evaluation internal error, AST node type '" +:+ py_str ntype
    +:+ "' not implemented".

(** Whether a name begins with the underscore that the temporaries and
    [_result] begin with. *)
Definition starts_with_underscore (s : string) : bool :=
  match s with
  | String c _ => is_underscore c
  | EmptyString => false
  end.

(** Whether every [apply] node of a tree has the children its branch of
    [compile_ast] indexes: an argument for [neg] and for [sqr], two
    arguments for any other operator. *)
Fixpoint enough_arguments (t : ValueTree) : bool :=
  match t with
  | Node ntype children =>
    (if value_eqb ntype (VStr "apply") then
       match children with
       | c0 :: rest =>
         if value_eqb (get_value c0) (VStr "neg")
            || value_eqb (get_value c0) (VStr "sqr")
         then (1 <=? length rest)%nat
         else (2 <=? length rest)%nat
       | [] => true
       end
     else true)
    && forallb enough_arguments children
  end.

(** Whether a tree holds an [apply] of an operator that has no function
    in [op_to_fn]. *)
Fixpoint has_unimplemented_operator `{PyArith} (t : ValueTree) : bool :=
  match t with
  | Node ntype children =>
    (value_eqb ntype (VStr "apply") &&
     match children with
     | c0 :: _ =>
       match op_to_fn_get (get_value c0) with
       | Some _ => false
       | None => true
       end
     | [] => false
     end)
    || existsb has_unimplemented_operator children
  end.

(** A computation respects the relation [R] between the state before
    and the state after. *)
Definition steps (R : cstate -> cstate -> Prop) {A} (c : comp A) : Prop :=
  forall st, R st (snd (c st)).

(** The keys of a generation map are all [str] objects. *)
Definition keys_str (d : gens) : Prop :=
  Forall (fun kv => exists x, fst kv = VStr x) d.

(** A generation map as [compile] builds it from the empty one: no key
    twice, every generation positive. *)
Definition gens_wf (d : gens) : Prop :=
  NoDup (map fst d) /\ Forall (fun kv => 0 < snd kv) d.

(** How [compile_ast] writes an expression of the fragment. *)
Fixpoint render (e : pyexpr) : string :=
  match e with
  | PName x => x
  | PNum n => str_of_Z n
  | PNeg e1 => "(-" +:+ render e1 +:+ ")"
  | PBin op e1 e2 =>
    "(" +:+ render e1 +:+ " " +:+ op +:+ " " +:+ render e2 +:+ ")"
  end.

(** The expressions the reader hands back: identifiers for names,
    literals without a sign, operators of the fragment. *)
Fixpoint canonical (e : pyexpr) : bool :=
  match e with
  | PName x => is_identifier x
  | PNum n => 0 <=? n
  | PNeg e1 => canonical e1
  | PBin op e1 e2 =>
    existsb (String.eqb op) binary_operators && canonical e1 && canonical e2
  end.

Fixpoint depth (e : pyexpr) : nat :=
  match e with
  | PName _ | PNum _ => O
  | PNeg e1 => S (depth e1)
  | PBin _ e1 e2 => S (Nat.max (depth e1) (depth e2))
  end.

(** What may follow an expression in a line: nothing, or a character
    that cannot continue a name or a literal. *)
Definition ends_word (rest : list ascii) : Prop :=
  match rest with
  | [] => True
  | c :: _ => name_char c = false
  end.

(** ** Relating an evaluation to the execution of the compiled code *)

(** The name of generation [g] of the variable [x]. *)
Definition gen_name (x : string) (g : Z) : string := py_str (make_gen_name (VStr x) g).

(** The names a user can write without meeting a temporary, [_result]
    or a reserved word of Python. *)
Definition user_name (x : string) : bool :=
  is_identifier x && negb (starts_with_underscore x).

(** Every variable read or assigned in the tree has such a name. *)
Fixpoint plain_names (t : ValueTree) : bool :=
  match t with
  | Node ntype children =>
    (if value_eqb ntype (VStr "get") || value_eqb ntype (VStr "set") then
       match children with
       | c0 :: _ =>
         match get_value c0 with
         | VStr x => user_name x
         | VInt _ => false
         end
       | [] => true
       end
     else true)
    && forallb plain_names children
  end.

Definition no_newline (s : string) : bool :=
  negb (existsb (Ascii.eqb (ascii_of_nat 10)) (list_ascii_of_string s)).




Definition gens_le (d d' : gens) : Prop :=
  forall k, gens_get_default d k <= gens_get_default d' k.

(** A name is settled when it is not the temporary of a generation the
    map has yet to reach; the statements still to come assign no settled
    name. *)
Definition settled (vd : gens) (n : string) : Prop :=
  forall x g, 0 < g -> n = gen_name x g -> g <= gens_get_default vd (VStr x).

Fixpoint py_names (e : pyexpr) : list string :=
  match e with
  | PName x => [x]
  | PNum _ => []
  | PNeg e1 => py_names e1
  | PBin _ e1 e2 => py_names e1 ++ py_names e2
  end.

Definition names_settled (vd : gens) (e : pyexpr) : Prop :=
  Forall (settled vd) (py_names e).

Definition keys_user (d : gens) : Prop :=
  Forall (fun kv => exists x, fst kv = VStr x /\ user_name x = true) d.

(** The statements of the cleanup of one variable. *)
Definition cleanup_stmts (t : value * Z) : list pystmt :=
  match t with
  | (VStr x, g) =>
    [SComment; SAssign x (PName (gen_name x g))]
    ++ map (fun k => SDel (gen_name x k)) (range1 g)
  | (VInt _, _) => []
  end.

Section Simulation.
Context `{PyArith}.

(** [x ** 2] computes the square [x * x], as it does on [int] objects. *)
Definition pow2_is_square : Prop :=
  forall x : num, py_pow x (lit (VInt 2)) = py_mul x x.

(** Two contexts agree on the settled names. *)
Definition frame (vd : gens) (C C' : gmap string num) : Prop :=
  forall n, settled vd n -> C' !! n = C !! n.

(** The context [C] of the compiled code stands for the store [B] of the
    evaluator under the generation map [vd]: the current generation of
    each name without a leading underscore holds what [B] binds the name
    to, and every generation reached so far is bound. *)
Definition sim (B : gmap value num) (vd : gens) (C : gmap string num) : Prop :=
  (forall x, starts_with_underscore x = false ->
     C !! gen_name x (gens_get_default vd (VStr x)) = B !! VStr x)
  /\
  (forall x g, 0 < g <= gens_get_default vd (VStr x) ->
     is_Some (C !! gen_name x g)).

(** What holds of the context while the variables of [todo] await their
    cleanup: the others already have their final value under their bare
    name, those of [todo] have it under the name of their last
    generation, with all their generations bound. *)
Definition cleanup_inv (B' : gmap value num) (v : num) (todo : gens)
    (C : gmap string num) : Prop :=
  C !! "_result" = Some v /\
  (forall x, starts_with_underscore x = false ->
     ~ In (VStr x) (map fst todo) -> C !! x = B' !! VStr x) /\
  (forall x g, In (VStr x, g) todo ->
     C !! gen_name x g = B' !! VStr x /\
     forall k, 0 < k <= g -> is_Some (C !! gen_name x k)).

(** What the simulation proves of one call [compile_ast t st] whose
    outcome is [r], for an evaluation of [t] that took the store [B] to
    [B'] and returned [v]: the call returns the text of an expression
    [e] and appends lines [new] that read back as statements; run in a
    context that stands for [B], the statements end in a context that
    stands for [B'], leave the settled names alone, and there [e] has
    the value [v]. *)
Definition simulated (B B' : gmap value num) (v : num) (st : cstate)
    (r : result value * cstate) : Prop :=
  exists e new vd',
    r = (Ok (VStr (render e)), CState vd' (cs_code st ++ new)) /\
    canonical e = true /\ names_settled vd' e /\
    gens_wf vd' /\ keys_user vd' /\ gens_le (cs_var_dict st) vd' /\
    exists stmts, read_program new = Some stmts /\
      forall C, sim B (cs_var_dict st) C ->
        exists C', exec_stmts stmts C = (Ok tt, C') /\ sim B' vd' C' /\
                   frame (cs_var_dict st) C C' /\ eval_py e C' = Ok v.

End Simulation.

(** ** What a tree assigns, and what its calls need *)

(** No node of the tree is an assignment: a [set] node with the two
    children both backends index. *)
Fixpoint assignment_free (t : ValueTree) : bool :=
  match t with
  | Node ntype children =>
    negb (value_eqb ntype (VStr "set") && (2 <=? length children)%nat)
    && forallb assignment_free children
  end.

(** The names the [set] nodes of a tree assign, left to right. *)
Fixpoint assigned (t : ValueTree) : list value :=
  match t with
  | Node ntype children =>
    (if value_eqb ntype (VStr "set") then
       match children with
       | c0 :: _ => [get_value c0]
       | [] => []
       end
     else [])
    ++ flat_map assigned children
  end.

(** Every [apply] node of the tree applies an operator that has a
    function in [op_to_fn] to as many arguments as the function takes:
    one for [neg] and [sqr], two for [+], [-], [*] and [/]. *)
Fixpoint calls_implemented (t : ValueTree) : bool :=
  match t with
  | Node ntype children =>
    (if value_eqb ntype (VStr "apply") then
       match children with
       | c0 :: rest =>
         if value_eqb (get_value c0) (VStr "neg")
            || value_eqb (get_value c0) (VStr "sqr")
         then (length rest =? 1)%nat
         else existsb (value_eqb (get_value c0))
                [VStr "+"; VStr "-"; VStr "*"; VStr "/"]
              && (length rest =? 2)%nat
       | [] => true
       end
     else true)
    && forallb calls_implemented children
  end.

(** The exception [e] is one that an operation of the arithmetic raises
    on some operands. *)
Definition arith_raises `{PyArith} (e : exn) : Prop :=
  (exists x, py_neg x = Raise e) \/
  (exists x y, py_add x y = Raise e) \/
  (exists x y, py_sub x y = Raise e) \/
  (exists x y, py_mul x y = Raise e) \/
  (exists x y, py_truediv x y = Raise e).

(** A computation does not look at the statements already in the list:
    run on a list [code], it returns what it returns on the empty list
    and leaves [code] followed by what it leaves there. *)
Definition ignores_code {A} (c : comp A) : Prop :=
  forall vd code,
    c (CState vd code) =
    (fst (c (CState vd [])),
     CState (cs_var_dict (snd (c (CState vd []))))
            (code ++ cs_code (snd (c (CState vd []))))).

(** The line is an assignment to a temporary of the variable [w]. *)
Definition assigns_to (line : string) (w : value) : Prop :=
  exists g rhs,
    line = ("_" +:+ py_str w +:+ "_" +:+ str_of_Z g) +:+ " = " +:+ rhs.

(** The order of two items of the generation map under [key_fn]. *)
Definition key_le (a b : value * Z) : Prop :=
  exists ka kb, key_fn a = Ok ka /\ key_fn b = Ok kb /\ String.leb ka kb = true.

(** ** The outcome of an evaluation against the run of the compiled code *)

(** Every statement assigns the name of a generation above the one the
    map [vd] has for its variable and up to the one [vd'] has. *)
Definition assigns_between (vd vd' : gens) (stmts : list pystmt) : Prop :=
  Forall (fun s => exists x g e,
            s = SAssign (gen_name x g) e /\ 0 < g /\
            gens_get_default vd (VStr x) < g <= gens_get_default vd' (VStr x))
         stmts.

(** The outcome [r] of a call [compile_ast t st] is the text of the
    expression [e], with the map left at [vd'] and lines appended that
    read back as the statements [stmts]. *)
Definition translated (st : cstate) (r : result value * cstate)
    (e : pyexpr) (stmts : list pystmt) (vd' : gens) : Prop :=
  exists new,
    r = (Ok (VStr (render e)), CState vd' (cs_code st ++ new)) /\
    canonical e = true /\ names_settled vd' e /\
    gens_wf vd' /\ keys_user vd' /\ gens_le (cs_var_dict st) vd' /\
    read_program new = Some stmts /\
    assigns_between (cs_var_dict st) vd' stmts.

Section Outcome.
Context `{PyArith}.

(** A context and a store bind the names that do not begin with an
    underscore alike. *)
Definition agree (B : gmap value num) (C : gmap string num) : Prop :=
  forall x, starts_with_underscore x = false -> C !! x = B !! VStr x.

(** The statements [stmts] and the expression [e] do what the
    evaluation with outcome [ev] did from the store [B]: when it
    returned a value, they run to the end and [e] has that value; when
    it raised, a statement raises or, failing that, [e] does. *)
Definition run_agrees (B : gmap value num) (ev : result num * gmap value num)
    (vd vd' : gens) (e : pyexpr) (stmts : list pystmt) : Prop :=
  forall C, sim B vd C ->
    match ev with
    | (Ok v, B') =>
      exists C', exec_stmts stmts C = (Ok tt, C') /\ sim B' vd' C' /\
                 eval_py e C' = Ok v
    | (Raise _, _) =>
      (exists err C', exec_stmts stmts C = (Raise err, C')) \/
      (exists C', exec_stmts stmts C = (Ok tt, C') /\
                  exists err, eval_py e C' = Raise err)
    end.

(** The call [compile_ast t st] translates the tree, and the translation
    does what the evaluation of the tree from [B] did. *)
Definition outcomes_agree (B : gmap value num) (t : ValueTree) (st : cstate) : Prop :=
  exists e stmts vd',
    translated st (compile_ast t st) e stmts vd' /\
    run_agrees B (evaluate_ast t B) (cs_var_dict st) vd' e stmts.

(** What [compile_ast] appends for a tree and where it leaves the
    generations, against the assignments the evaluator logged: a
    statement for each, in the same order, and a generation more for
    each assignment to the variable. *)
Definition follows_log (t : ValueTree) (B : gmap value num) (st : cstate) : Prop :=
  exists s new vd',
    compile_ast t st = (Ok (VStr s), CState vd' (cs_code st ++ new)) /\
    Forall2 assigns_to new (map fst (set_log t B)) /\
    forall x, gens_get_default vd' x =
              gens_get_default (cs_var_dict st) x
              + Z.of_nat (count_occ value_eq_dec (map fst (set_log t B)) x).

End Outcome.

(** ** The lexer of [exprparser.py]

    The token rules of the source, applied as the lexer engine applies
    them: at each position the characters of [t_ignore] are skipped; then
    the rules are tried, those given as functions first ([t_NUMBER],
    [t_newline]) and then those given as strings, a rule taking the
    longest run its pattern matches; then the literals; and a character
    that nothing accepts goes to [t_error], which records a diagnostic
    and skips it. *)

Inductive token : Type :=
  | NAME (value : string)
  | NUMBER (value : Z)
  | COMMA
  | LPAREN
  | RPAREN
  | LITERAL (c : ascii).

Definition literals : list ascii := ["="; "+"; "-"; "*"; "/"]%char.

Definition t_ignore : list ascii := [" "%char; ascii_of_nat 9].

(** [t.value = int(t.value)] of [t_NUMBER], on a run of digits. *)
Definition t_NUMBER (digits : list ascii) : token :=
  NUMBER (match NilZero.int_of_string (string_of_list_ascii digits) with
          | Some d => Z.of_int d
          | None => 0
          end).

(** The diagnostic [t_error] appends for [t.value[0]]. *)
Definition t_error (c : ascii) : string :=
  "Illegal character '" +:+ String c EmptyString +:+ "'".

Definition is_newline (c : ascii) : bool := Ascii.eqb c (ascii_of_nat 10).

(** The tokens of the text and the diagnostics of [t_error], in order.
    [fuel] bounds the number of rule applications; the length of the
    text is enough, each application taking a character at least. *)
Fixpoint lex (fuel : nat) (l : list ascii) : list token * list string :=
  match fuel with
  | O => ([], [])
  | S fuel' =>
    match l with
    | [] => ([], [])
    | c :: l' =>
      if existsb (Ascii.eqb c) t_ignore then lex fuel' l'
      else if is_digit c then
        let (w, r) := span is_digit l in
        let (ts, es) := lex fuel' r in (t_NUMBER w :: ts, es)
      else if is_newline c then
        let (_, r) := span is_newline l in lex fuel' r
      else if name_start c then
        let (w, r) := span name_char l in
        let (ts, es) := lex fuel' r in (NAME (string_of_list_ascii w) :: ts, es)
      else if Ascii.eqb c "(" then
        let (ts, es) := lex fuel' l' in (LPAREN :: ts, es)
      else if Ascii.eqb c ")" then
        let (ts, es) := lex fuel' l' in (RPAREN :: ts, es)
      else if Ascii.eqb c "," then
        let (ts, es) := lex fuel' l' in (COMMA :: ts, es)
      else if existsb (Ascii.eqb c) literals then
        let (ts, es) := lex fuel' l' in (LITERAL c :: ts, es)
      else
        let (ts, es) := lex fuel' l' in (ts, t_error c :: es)
    end
  end.

Definition tokenize (s : string) : list token * list string :=
  lex (String.length s) (list_ascii_of_string s).

(** What the rules let a token carry. *)
Definition token_ok (t : token) : Prop :=
  match t with
  | NAME v => t_NAME v = true
  | NUMBER v => 0 <= v
  | LITERAL c => In c literals
  | COMMA | LPAREN | RPAREN => True
  end.

(** A character no rule accepts. *)
Definition illegal (c : ascii) : bool :=
  negb (existsb (Ascii.eqb c) t_ignore || is_digit c || is_newline c
        || name_start c || Ascii.eqb c "(" || Ascii.eqb c ")" || Ascii.eqb c ","
        || existsb (Ascii.eqb c) literals).

(** The text of a token, and a text for a list of tokens: the tokens
    with a space after each. *)
Definition token_text (t : token) : string :=
  match t with
  | NAME v => v
  | NUMBER v => str_of_Z v
  | COMMA => ","
  | LPAREN => "("
  | RPAREN => ")"
  | LITERAL c => String c EmptyString
  end.

Fixpoint tokens_text (ts : list token) : string :=
  match ts with
  | [] => EmptyString
  | t :: ts' => token_text t +:+ " " +:+ tokens_text ts'
  end.

(** The grammar: the token lists each rule derives, with the tree its
    action builds.  The rules are ambiguous as they stand; the
    [precedence] table chooses among the derivations of a text, and any
    tree the parser hands back for a text it accepts is the tree of one
    of them. *)
Inductive parses_expression : list token -> ValueTree -> Prop :=
  | parses_assign name ts e :
      parses_expression ts e ->
      parses_expression (NAME name :: LITERAL "=" :: ts)
        (Node (VStr "set") [Node (VStr name) []; e])
  | parses_binop op ts1 e1 ts2 e2 :
      In op ["+"; "-"; "*"; "/"]%char ->
      parses_expression ts1 e1 -> parses_expression ts2 e2 ->
      parses_expression (ts1 ++ LITERAL op :: ts2)
        (Node (VStr "apply") [Node (VStr (String op EmptyString)) []; e1; e2])
  | parses_uminus ts e :
      parses_expression ts e ->
      parses_expression (LITERAL "-" :: ts)
        (Node (VStr "apply") [Node (VStr "neg") []; e])
  | parses_fn_apply_0 name :
      parses_expression [NAME name; LPAREN; RPAREN]
        (Node (VStr "apply") [Node (VStr name) []])
  | parses_fn_apply name ts args :
      parses_expr_list ts args ->
      parses_expression (NAME name :: LPAREN :: ts ++ [RPAREN])
        (Node (VStr "apply") (Node (VStr name) [] :: args))
  | parses_group ts e :
      parses_expression ts e ->
      parses_expression (LPAREN :: ts ++ [RPAREN]) e
  | parses_number n :
      parses_expression [NUMBER n] (Node (VStr "const") [Node (VInt n) []])
  | parses_name name :
      parses_expression [NAME name] (Node (VStr "get") [Node (VStr name) []])
with parses_expr_list : list token -> list ValueTree -> Prop :=
  | parses_expr_list_1 ts e :
      parses_expression ts e -> parses_expr_list ts [e]
  | parses_expr_list_2 ts1 l ts2 e :
      parses_expr_list ts1 l -> parses_expression ts2 e ->
      parses_expr_list (ts1 ++ COMMA :: ts2) (l ++ [e]).

Scheme parses_expression_mut := Minimality for parses_expression Sort Prop
  with parses_expr_list_mut := Minimality for parses_expr_list Sort Prop.

Inductive parses_statement : list token -> ValueTree -> Prop :=
  | parses_statement_expr ts e :
      parses_expression ts e -> parses_statement ts e
  | parses_statement_empty : parses_statement [] (Node (VStr "pass") []).

(** The text with a blank for each character that no rule accepts. *)
Definition blank (c : ascii) : ascii := if illegal c then " "%char else c.

(** A text of ASCII characters.  The lexer of the source reads the
    characters of a [str]; on a text of ASCII characters they are the
    elements of the [string], and the digits of [\d] are [0] to [9]. *)
Definition ascii_text (s : string) : bool :=
  forallb (fun c => (nat_of_ascii c <? 128)%nat) (list_ascii_of_string s).

(** ** Trees of some inputs

    The four node shapes as the grammar actions build them, to write the
    trees of concrete inputs with. *)
Definition T_const (n : Z) : ValueTree := Node (VStr "const") [Node (VInt n) []].

Definition T_get (name : string) : ValueTree :=
  Node (VStr "get") [Node (VStr name) []].

Definition T_set (name : string) (e : ValueTree) : ValueTree :=
  Node (VStr "set") [Node (VStr name) []; e].

Definition T_apply (op : string) (args : list ValueTree) : ValueTree :=
  Node (VStr "apply") (Node (VStr op) [] :: args).

(** [(x = 1) + y] *)
Definition tree_set_then_unbound : ValueTree :=
  T_apply "+" [T_set "x" (T_const 1); T_get "y"].

(** [f(x = 1)] *)
Definition tree_unknown_call : ValueTree := T_apply "f" [T_set "x" (T_const 1)].

(** [f(1, 2)] *)
Definition tree_call_two : ValueTree := T_apply "f" [T_const 1; T_const 2].

(** [x = 1 + (y = 2) + (z = x)]: the assignment binds loosest *)
Definition tree_nested_assignments : ValueTree :=
  T_set "x" (T_apply "+" [T_apply "+" [T_const 1; T_set "y" (T_const 2)];
                          T_set "z" (T_get "x")]).

(** [_p_ + _g_ + _y_ = 3] *)
Definition tree_underscored : ValueTree :=
  T_apply "+" [T_apply "+" [T_get "_p_"; T_get "_g_"]; T_set "_y_" (T_const 3)].

(** [sqr(100)/10] *)
Definition tree_square_quotient : ValueTree :=
  T_apply "/" [T_apply "sqr" [T_const 100]; T_const 10].

(** [(x = 1) + _x_1] *)
Definition tree_temporary_clash : ValueTree :=
  T_apply "+" [T_set "x" (T_const 1); T_get "_x_1"].

(** [(x = 1) + (x = x + 2) + (x = x + 42)] *)
Definition tree_three_generations : ValueTree :=
  T_apply "+"
    [T_apply "+" [T_set "x" (T_const 1);
                  T_set "x" (T_apply "+" [T_get "x"; T_const 2])];
     T_set "x" (T_apply "+" [T_get "x"; T_const 42])].

(** * Properties *)

(** ** Trees *)

Lemma ValueTree_children_ind (P : ValueTree -> Prop) :
  (forall v cs, Forall P cs -> P (Node v cs)) -> forall t, P t.
Proof.
  intros step. fix IH 1. intros [v cs]. apply step.
  induction cs as [|c cs IHcs]; constructor; [apply IH | exact IHcs].
Qed.

Lemma value_eqb_eq a b : value_eqb a b = true <-> a = b.
Proof. unfold value_eqb. apply bool_decide_eq_true. Qed.

Lemma value_eqb_refl a : value_eqb a a = true.
Proof. apply value_eqb_eq. reflexivity. Qed.

Lemma value_eqb_neq a b : a <> b -> value_eqb a b = false.
Proof. intros Hne. unfold value_eqb. apply bool_decide_eq_false. exact Hne. Qed.

(** ** The evaluator *)

Section CalculatorFacts.
Context `{PyArith}.

Lemma evaluate_ast_apply op c0s rest B :
  evaluate_ast (Node (VStr "apply") (Node op c0s :: rest)) B =
  match op_to_fn_get op with
  | None =>
    (Raise (ValueError ("Evaluation error, no implementation of operation '"
                          +:+ py_str op +:+ "'")), B)
  | Some fn =>
    match comprehension evaluate_ast rest B with
    | (Ok vs, vd) => (fn vs, vd)
    | (Raise e, vd) => (Raise e, vd)
    end
  end.
Proof. reflexivity. Qed.

Lemma evaluate_ast_set name c0s e rest B :
  evaluate_ast (Node (VStr "set") (Node name c0s :: e :: rest)) B =
  match evaluate_ast e B with
  | (Ok v, vd) => (Ok v, <[name := v]> vd)
  | (Raise err, vd) => (Raise err, vd)
  end.
Proof. reflexivity. Qed.

Lemma apply_sets_app l1 l2 (B : gmap value num) :
  apply_sets (l1 ++ l2) B = apply_sets l2 (apply_sets l1 B).
Proof. unfold apply_sets. apply fold_left_app. Qed.

Lemma apply_sets_bound l : forall (B : gmap value num) name,
  is_Some (B !! name) \/ In name (map fst l) ->
  is_Some (apply_sets l B !! name).
Proof.
  induction l as [|[k v] l IH]; intros B name Hin; simpl.
  - destruct Hin as [Hb | []]. exact Hb.
  - apply IH. destruct Hin as [Hb | [Hk | Hl]].
    + left. destruct (decide (k = name)) as [->|Hne].
      * rewrite lookup_insert_eq. eauto.
      * rewrite lookup_insert_ne by exact Hne. exact Hb.
    + left. simpl in Hk. subst k. rewrite lookup_insert_eq. eauto.
    + right. exact Hl.
Qed.

(** The store a call leaves is the store it was given with the logged
    assignments applied, whatever the outcome. *)
Lemma evaluate_ast_store t : forall B,
  snd (evaluate_ast t B) = apply_sets (set_log t B) B.
Proof.
  induction t as [ntype children IH] using ValueTree_children_ind.
  intros B. cbn [evaluate_ast set_log].
  destruct (value_eqb ntype (VStr "const")).
  { destruct children; reflexivity. }
  destruct (value_eqb ntype (VStr "apply")).
  { destruct children as [|c0 rest]; [reflexivity|].
    destruct (op_to_fn_get (get_value c0)) as [fn|]; [|reflexivity].
    inversion IH as [|? ? _ IHrest]; subst. clear IH.
    assert (Hloop : forall vd,
      snd (comprehension evaluate_ast rest vd) =
      apply_sets (comprehension_log set_log evaluate_ast rest vd) vd).
    { induction rest as [|c cs IHcs]; intros vd; [reflexivity|].
      inversion IHrest as [|? ? Hc Hcs]; subst.
      cbn [comprehension comprehension_log].
      specialize (Hc vd). rewrite apply_sets_app.
      destruct (evaluate_ast c vd) as [[v|e] vd1]; simpl in Hc; subst vd1.
      - specialize (IHcs Hcs (apply_sets (set_log c vd) vd)).
        destruct (comprehension evaluate_ast cs _) as [[vs|e] vd2];
          simpl in IHcs; simpl; exact IHcs.
      - reflexivity. }
    specialize (Hloop B).
    destruct (comprehension evaluate_ast rest B) as [[vs|e] vd];
      simpl in Hloop; simpl; exact Hloop. }
  destruct (value_eqb ntype (VStr "set")).
  { destruct children as [|c0 [|c1 rest]]; [reflexivity|reflexivity|].
    inversion IH as [|? ? _ IH1]; subst. inversion IH1 as [|? ? Hc1 _]; subst.
    specialize (Hc1 B). rewrite apply_sets_app.
    destruct (evaluate_ast c1 B) as [[v|e] vd]; simpl in Hc1; subst vd;
      reflexivity. }
  destruct (value_eqb ntype (VStr "get")).
  { destruct children as [|c0 rest]; [reflexivity|].
    destruct (B !! get_value c0); reflexivity. }
  reflexivity.
Qed.

(** C8.  If [evaluate_ast] raises, the store it leaves is the store it was
    given with every assignment of the [set] nodes evaluated before the
    failure applied, in order: none is undone, and every name so written
    is bound in the store after the failed call. *)
Theorem partial_effects_survive_failure t (B B' : gmap value num) e :
  evaluate_ast t B = (Raise e, B') ->
  B' = apply_sets (set_log t B) B /\
  forall name v, In (name, v) (set_log t B) -> is_Some (B' !! name).
Proof.
  intros Hev. pose proof (evaluate_ast_store t B) as Hst.
  rewrite Hev in Hst. simpl in Hst. split; [exact Hst|].
  intros name v Hin. rewrite Hst. apply apply_sets_bound. right.
  apply in_map_iff. exists (name, v). split; [reflexivity | exact Hin].
Qed.

(** C10.  An [apply] node whose operator has no entry with a function in
    [op_to_fn] raises the "no implementation" [ValueError] at once: no
    argument is evaluated, so the store is returned as it was given. *)
Theorem unknown_operator_raises_before_arguments op c0s args (B : gmap value num) :
  op_to_fn_get op = None ->
  evaluate_ast (Node (VStr "apply") (Node op c0s :: args)) B =
  (Raise (ValueError ("Evaluation error, no implementation of operation '"
                        +:+ py_str op +:+ "'")), B)
  /\ set_log (Node (VStr "apply") (Node op c0s :: args)) B = [].
Proof.
  intros Hop. split.
  - rewrite evaluate_ast_apply, Hop. reflexivity.
  - cbn [set_log]. simpl. rewrite Hop. reflexivity.
Qed.

End CalculatorFacts.

(** ** The compiler: what a call of [compile_ast] does to its state *)

Section Steps.
(** A relation between the state before and after that every mutation
    respects is respected by [compile_ast] as a whole. *)
Variable R : cstate -> cstate -> Prop.
Hypothesis R_refl : forall st, R st st.
Hypothesis R_trans : forall st1 st2 st3, R st1 st2 -> R st2 st3 -> R st1 st3.
Hypothesis R_append : forall line st, R st (snd (code_append line st)).
Hypothesis R_bump : forall name st, R st (snd (var_dict_bump name st)).

Local Abbreviation steps := (steps R).

Lemma steps_ret {A} (a : A) : steps (ret a).
Proof. intros st. apply R_refl. Qed.

Lemma steps_raise {A} e : steps (@raise A e).
Proof. intros st. apply R_refl. Qed.

Lemma steps_lift {A} (r : result A) : steps (lift r).
Proof. intros st. apply R_refl. Qed.

Lemma steps_get name : steps (var_dict_get name).
Proof. intros st. apply R_refl. Qed.

Lemma steps_bind {A B} (c : comp A) (k : A -> comp B) :
  steps c -> (forall a, steps (k a)) -> steps (bind c k).
Proof.
  intros Hc Hk st. unfold bind. specialize (Hc st).
  destruct (c st) as [[a|e] st1]; simpl in *.
  - eapply R_trans; [exact Hc | apply Hk].
  - exact Hc.
Qed.

Lemma compile_ast_steps t : steps (compile_ast t).
Proof.
  induction t as [ntype children IH] using ValueTree_children_ind.
  cbn [compile_ast].
  destruct (value_eqb ntype (VStr "const")).
  { destruct children; [apply steps_raise | apply steps_ret]. }
  destruct (value_eqb ntype (VStr "get")).
  { destruct children; [apply steps_raise|].
    apply steps_bind; [apply steps_get | intros; apply steps_ret]. }
  destruct (value_eqb ntype (VStr "set")).
  { destruct children as [|c0 [|c1 rest]]; try apply steps_raise.
    inversion IH as [|? ? _ IH1]; subst. inversion IH1 as [|? ? Hc1 _]; subst.
    apply steps_bind; [exact Hc1 | intros const_num].
    apply steps_bind; [intros st; apply R_bump | intros g].
    apply steps_bind; [apply steps_lift | intros s].
    apply steps_bind; [apply steps_lift | intros line].
    apply steps_bind; [intros st; apply R_append | intros _].
    apply steps_ret. }
  destruct (value_eqb ntype (VStr "apply")); [|apply steps_raise].
  destruct children as [|c0 rest]; [apply steps_raise|].
  inversion IH as [|? ? _ IHrest]; subst.
  destruct (value_eqb (get_value c0) (VStr "neg")).
  { destruct rest as [|c1 rest]; [apply steps_raise|].
    inversion IHrest as [|? ? Hc1 _]; subst.
    apply steps_bind; [exact Hc1 | intros t].
    apply steps_bind; [apply steps_lift | intros; apply steps_ret]. }
  destruct (value_eqb (get_value c0) (VStr "sqr")).
  { destruct rest as [|c1 rest]; [apply steps_raise|].
    inversion IHrest as [|? ? Hc1 _]; subst.
    apply steps_bind; [exact Hc1 | intros t].
    apply steps_bind; [apply steps_lift | intros; apply steps_ret]. }
  destruct rest as [|c1 rest]; [apply steps_raise|].
  inversion IHrest as [|? ? Hc1 IHrest']; subst.
  apply steps_bind; [exact Hc1 | intros d1].
  destruct rest as [|c2 rest]; [apply steps_raise|].
  inversion IHrest' as [|? ? Hc2 _]; subst.
  apply steps_bind; [exact Hc2 | intros d2].
  repeat (apply steps_bind; [apply steps_lift | intros ?]).
  apply steps_ret.
Qed.

End Steps.

(** [compile_ast] only appends to the list of statements. *)
Lemma compile_ast_appends t st :
  exists new, cs_code (snd (compile_ast t st)) = cs_code st ++ new.
Proof.
  apply (compile_ast_steps
           (fun st st' => exists new, cs_code st' = cs_code st ++ new)).
  - intros st0. exists []. symmetry. apply app_nil_r.
  - intros st1 st2 st3 [n1 H1] [n2 H2]. exists (n1 ++ n2).
    rewrite H2, H1. symmetry. apply app_assoc.
  - intros line st0. exists [line]. reflexivity.
  - intros name st0. exists []. symmetry. apply app_nil_r.
Qed.

Lemma gens_get_set_eq d k g : gens_get (gens_set d k g) k = Some g.
Proof.
  induction d as [|[k' g'] d IH]; simpl.
  - rewrite value_eqb_refl. reflexivity.
  - destruct (value_eqb k k') eqn:E; simpl; rewrite E; [reflexivity | exact IH].
Qed.

Lemma gens_get_set_ne d k k' g :
  k <> k' -> gens_get (gens_set d k g) k' = gens_get d k'.
Proof.
  intros Hne. induction d as [|[k0 g0] d IH]; simpl.
  - rewrite value_eqb_neq by congruence. reflexivity.
  - destruct (value_eqb k k0) eqn:E; simpl.
    + apply value_eqb_eq in E. subst k0.
      rewrite (value_eqb_neq k' k) by congruence. reflexivity.
    + destruct (value_eqb k' k0); [reflexivity | exact IH].
Qed.

(** No generation ever decreases in a call of [compile_ast]. *)
Lemma compile_ast_generations_grow t st name :
  gens_get_default (cs_var_dict st) name <=
  gens_get_default (cs_var_dict (snd (compile_ast t st))) name.
Proof.
  revert name.
  apply (compile_ast_steps
           (fun st st' => forall name,
              gens_get_default (cs_var_dict st) name <=
              gens_get_default (cs_var_dict st') name)).
  - intros st0 name. lia.
  - intros st1 st2 st3 H1 H2 name. specialize (H1 name). specialize (H2 name). lia.
  - intros line st0 name. simpl. lia.
  - intros k st0 name. simpl. unfold gens_get_default.
    destruct (decide (k = name)) as [->|Hne].
    + rewrite gens_get_set_eq. destruct (gens_get (cs_var_dict st0) name); lia.
    + rewrite gens_get_set_ne by exact Hne. lia.
Qed.

(** ** The top-level [compile] *)

(** When [compile] returns a diagnostic (the parse errors, or the
    [ValueError] it caught), the list of statements is as it was. *)
Lemma compile_rolls_back_on_diagnostic errors ast expr_str code ret code' :
  compile errors ast expr_str code = (Ok ret, code') ->
  ret <> ReturnNone -> code' = code.
Proof.
  unfold compile. destruct (0 <? length errors)%nat.
  { intros [= <- <-] _. reflexivity. }
  destruct ast as [ast|]; [|intros [= <- <-] Hne; congruence].
  set (code1 := code ++ _).
  destruct (compile_ast_appends ast (CState [] code1)) as [new Hnew].
  destruct (compile_ast ast (CState [] code1)) as [[last|e] st]; simpl in Hnew.
  - destruct (sorted (cs_var_dict st)); [|discriminate].
    intros [= <- <-] Hne. congruence.
  - destruct e; try discriminate. intros [= <- <-] _.
    rewrite Hnew. subst code1. rewrite <- app_assoc.
    rewrite take_app_length.
    replace (length code <? length (code ++ _))%nat with true; [reflexivity|].
    symmetry. apply Nat.ltb_lt. rewrite length_app. simpl. lia.
Qed.

(** [compile] on the tree of the empty input: [compile_ast] has no
    branch for it, the [ValueError] is caught and the list restored. *)
Lemma compile_pass_tree expr_str code :
  compile [] (Some pass_tree) expr_str code =
  (Ok (ReturnExc (ValueError (not_implemented (VStr "pass")))), code).
Proof.
  assert (Hc : forall st, compile_ast pass_tree st =
            (Raise (ValueError (not_implemented (VStr "pass"))), st))
    by reflexivity.
  unfold compile. change (0 <? length (@nil string))%nat with false.
  cbv iota. rewrite Hc. cbn [cs_code].
  rewrite take_app_length.
  replace (length code <? length (code ++ _))%nat with true; [reflexivity|].
  symmetry. apply Nat.ltb_lt. rewrite length_app. simpl. lia.
Qed.

(** C2 (the code at the failing inputs).  For the tree of [f()] the
    [apply] branch indexes [children[1]], which raises [IndexError]; the
    [except ValueError] clause does not catch it, and the two header
    lines stay in the list of statements.  For [(x = 1) + f()] the
    statement of the assignment stays as well. *)
Theorem rollback_misses_IndexError code :
  compile [] (Some (T_apply "f" [])) "f()" code =
  (Raise IndexError, code ++ ["# code for:"; "# f()"])
  /\
  compile [] (Some (T_apply "+" [T_set "x" (T_const 1); T_apply "f" []]))
          "(x = 1) + f()" code =
  (Raise IndexError, code ++ ["# code for:"; "# (x = 1) + f()"; "_x_1 = 1"]).
Proof.
  split; [reflexivity|].
  unfold compile. change (0 <? length (@nil string))%nat with false. cbv iota.
  match goal with
  | |- context [compile_ast ?t ?st] =>
    replace (compile_ast t st)
      with (@Raise value IndexError,
            CState [(VStr "x", 1)] (cs_code st ++ ["_x_1 = 1"])) by reflexivity
  end.
  cbn [cs_code]. rewrite <- app_assoc. reflexivity.
Qed.

(** C6 (the code at the failing input).  A named function with three
    arguments is rendered as an infix operation on the first two, the
    third is dropped, and nothing of the call form [f(1,2,3)] is
    produced; with fewer than two arguments the branch raises
    [IndexError]. *)
Theorem named_function_rendered_infix st :
  compile_ast (Node (VStr "apply")
                 [Node (VStr "f") [];
                  Node (VStr "const") [Node (VInt 1) []];
                  Node (VStr "const") [Node (VInt 2) []];
                  Node (VStr "const") [Node (VInt 3) []]]) st =
  (Ok (VStr "(1 f 2)"), st)
  /\ compile_ast (Node (VStr "apply")
                   [Node (VStr "f") [];
                    Node (VStr "const") [Node (VInt 1) []]]) st =
     (Raise IndexError, st)
  /\ compile_ast (Node (VStr "apply") [Node (VStr "f") []]) st =
     (Raise IndexError, st).
Proof. repeat split. Qed.

(** C4 (the code at the failing inputs).  [unparse] raises
    [AttributeError] on every node that has a child, so on every tree
    the grammar builds for an expression; on the childless tree of the
    empty input it returns the text [pass], which is a name. *)
Theorem unparse_raises_on_every_inner_node v c cs :
  unparse (Node v (c :: cs)) =
  Raise (AttributeError "'ExprParser' object has no attribute 'fn_to_op'")
  /\ unparse pass_tree = Ok "pass"
  /\ t_NAME "pass" = true.
Proof. repeat split. Qed.

(** C7 (as amended).  For the tree of the empty input [evaluate_ast]
    raises the "not implemented" [ValueError] and leaves the store as it
    was, [evaluate] passes the exception on, and [compile] catches it,
    restores the list of statements and returns the exception. *)
Theorem pass_tree_is_not_implemented `{PyArith} (B : gmap value num)
    expr_str code :
  evaluate_ast pass_tree B = (Raise (ValueError (not_implemented (VStr "pass"))), B)
  /\ evaluate [] (Some pass_tree) B =
     (Raise (ValueError (not_implemented (VStr "pass"))), B)
  /\ compile [] (Some pass_tree) expr_str code =
     (Ok (ReturnExc (ValueError (not_implemented (VStr "pass")))), code).
Proof.
  split; [reflexivity|]. split; [reflexivity|]. apply compile_pass_tree.
Qed.

(** C7 (counterexample).  On the tree of the empty input, with an empty
    store and an empty list of statements, the evaluator does raise a
    [ValueError] and [compile] does not return [None]. *)
Lemma pass_tree_counterexample :
  (exists msg, fst (@evaluate_ast int_arith pass_tree ∅) = Raise (ValueError msg))
  /\ fst (compile [] (Some pass_tree) "" []) <> Ok ReturnNone.
Proof.
  split.
  - eexists. reflexivity.
  - discriminate.
Qed.

(** ** Strings *)

Lemma list_ascii_of_string_app a b :
  list_ascii_of_string (a +:+ b) = list_ascii_of_string a ++ list_ascii_of_string b.
Proof.
  induction a as [|c a IH]; [reflexivity|].
  change (String c a +:+ b) with (String c (a +:+ b)).
  simpl. rewrite IH. reflexivity.
Qed.

Lemma list_ascii_of_string_inj a b :
  list_ascii_of_string a = list_ascii_of_string b -> a = b.
Proof.
  intros Heq. rewrite <- (string_of_list_ascii_of_string a),
    <- (string_of_list_ascii_of_string b), Heq. reflexivity.
Qed.

Lemma append_assoc_str a b c : (a +:+ b) +:+ c = a +:+ (b +:+ c).
Proof.
  apply list_ascii_of_string_inj. rewrite !list_ascii_of_string_app.
  symmetry. apply app_assoc.
Qed.

Lemma string_of_uint_digits d :
  Forall (fun c => is_digit c = true)
         (list_ascii_of_string (NilEmpty.string_of_uint d)).
Proof. induction d; simpl; constructor; auto. Qed.

Lemma to_int_not_nil z : Z.to_int z <> Decimal.Pos Decimal.Nil /\
                         Z.to_int z <> Decimal.Neg Decimal.Nil.
Proof.
  destruct z as [|p|p]; simpl; split; try discriminate;
    intros [= Hp]; exact (DecimalPos.Unsigned.to_uint_nonnil p Hp).
Qed.

Lemma int_of_string_str_of_Z z :
  NilZero.int_of_string (str_of_Z z) = Some (Z.to_int z).
Proof. unfold str_of_Z. apply NilZero.isi; apply to_int_not_nil. Qed.

Lemma str_of_Z_inj a b : str_of_Z a = str_of_Z b -> a = b.
Proof.
  intros Heq. apply DecimalZ.to_int_inj.
  pose proof (int_of_string_str_of_Z a) as Ha.
  rewrite Heq, int_of_string_str_of_Z in Ha. congruence.
Qed.

(** The decimal text of a non-negative [int]: digits, at least one. *)
Lemma str_of_Z_digits z :
  0 <= z ->
  Forall (fun c => is_digit c = true) (list_ascii_of_string (str_of_Z z)) /\
  str_of_Z z <> EmptyString.
Proof.
  intros Hz. unfold str_of_Z. destruct z as [|p|p]; [| |lia].
  - split; [repeat constructor | discriminate].
  - simpl. pose proof (DecimalPos.Unsigned.to_uint_nonnil p) as Hnil.
    destruct (Pos.to_uint p) eqn:E; try congruence;
      (split; [apply (string_of_uint_digits (_ u)) | discriminate]).
Qed.

Lemma digit_not_underscore c : is_digit c = true -> is_underscore c = false.
Proof.
  unfold is_digit, is_underscore. intros Hd.
  destruct (Ascii.eqb_spec c "_") as [->|]; [discriminate Hd | reflexivity].
Qed.

(** A text that ends in an underscore followed by characters that are
    not underscores splits there in one way only. *)
Lemma split_at_last_underscore (a b d1 d2 : list ascii) :
  Forall (fun c => is_underscore c = false) d1 ->
  Forall (fun c => is_underscore c = false) d2 ->
  a ++ "_"%char :: d1 = b ++ "_"%char :: d2 -> a = b /\ d1 = d2.
Proof.
  intros H1 H2. revert b.
  induction a as [|c a IH]; intros [|c' b] Heq; simpl in Heq.
  - injection Heq as Heq. split; [reflexivity | exact Heq].
  - injection Heq as Hc Heq. subst c'. exfalso.
    rewrite Heq in H1. apply Forall_app in H1 as [_ H1].
    inversion H1 as [|? ? Hu _]. discriminate Hu.
  - injection Heq as Hc Heq. subst c. exfalso.
    rewrite <- Heq in H2. apply Forall_app in H2 as [_ H2].
    inversion H2 as [|? ? Hu _]. discriminate Hu.
  - injection Heq as Hc Heq. subst c'.
    destruct (IH b Heq) as [-> ->]. split; reflexivity.
Qed.

Lemma str_of_Z_no_underscore z :
  0 <= z ->
  Forall (fun c => is_underscore c = false) (list_ascii_of_string (str_of_Z z)).
Proof.
  intros Hz. destruct (str_of_Z_digits z Hz) as [Hd _].
  eapply Forall_impl; [exact Hd|]. intros c. apply digit_not_underscore.
Qed.

(** ** The names of the temporaries *)

Lemma make_gen_name_pos name g :
  0 < g -> make_gen_name name g = VStr ("_" +:+ py_str name +:+ "_" +:+ str_of_Z g).
Proof. intros Hg. unfold make_gen_name. apply Z.ltb_lt in Hg. rewrite Hg. reflexivity. Qed.

Lemma gen_name_inj x y n m :
  0 <= n -> 0 <= m ->
  "_" +:+ x +:+ "_" +:+ str_of_Z n = "_" +:+ y +:+ "_" +:+ str_of_Z m ->
  x = y /\ n = m.
Proof.
  intros Hn Hm Heq. apply (f_equal list_ascii_of_string) in Heq.
  rewrite !list_ascii_of_string_app in Heq. simpl in Heq.
  injection Heq as Heq.
  apply split_at_last_underscore in Heq as [Hx Hd];
    try (apply str_of_Z_no_underscore; assumption).
  split.
  - apply list_ascii_of_string_inj. exact Hx.
  - apply str_of_Z_inj. apply list_ascii_of_string_inj. exact Hd.
Qed.

(** C9 (as amended).  The temporary of [(x, n)], [n > 0], differs from
    every name that does not begin with an underscore, and from the
    temporary of every other pair. *)
Theorem temporary_names_are_apart x n :
  0 < n ->
  (forall u, starts_with_underscore u = false ->
             make_gen_name (VStr x) n <> VStr u)
  /\
  (forall y m, 0 < m ->
               make_gen_name (VStr x) n = make_gen_name (VStr y) m ->
               x = y /\ n = m).
Proof.
  intros Hn. split.
  - intros u Hu Heq. rewrite make_gen_name_pos in Heq by exact Hn.
    injection Heq as Heq. subst u. discriminate Hu.
  - intros y m Hm Heq. rewrite !make_gen_name_pos in Heq by assumption.
    apply (f_equal py_str) in Heq. cbn [py_str] in Heq.
    apply gen_name_inj in Heq; [exact Heq | lia | lia].
Qed.

(** C9 (counterexample).  The temporary of [(x, 1)] is [_x_1], which the
    class [t_NAME] admits as a user identifier. *)
Lemma temporary_name_counterexample :
  exists u, t_NAME u = true /\ make_gen_name (VStr "x") 1 = VStr u.
Proof. exists "_x_1". split; reflexivity. Qed.

(** ** Trees of the grammar *)

(** Induction on an expression tree, with the property at hand for every
    argument of a function call. *)
Lemma expression_args_ind (P : ValueTree -> Prop) :
  (forall name e, t_NAME name = true -> expression e -> P e ->
     P (Node (VStr "set") [Node (VStr name) []; e])) ->
  (forall op e1 e2, In op ["+"; "-"; "*"; "/"] ->
     expression e1 -> P e1 -> expression e2 -> P e2 ->
     P (Node (VStr "apply") [Node (VStr op) []; e1; e2])) ->
  (forall e, expression e -> P e ->
     P (Node (VStr "apply") [Node (VStr "neg") []; e])) ->
  (forall name, t_NAME name = true ->
     P (Node (VStr "apply") [Node (VStr name) []])) ->
  (forall name args, t_NAME name = true -> args <> [] ->
     Forall expression args -> Forall P args ->
     P (Node (VStr "apply") (Node (VStr name) [] :: args))) ->
  (forall n, 0 <= n -> P (Node (VStr "const") [Node (VInt n) []])) ->
  (forall name, t_NAME name = true ->
     P (Node (VStr "get") [Node (VStr name) []])) ->
  forall t, expression t -> P t.
Proof.
  intros Hset Hbin Hneg Hfn0 Hfn Hnum Hname.
  apply (expression_mut P
           (fun l => l <> [] /\ Forall expression l /\ Forall P l)).
  - exact Hset.
  - exact Hbin.
  - exact Hneg.
  - exact Hfn0.
  - intros name args Hn _ (Hne & Hex & HP). apply Hfn; assumption.
  - exact Hnum.
  - exact Hname.
  - intros e He HPe. split; [discriminate|]. split; constructor; auto.
  - intros l e _ (Hne & Hex & HP) He HPe. split.
    + intros Heq. apply app_eq_nil in Heq as [_ Heq]. discriminate Heq.
    + split; apply Forall_app; split; auto.
Qed.

(** ** [compile_ast], branch by branch *)

Lemma compile_ast_const c0 rest :
  compile_ast (Node (VStr "const") (c0 :: rest)) = ret (VStr (py_str (get_value c0))).
Proof. reflexivity. Qed.

Lemma compile_ast_get name c0s rest :
  compile_ast (Node (VStr "get") (Node name c0s :: rest)) =
  (gen_num <- var_dict_get name ;; ret (make_gen_name name gen_num)).
Proof. reflexivity. Qed.

Lemma compile_ast_set name c0s e rest :
  compile_ast (Node (VStr "set") (Node name c0s :: e :: rest)) =
  (const_num <- compile_ast e ;;
   g <- var_dict_bump name ;;
   s <- lift (str_plus "_" name) ;;
   line <- lift (str_plus ((s +:+ "_" +:+ str_of_Z g) +:+ " = ") const_num) ;;
   _ <- code_append line ;;
   ret (VStr (s +:+ "_" +:+ str_of_Z g))).
Proof. reflexivity. Qed.

Lemma compile_ast_neg c0s e rest :
  compile_ast (Node (VStr "apply") (Node (VStr "neg") c0s :: e :: rest)) =
  (temp_value <- compile_ast e ;;
   s <- lift (str_plus "(-" temp_value) ;;
   ret (VStr (s +:+ ")"))).
Proof. reflexivity. Qed.

Lemma compile_ast_sqr c0s e rest :
  compile_ast (Node (VStr "apply") (Node (VStr "sqr") c0s :: e :: rest)) =
  (temp_value <- compile_ast e ;;
   s <- lift (str_plus "(" temp_value) ;;
   ret (VStr (s +:+ " ** 2)"))).
Proof. reflexivity. Qed.

Lemma compile_ast_binary op c0s e1 e2 rest :
  op <> VStr "neg" -> op <> VStr "sqr" ->
  compile_ast (Node (VStr "apply") (Node op c0s :: e1 :: e2 :: rest)) =
  (digit_1 <- compile_ast e1 ;;
   digit_2 <- compile_ast e2 ;;
   s1 <- lift (str_plus "(" digit_1) ;;
   s2 <- lift (str_plus (s1 +:+ " ") op) ;;
   s3 <- lift (str_plus (s2 +:+ " ") digit_2) ;;
   ret (VStr (s3 +:+ ")"))).
Proof.
  intros Hneg Hsqr. cbn [compile_ast get_value].
  change (value_eqb (VStr "apply") (VStr "const")) with false.
  change (value_eqb (VStr "apply") (VStr "get")) with false.
  change (value_eqb (VStr "apply") (VStr "set")) with false.
  change (value_eqb (VStr "apply") (VStr "apply")) with true.
  cbv iota. rewrite (value_eqb_neq _ _ Hneg), (value_eqb_neq _ _ Hsqr).
  reflexivity.
Qed.

Lemma bind_Ok {A B} (c : comp A) (k : A -> comp B) st a st1 :
  c st = (Ok a, st1) -> bind c k st = k a st1.
Proof. intros Hc. unfold bind. rewrite Hc. reflexivity. Qed.

Lemma bind_Raise {A B} (c : comp A) (k : A -> comp B) st e st1 :
  c st = (Raise e, st1) -> bind c k st = (Raise e, st1).
Proof. intros Hc. unfold bind. rewrite Hc. reflexivity. Qed.

Lemma keys_str_set d x g : keys_str d -> keys_str (gens_set d (VStr x) g).
Proof.
  unfold keys_str. induction d as [|[k g'] d IH]; intros Hd; simpl.
  - constructor; [exists x; reflexivity | constructor].
  - inversion Hd as [|? ? Hk Hd']; subst.
    destruct (value_eqb (VStr x) k); constructor; auto.
Qed.

Lemma with_keys_total d : keys_str d -> exists l, with_keys d = Ok l.
Proof.
  unfold keys_str. induction d as [|[k g] d IH]; intros Hd; simpl.
  - eexists. reflexivity.
  - inversion Hd as [|? ? [x Hk] Hd']; subst. simpl in Hk. subst k.
    unfold key_fn. simpl. destruct (IH Hd') as [l ->]. eexists. reflexivity.
Qed.

Lemma in_operators_not_unary op :
  In op ["+"; "-"; "*"; "/"] -> VStr op <> VStr "neg" /\ VStr op <> VStr "sqr".
Proof.
  intros Hin. simpl in Hin.
  destruct Hin as [<-|[<-|[<-|[<-|[]]]]]; split; discriminate.
Qed.

Lemma enough_arguments_leaf v : enough_arguments (Node v []) = true.
Proof. simpl. destruct (value_eqb v (VStr "apply")); reflexivity. Qed.

Lemma enough_arguments_node ntype children :
  enough_arguments (Node ntype children) = true ->
  (value_eqb ntype (VStr "apply") = true ->
   match children with
   | c0 :: rest =>
     if value_eqb (get_value c0) (VStr "neg")
        || value_eqb (get_value c0) (VStr "sqr")
     then (1 <=? length rest)%nat
     else (2 <=? length rest)%nat
   | [] => true
   end = true)
  /\ Forall (fun c => enough_arguments c = true) children.
Proof.
  cbn [enough_arguments]. intros Hen. apply andb_prop in Hen as [Hhead Hch].
  split.
  - intros Happ. rewrite Happ in Hhead. exact Hhead.
  - apply Forall_forall. intros c Hc.
    rewrite forallb_forall in Hch. apply Hch. apply list_elem_of_In. exact Hc.
Qed.

(** On an expression tree with enough arguments [compile_ast] returns a
    [str], and the keys of the generation map stay [str] objects. *)
Lemma compile_ast_returns_str t :
  expression t -> enough_arguments t = true ->
  forall st, keys_str (cs_var_dict st) ->
  exists s st', compile_ast t st = (Ok (VStr s), st') /\
                keys_str (cs_var_dict st').
Proof.
  intros Ht. induction Ht as
    [name e Hn He IHe | op e1 e2 Hop He1 IH1 He2 IH2 | e He IHe | name Hn
    | name args Hn Hne Hargs IHargs | n Hn | name Hn] using expression_args_ind;
    intros Hen st Hst.
  - (* set *)
    apply enough_arguments_node in Hen as [_ Hen].
    inversion Hen as [|? ? _ Hen']; subst. inversion Hen' as [|? ? Hen1 _]; subst.
    destruct (IHe Hen1 st Hst) as (s1 & st1 & Hc1 & Hk1).
    rewrite compile_ast_set. rewrite (bind_Ok _ _ _ _ _ Hc1).
    eexists _, _. split; [reflexivity|]. simpl. apply keys_str_set. exact Hk1.
  - (* binary operator *)
    apply enough_arguments_node in Hen as [_ Hen].
    inversion Hen as [|? ? _ Hen']; subst. inversion Hen' as [|? ? Hen1 Hen'']; subst.
    inversion Hen'' as [|? ? Hen2 _]; subst.
    destruct (in_operators_not_unary op Hop) as [Hneg Hsqr].
    destruct (IH1 Hen1 st Hst) as (s1 & st1 & Hc1 & Hk1).
    destruct (IH2 Hen2 st1 Hk1) as (s2 & st2 & Hc2 & Hk2).
    rewrite (compile_ast_binary _ _ _ _ _ Hneg Hsqr).
    rewrite (bind_Ok _ _ _ _ _ Hc1), (bind_Ok _ _ _ _ _ Hc2).
    eexists _, _. split; [reflexivity | exact Hk2].
  - (* unary minus *)
    apply enough_arguments_node in Hen as [_ Hen].
    inversion Hen as [|? ? _ Hen']; subst. inversion Hen' as [|? ? Hen1 _]; subst.
    destruct (IHe Hen1 st Hst) as (s1 & st1 & Hc1 & Hk1).
    rewrite compile_ast_neg, (bind_Ok _ _ _ _ _ Hc1).
    eexists _, _. split; [reflexivity | exact Hk1].
  - (* a call without arguments *)
    exfalso. apply enough_arguments_node in Hen as [Hen _].
    specialize (Hen eq_refl). cbn [get_value length] in Hen.
    destruct (value_eqb (VStr name) (VStr "neg") || value_eqb (VStr name) (VStr "sqr"));
      discriminate Hen.
  - (* a call with arguments *)
    apply enough_arguments_node in Hen as [Hlen Hen].
    specialize (Hlen eq_refl). cbn [get_value] in Hlen.
    inversion Hen as [|? ? _ Hen']; subst. clear Hen.
    destruct args as [|c1 args]; [congruence|].
    inversion IHargs as [|? ? IH1 IHrest]; subst.
    inversion Hen' as [|? ? Hen1 Hen'']; subst.
    destruct (IH1 Hen1 st Hst) as (s1 & st1 & Hc1 & Hk1).
    destruct (decide (VStr name = VStr "neg")) as [Heq|Hneg].
    { rewrite Heq, compile_ast_neg, (bind_Ok _ _ _ _ _ Hc1).
      eexists _, _. split; [reflexivity | exact Hk1]. }
    destruct (decide (VStr name = VStr "sqr")) as [Heq|Hsqr].
    { rewrite Heq, compile_ast_sqr, (bind_Ok _ _ _ _ _ Hc1).
      eexists _, _. split; [reflexivity | exact Hk1]. }
    rewrite (value_eqb_neq _ _ Hneg), (value_eqb_neq _ _ Hsqr) in Hlen.
    destruct args as [|c2 args]; [discriminate Hlen|].
    inversion IHrest as [|? ? IH2 _]; subst.
    inversion Hen'' as [|? ? Hen2 _]; subst.
    destruct (IH2 Hen2 st1 Hk1) as (s2 & st2 & Hc2 & Hk2).
    rewrite (compile_ast_binary _ _ _ _ _ Hneg Hsqr).
    rewrite (bind_Ok _ _ _ _ _ Hc1), (bind_Ok _ _ _ _ _ Hc2).
    eexists _, _. split; [reflexivity | exact Hk2].
  - (* number *)
    rewrite compile_ast_const. eexists _, _. split; [reflexivity | exact Hst].
  - (* name *)
    rewrite compile_ast_get. unfold bind, var_dict_get, ret, make_gen_name.
    destruct (0 <? gens_get_default (cs_var_dict st) (VStr name));
      eexists _, _; (split; [reflexivity | exact Hst]).
Qed.

(** C3 (as amended).  [compile] returns a diagnostic for the tree of the
    empty input, which has no branch in [compile_ast]: the [ValueError]
    is caught and returned, and the statements are as before.  For every
    expression tree with enough arguments it returns [None] and only
    appends, whether or not the operators in the tree have a function in
    [op_to_fn]. *)
Theorem compile_never_checks_operators expr_str code :
  compile [] (Some pass_tree) expr_str code =
    (Ok (ReturnExc (ValueError (not_implemented (VStr "pass")))), code)
  /\
  forall t, expression t -> enough_arguments t = true ->
    exists out, compile [] (Some t) expr_str code = (Ok ReturnNone, code ++ out).
Proof.
  split.
  { apply compile_pass_tree. }
  intros t Ht Hen. unfold compile.
  change (0 <? length (@nil string))%nat with false. cbv iota.
  set (st0 := CState [] _).
  destruct (compile_ast_returns_str t Ht Hen st0) as (s & st & Hc & Hk);
    [constructor|].
  destruct (compile_ast_appends t st0) as [new Hnew].
  rewrite Hc in Hnew |- *. simpl in Hnew.
  unfold sorted. destruct (with_keys_total _ Hk) as [l ->].
  eexists. rewrite Hnew. rewrite <- !app_assoc. reflexivity.
Qed.

(** ** Order of the emitted assignments *)

Lemma compile_ast_set_inv name c0s e rest st r st' :
  compile_ast (Node (VStr "set") (Node (VStr name) c0s :: e :: rest)) st = (Ok r, st') ->
  exists rhs st1 g,
    compile_ast e st = (Ok (VStr rhs), st1) /\
    g = match gens_get (cs_var_dict st1) (VStr name) with
        | Some g0 => g0 + 1
        | None => 1
        end /\
    r = VStr ("_" +:+ name +:+ "_" +:+ str_of_Z g) /\
    st' = CState (gens_set (cs_var_dict st1) (VStr name) g)
                 (cs_code st1 ++
                  [("_" +:+ name +:+ "_" +:+ str_of_Z g) +:+ " = " +:+ rhs]).
Proof.
  intros Hc. rewrite compile_ast_set in Hc. unfold bind at 1 in Hc.
  destruct (compile_ast e st) as [[const_num|err] st1]; [|discriminate Hc].
  unfold bind, var_dict_bump, lift, code_append, ret, str_plus in Hc. simpl in Hc.
  destruct const_num as [rhs|z]; [|discriminate Hc].
  injection Hc as <- <-.
  exists rhs, st1, (match gens_get (cs_var_dict st1) (VStr name) with
                    | Some g0 => g0 + 1
                    | None => 1
                    end).
  rewrite !append_assoc_str. repeat split.
Qed.

(** Left-to-right order.  When an operator is applied to two assignments,
    the right-hand side of the first is compiled from the state of the
    call, and the lines it emits come first; then comes the statement of
    the first assignment, at the next generation of its variable; the
    right-hand side of the second is compiled from the state so reached,
    and its lines come next; the statement of the second assignment is
    the last line.  The rendering names the two new generations. *)
Theorem assignments_are_emitted_left_to_right op a ea b eb st r st' :
  VStr op <> VStr "neg" -> VStr op <> VStr "sqr" ->
  compile_ast (T_apply op [T_set a ea; T_set b eb]) st = (Ok r, st') ->
  exists rhs_a st_a before_a ga rhs_b st_b before_b gb,
    compile_ast ea st = (Ok (VStr rhs_a), st_a) /\
    cs_code st_a = cs_code st ++ before_a /\
    ga = gens_get_default (cs_var_dict st_a) (VStr a) + 1 /\
    compile_ast eb
      (CState (gens_set (cs_var_dict st_a) (VStr a) ga)
         (cs_code st ++ before_a
            ++ [("_" +:+ a +:+ "_" +:+ str_of_Z ga) +:+ " = " +:+ rhs_a]))
      = (Ok (VStr rhs_b), st_b) /\
    cs_code st_b =
      cs_code st ++ before_a
        ++ [("_" +:+ a +:+ "_" +:+ str_of_Z ga) +:+ " = " +:+ rhs_a]
        ++ before_b /\
    gb = gens_get_default (cs_var_dict st_b) (VStr b) + 1 /\
    st' = CState (gens_set (cs_var_dict st_b) (VStr b) gb)
            (cs_code st ++ before_a
               ++ [("_" +:+ a +:+ "_" +:+ str_of_Z ga) +:+ " = " +:+ rhs_a]
               ++ before_b
               ++ [("_" +:+ b +:+ "_" +:+ str_of_Z gb) +:+ " = " +:+ rhs_b])
    /\ r = VStr ("(" +:+ ("_" +:+ a +:+ "_" +:+ str_of_Z ga) +:+ " " +:+ op
                   +:+ " " +:+ ("_" +:+ b +:+ "_" +:+ str_of_Z gb) +:+ ")").
Proof.
  intros Hneg Hsqr Hc. unfold T_apply in Hc.
  rewrite (compile_ast_binary _ _ _ _ _ Hneg Hsqr) in Hc.
  unfold bind at 1 in Hc.
  destruct (compile_ast (T_set a ea) st) as [[ra|err] sta] eqn:Ha; [|discriminate Hc].
  unfold bind at 1 in Hc.
  destruct (compile_ast (T_set b eb) sta) as [[rb|err] stb] eqn:Hb; [|discriminate Hc].
  apply compile_ast_set_inv in Ha as (rhs_a & st1 & ga & Hea & Hga & -> & ->).
  apply compile_ast_set_inv in Hb as (rhs_b & st2 & gb & Heb & Hgb & -> & ->).
  unfold bind, lift, ret, str_plus in Hc. simpl in Hc. injection Hc as <- <-.
  destruct (compile_ast_appends ea st) as [before_a Hbefore_a].
  destruct (compile_ast_appends eb
              (CState (gens_set (cs_var_dict st1) (VStr a) ga)
                 (cs_code st1 ++
                  [("_" +:+ a +:+ "_" +:+ str_of_Z ga) +:+ " = " +:+ rhs_a])))
    as [before_b Hbefore_b].
  rewrite Hea in Hbefore_a. rewrite Heb in Hbefore_b. simpl in Hbefore_a, Hbefore_b.
  assert (Hga' : ga = gens_get_default (cs_var_dict st1) (VStr a) + 1).
  { rewrite Hga. unfold gens_get_default.
    destruct (gens_get (cs_var_dict st1) (VStr a)); reflexivity. }
  assert (Hgb' : gb = gens_get_default (cs_var_dict st2) (VStr b) + 1).
  { rewrite Hgb. unfold gens_get_default.
    destruct (gens_get (cs_var_dict st2) (VStr b)); reflexivity. }
  rewrite Hbefore_a, <- app_assoc in Heb, Hbefore_b.
  rewrite <- app_assoc in Hbefore_b.
  exists rhs_a, st1, before_a, ga, rhs_b, st2, before_b, gb.
  split; [exact Hea|]. split; [exact Hbefore_a|]. split; [exact Hga'|].
  split; [exact Heb|]. split; [exact Hbefore_b|]. split; [exact Hgb'|].
  split.
  - rewrite Hbefore_b. rewrite <- !app_assoc. reflexivity.
  - rewrite !append_assoc_str. reflexivity.
Qed.

(** ** Generations and the cleanup *)

Lemma gens_set_fst_in d k g k' :
  In k' (map fst (gens_set d k g)) -> k' = k \/ In k' (map fst d).
Proof.
  induction d as [|[k0 g0] d IH]; simpl.
  - intros [<-|[]]. left. reflexivity.
  - destruct (value_eqb k k0); simpl; intros [<-|Hin]; auto.
    destruct (IH Hin); auto.
Qed.

Lemma gens_get_None_not_in d k : gens_get d k = None -> ~ In k (map fst d).
Proof.
  induction d as [|[k0 g0] d IH]; simpl; [tauto|].
  destruct (value_eqb k k0) eqn:E; [discriminate|].
  intros Hg [Heq|Hin]; [|exact (IH Hg Hin)].
  subst k0. rewrite value_eqb_refl in E. discriminate E.
Qed.

Lemma gens_wf_set d k g : 0 < g -> gens_wf d -> gens_wf (gens_set d k g).
Proof.
  intros Hg [Hnd Hpos]. induction d as [|[k0 g0] d IH]; simpl.
  - split; [apply NoDup_singleton | repeat constructor; exact Hg].
  - simpl in Hnd. apply NoDup_cons in Hnd as [Hnotin Hnd'].
    inversion_clear Hpos as [|? ? Hk0 Hpos'].
    destruct (value_eqb k k0) eqn:E.
    + split; [simpl; apply NoDup_cons; split; assumption
             | constructor; [exact Hg | assumption]].
    + destruct (IH Hnd' Hpos') as [IH1 IH2]. split.
      * simpl. apply NoDup_cons. split; [|exact IH1]. intros Hin.
        apply list_elem_of_In, gens_set_fst_in in Hin as [->|Hin].
        -- rewrite value_eqb_refl in E. discriminate E.
        -- apply Hnotin, list_elem_of_In. exact Hin.
      * constructor; assumption.
Qed.

Lemma gens_get_nonneg d k : gens_wf d -> 0 <= gens_get_default d k.
Proof.
  intros [_ Hpos]. unfold gens_get_default.
  induction d as [|[k0 g0] d IH]; simpl; [lia|].
  inversion_clear Hpos as [|? ? Hk0 Hpos'].
  destruct (value_eqb k k0); [simpl in Hk0; lia | apply IH; exact Hpos'].
Qed.

Lemma compile_ast_gens_wf t st :
  gens_wf (cs_var_dict st) -> gens_wf (cs_var_dict (snd (compile_ast t st))).
Proof.
  apply (compile_ast_steps
    (fun st st' => gens_wf (cs_var_dict st) -> gens_wf (cs_var_dict st'))).
  - auto.
  - auto.
  - intros line st0 Hwf. exact Hwf.
  - intros name st0 Hwf. simpl. apply gens_wf_set; [|exact Hwf].
    pose proof (gens_get_nonneg _ name Hwf) as Hge. unfold gens_get_default in Hge.
    destruct (gens_get (cs_var_dict st0) name); lia.
Qed.

Lemma gens_get_In d k g :
  NoDup (map fst d) -> (In (k, g) d <-> gens_get d k = Some g).
Proof.
  induction d as [|[k0 g0] d IH]; simpl; intros Hnd.
  - split; [tauto | discriminate].
  - apply NoDup_cons in Hnd as [Hnotin Hnd'].
    destruct (value_eqb k k0) eqn:E.
    + apply value_eqb_eq in E. subst k0. split.
      * intros [[= <-]|Hin]; [reflexivity|]. exfalso. apply Hnotin.
        apply list_elem_of_In, in_map_iff. exists (k, g). split; [reflexivity | exact Hin].
      * intros [= <-]. left. reflexivity.
    + rewrite <- (IH Hnd'). split; [|tauto].
      intros [[= <- <-]|Hin]; [|exact Hin].
      rewrite value_eqb_refl in E. discriminate E.
Qed.

Lemma with_keys_snd d l : with_keys d = Ok l -> map snd l = d.
Proof.
  revert l. induction d as [|t d IH]; simpl; intros l.
  - intros [= <-]. reflexivity.
  - destruct (key_fn t); [|discriminate].
    destruct (with_keys d); [|discriminate].
    intros [= <-]. simpl. rewrite (IH _ eq_refl). reflexivity.
Qed.

Lemma insert_by_key_perm x l : Permutation (insert_by_key x l) (x :: l).
Proof.
  induction l as [|y l IH]; simpl; [reflexivity|].
  destruct (String.leb (fst x) (fst y)); [reflexivity|].
  rewrite IH. apply perm_swap.
Qed.

(** [sorted] rearranges the items and loses none. *)
Lemma sorted_perm d items : sorted d = Ok items -> Permutation items d.
Proof.
  unfold sorted. destruct (with_keys d) as [l|] eqn:E; [|discriminate].
  intros [= <-]. rewrite <- (with_keys_snd _ _ E).
  apply Permutation_map. clear E. induction l as [|x l IH]; simpl; [reflexivity|].
  rewrite insert_by_key_perm, IH. reflexivity.
Qed.

Lemma range1_length gen : length (range1 gen) = Z.to_nat gen.
Proof. unfold range1. rewrite length_map, length_seq. reflexivity. Qed.

Lemma range1_nth gen i :
  (i < Z.to_nat gen)%nat -> nth i (range1 gen) 0 = Z.of_nat i + 1.
Proof.
  intros Hi. unfold range1.
  rewrite (nth_indep _ 0 (Z.of_nat 0)) by (rewrite length_map, length_seq; exact Hi).
  rewrite map_nth, seq_nth by exact Hi. lia.
Qed.

(** C5.  A compiled [set] node leaves the generation of its variable at
    one more than it was after the right-hand side (1 when there was no
    entry); no generation decreases in a call; and after the [_result]
    line [compile] appends, for each variable of the map, the comment,
    the assignment of the bare name from the name of the generation the
    map ends with (the highest the variable reached), and the deletions
    of the generations 1, 2, ... up to that one, in this order.  This
    describes every list [compile] hands back with [None]; and for every
    expression tree with enough arguments [compile] does return [None]
    with the list so built. *)
Theorem generations_count_up_and_cleanup_uses_the_last :
  (forall name c0s e rest st code_str st',
     compile_ast (Node (VStr "set") (Node name c0s :: e :: rest)) st
       = (Ok code_str, st') ->
     exists const_num st1,
       compile_ast e st = (Ok const_num, st1) /\
       gens_get (cs_var_dict st') name
         = Some (gens_get_default (cs_var_dict st1) name + 1))
  /\
  (forall t st name,
     gens_get_default (cs_var_dict st) name <=
     gens_get_default (cs_var_dict (snd (compile_ast t st))) name)
  /\
  (forall ast expr_str code code',
     compile [] (Some ast) expr_str code = (Ok ReturnNone, code') ->
     exists last st items,
       compile_ast ast (CState [] (code ++ ["# code for:"; "# " +:+ expr_str]))
         = (Ok last, st) /\
       Permutation items (cs_var_dict st) /\
       code' = cs_code st ++ ["_result = " +:+ py_str last]
                 ++ concat (map cleanup_item items) /\
       forall v gen, In (v, gen) items ->
         0 < gen /\
         gens_get (cs_var_dict st) v = Some gen /\
         cleanup_item (v, gen) =
           [ "# Update and cleanup " +:+ py_str v;
             py_str v +:+ " = " +:+ py_str (make_gen_name v gen) ]
           ++ map (fun g => "del(" +:+ py_str (make_gen_name v g) +:+ ")")
                  (range1 gen) /\
         length (range1 gen) = Z.to_nat gen /\
         forall i, (i < Z.to_nat gen)%nat ->
                   nth i (range1 gen) 0 = Z.of_nat i + 1)
  /\
  (forall ast expr_str code,
     expression ast -> enough_arguments ast = true ->
     exists last st items,
       compile_ast ast (CState [] (code ++ ["# code for:"; "# " +:+ expr_str]))
         = (Ok last, st) /\
       Permutation items (cs_var_dict st) /\
       compile [] (Some ast) expr_str code =
         (Ok ReturnNone,
          cs_code st ++ ["_result = " +:+ py_str last]
            ++ concat (map cleanup_item items)) /\
       forall v gen, In (v, gen) items ->
         0 < gen /\
         gens_get (cs_var_dict st) v = Some gen /\
         cleanup_item (v, gen) =
           [ "# Update and cleanup " +:+ py_str v;
             py_str v +:+ " = " +:+ py_str (make_gen_name v gen) ]
           ++ map (fun g => "del(" +:+ py_str (make_gen_name v g) +:+ ")")
                  (range1 gen)).
Proof.
  split; [|split; [|split]].
  - intros name c0s e rest st code_str st' Hc.
    rewrite compile_ast_set in Hc. unfold bind at 1 in Hc.
    destruct (compile_ast e st) as [[const_num|err] st1]; [|discriminate].
    exists const_num, st1. split; [reflexivity|].
    unfold bind, var_dict_bump, lift, code_append, ret in Hc. simpl in Hc.
    destruct (str_plus "_" name) as [s|]; [|discriminate].
    destruct (str_plus _ const_num) as [line|]; [|discriminate].
    injection Hc as _ <-. simpl. rewrite gens_get_set_eq.
    unfold gens_get_default. destruct (gens_get (cs_var_dict st1) name); reflexivity.
  - intros t st name. apply compile_ast_generations_grow.
  - intros ast expr_str code code'. unfold compile.
    change (0 <? length (@nil string))%nat with false. cbv iota.
    set (st0 := CState [] _).
    pose proof (compile_ast_gens_wf ast st0) as Hwf.
    destruct (compile_ast ast st0) as [[last|err] st]; simpl in Hwf.
    2:{ destruct err; discriminate. }
    destruct (sorted (cs_var_dict st)) as [items|] eqn:Hs; [|discriminate].
    intros [= <-]. exists last, st, items.
    pose proof (sorted_perm _ _ Hs) as Hperm.
    destruct Hwf as [Hnd Hpos]; [split; [apply NoDup_nil_2 | constructor]|].
    split; [reflexivity|]. split; [exact Hperm|].
    split; [rewrite <- app_assoc; reflexivity|].
    intros v gen Hin.
    assert (Hin' : In (v, gen) (cs_var_dict st)).
    { apply list_elem_of_In. rewrite <- Hperm. apply list_elem_of_In. exact Hin. }
    assert (Hgen : 0 < gen).
    { rewrite Forall_forall in Hpos. apply list_elem_of_In in Hin'.
      apply (Hpos _ Hin'). }
    split; [exact Hgen|]. split; [apply gens_get_In; assumption|].
    split; [|split; [apply range1_length | apply range1_nth]].
    unfold cleanup_item. apply Z.ltb_lt in Hgen. rewrite Hgen. reflexivity.
  - intros ast expr_str code Hast Hen. unfold compile.
    change (0 <? length (@nil string))%nat with false. cbv iota.
    set (st0 := CState [] _).
    pose proof (compile_ast_gens_wf ast st0) as Hwf.
    destruct (compile_ast_returns_str ast Hast Hen st0) as (s & st & Hc & Hk);
      [constructor|].
    rewrite Hc in Hwf |- *. simpl in Hwf.
    destruct Hwf as [Hnd Hpos]; [split; [apply NoDup_nil_2 | constructor]|].
    destruct (with_keys_total _ Hk) as [l Hl].
    assert (Hs : sorted (cs_var_dict st)
                 = Ok (map snd (fold_right insert_by_key [] l))).
    { unfold sorted. rewrite Hl. reflexivity. }
    pose proof (sorted_perm _ _ Hs) as Hperm. rewrite Hs.
    exists (VStr s), st, (map snd (fold_right insert_by_key [] l)).
    split; [reflexivity|]. split; [exact Hperm|].
    split; [rewrite <- app_assoc; reflexivity|].
    intros v gen Hin.
    assert (Hin' : In (v, gen) (cs_var_dict st)).
    { apply list_elem_of_In. rewrite <- Hperm. apply list_elem_of_In. exact Hin. }
    assert (Hgen : 0 < gen).
    { rewrite Forall_forall in Hpos. apply list_elem_of_In in Hin'.
      apply (Hpos _ Hin'). }
    split; [exact Hgen|]. split; [apply gens_get_In; assumption|].
    unfold cleanup_item. apply Z.ltb_lt in Hgen. rewrite Hgen. reflexivity.
Qed.

(** ** The reader of the emitted Python *)

Lemma span_app (p : ascii -> bool) w rest :
  Forall (fun c => p c = true) w ->
  match rest with [] => True | c :: _ => p c = false end ->
  span p (w ++ rest) = (w, rest).
Proof.
  intros Hw Hrest. induction Hw as [|c w Hc Hw IH]; simpl.
  - destruct rest as [|c rest]; [reflexivity|]. simpl. rewrite Hrest. reflexivity.
  - rewrite Hc, IH. reflexivity.
Qed.

Lemma is_underscore_eq c : is_underscore c = true -> c = "_"%char.
Proof. unfold is_underscore. intros Hc. apply Ascii.eqb_eq. exact Hc. Qed.

Lemma name_start_char c : name_start c = true -> name_char c = true.
Proof.
  unfold name_start, name_char. intros Hc.
  apply orb_prop in Hc as [-> | ->]; [reflexivity | apply orb_true_r].
Qed.

Lemma digit_char c : is_digit c = true -> name_char c = true.
Proof.
  unfold name_char. intros ->. rewrite orb_true_r. reflexivity.
Qed.

Lemma letter_not_digit c : is_letter c = true -> is_digit c = false.
Proof.
  unfold is_letter, is_digit. intros Hc.
  apply orb_prop in Hc as [Hc | Hc]; apply andb_prop in Hc as [H1 H2];
    apply Nat.leb_le in H1, H2; apply andb_false_iff;
    right; apply Nat.leb_gt; lia.
Qed.

Lemma name_start_not_digit c : name_start c = true -> is_digit c = false.
Proof.
  unfold name_start. intros Hc. apply orb_prop in Hc as [Hc | Hc].
  - apply letter_not_digit. exact Hc.
  - apply is_underscore_eq in Hc. subst c. reflexivity.
Qed.

(** A character of a name is none of the punctuation of the fragment. *)
Lemma name_char_not c d : name_char c = true -> name_char d = false -> Ascii.eqb c d = false.
Proof.
  intros Hc Hd. destruct (Ascii.eqb_spec c d) as [->|]; [congruence | reflexivity].
Qed.

Lemma t_NAME_chars x :
  t_NAME x = true ->
  exists c w, list_ascii_of_string x = c :: w /\ name_start c = true /\
              Forall (fun c => name_char c = true) w.
Proof.
  destruct x as [|c x]; [discriminate|]. simpl. intros Hx.
  apply andb_prop in Hx as [Hc Hw]. exists c, (list_ascii_of_string x).
  split; [reflexivity|]. split; [exact Hc|].
  apply Forall_forall. intros d Hd. rewrite forallb_forall in Hw.
  apply Hw, list_elem_of_In, Hd.
Qed.

Lemma t_NAME_all_chars x :
  t_NAME x = true -> Forall (fun c => name_char c = true) (list_ascii_of_string x).
Proof.
  intros Hx. destruct (t_NAME_chars x Hx) as (c & w & -> & Hc & Hw).
  constructor; [apply name_start_char; exact Hc | exact Hw].
Qed.

Lemma read_atom_name x rest :
  is_identifier x = true -> ends_word rest ->
  read_atom (list_ascii_of_string x ++ rest) = Some (PName x, rest).
Proof.
  intros Hid Hrest. unfold read_atom.
  pose proof Hid as Hid'. unfold is_identifier in Hid'.
  apply andb_prop in Hid' as [Hname _].
  rewrite (span_app name_char _ rest (t_NAME_all_chars x Hname) Hrest).
  rewrite string_of_list_ascii_of_string.
  destruct (t_NAME_chars x Hname) as (c & w & Heq & Hc & _).
  rewrite Heq. rewrite (name_start_not_digit c Hc), Hid. reflexivity.
Qed.

Lemma read_atom_number n rest :
  0 <= n -> ends_word rest ->
  read_atom (list_ascii_of_string (str_of_Z n) ++ rest) = Some (PNum n, rest).
Proof.
  intros Hn Hrest. unfold read_atom.
  destruct (str_of_Z_digits n Hn) as [Hd Hne].
  assert (Hchars : Forall (fun c => name_char c = true)
                          (list_ascii_of_string (str_of_Z n))).
  { eapply Forall_impl; [exact Hd|]. intros c. apply digit_char. }
  rewrite (span_app name_char _ rest Hchars Hrest).
  rewrite string_of_list_ascii_of_string.
  destruct (list_ascii_of_string (str_of_Z n)) as [|c w] eqn:Heq.
  { exfalso. apply Hne. apply list_ascii_of_string_inj. exact Heq. }
  inversion Hd as [|? ? Hc _]; subst. rewrite Hc.
  rewrite int_of_string_str_of_Z, DecimalZ.of_to, String.eqb_refl. reflexivity.
Qed.

(** The text of a canonical expression begins with a character that is
    not a minus sign. *)
Lemma render_first e :
  canonical e = true ->
  exists c w, list_ascii_of_string (render e) = c :: w /\ Ascii.eqb c "-" = false.
Proof.
  destruct e as [x|n|e1|op e1 e2]; simpl; intros Hc.
  - unfold is_identifier in Hc. apply andb_prop in Hc as [Hname _].
    destruct (t_NAME_chars x Hname) as (c & w & Heq & Hs & _).
    exists c, w. split; [exact Heq|].
    apply name_char_not; [apply name_start_char; exact Hs | reflexivity].
  - apply Z.leb_le in Hc. destruct (str_of_Z_digits n Hc) as [Hd Hne].
    destruct (list_ascii_of_string (str_of_Z n)) as [|c w] eqn:Heq.
    { exfalso. apply Hne. apply list_ascii_of_string_inj. exact Heq. }
    exists c, w. split; [reflexivity|]. inversion Hd as [|? ? Hdc _]; subst.
    apply name_char_not; [apply digit_char; exact Hdc | reflexivity].
  - eexists _, _. rewrite list_ascii_of_string_app. simpl. split; reflexivity.
  - eexists _, _. rewrite list_ascii_of_string_app. simpl. split; reflexivity.
Qed.

Lemma span_operator op rest :
  existsb (String.eqb op) binary_operators = true ->
  span operator_char (list_ascii_of_string op ++ " "%char :: rest) =
  (list_ascii_of_string op, " "%char :: rest).
Proof.
  intros Hop. apply span_app; [|reflexivity].
  apply existsb_exists in Hop as (o & Hin & Heq).
  apply String.eqb_eq in Heq. subst o. unfold binary_operators in Hin.
  simpl in Hin.
  destruct Hin as [<-|[<-|[<-|[<-|[<-|[]]]]]]; repeat constructor.
Qed.

Lemma read_expr_negation fuel l e r :
  read_expr fuel l = Some (e, ")"%char :: r) ->
  read_expr (S fuel) ("("%char :: "-"%char :: l) = Some (PNeg e, r).
Proof. intros Hl. cbn [read_expr]. simpl Ascii.eqb. cbv iota. rewrite Hl. reflexivity. Qed.

Lemma read_expr_binary fuel c l e1 op l5 e2 r :
  Ascii.eqb c "-" = false ->
  existsb (String.eqb op) binary_operators = true ->
  read_expr fuel (c :: l) =
    Some (e1, " "%char :: list_ascii_of_string op ++ " "%char :: l5) ->
  read_expr fuel l5 = Some (e2, ")"%char :: r) ->
  read_expr (S fuel) ("("%char :: c :: l) = Some (PBin op e1 e2, r).
Proof.
  intros Hc Hop H1 H2. cbn [read_expr]. simpl Ascii.eqb at 1. cbv iota.
  rewrite Hc, H1, span_operator by exact Hop.
  rewrite string_of_list_ascii_of_string, Hop. simpl Ascii.eqb. cbn [andb].
  rewrite H2. reflexivity.
Qed.

Lemma render_neg_chars e rest :
  list_ascii_of_string (render (PNeg e)) ++ rest =
  "("%char :: "-"%char :: list_ascii_of_string (render e) ++ ")"%char :: rest.
Proof.
  cbn [render]. rewrite !list_ascii_of_string_app. simpl.
  rewrite <- app_assoc. reflexivity.
Qed.

Lemma render_bin_chars op e1 e2 rest :
  list_ascii_of_string (render (PBin op e1 e2)) ++ rest =
  "("%char :: list_ascii_of_string (render e1) ++
  " "%char :: list_ascii_of_string op ++
  " "%char :: list_ascii_of_string (render e2) ++ ")"%char :: rest.
Proof.
  cbn [render]. rewrite !list_ascii_of_string_app. simpl.
  repeat (rewrite <- app_assoc; simpl). reflexivity.
Qed.

(** Reading back what [render] wrote. *)
Lemma read_expr_render e :
  canonical e = true ->
  forall fuel rest, (depth e < fuel)%nat -> ends_word rest ->
  read_expr fuel (list_ascii_of_string (render e) ++ rest) = Some (e, rest).
Proof.
  induction e as [x|n|e1 IH1|op e1 IH1 e2 IH2]; intros Hc fuel rest Hfuel Hrest;
    (destruct fuel as [|fuel]; [simpl in Hfuel; lia|]).
  - destruct (render_first (PName x) Hc) as (c & w & Heq & _).
    simpl in Hc, Heq. cbn [read_expr render]. rewrite Heq. cbn [app].
    assert (Hpar : Ascii.eqb c "(" = false).
    { unfold is_identifier in Hc. apply andb_prop in Hc as [Hname _].
      destruct (t_NAME_chars x Hname) as (c' & w' & Heq' & Hs & _).
      rewrite Heq in Heq'. injection Heq' as <- _.
      apply name_char_not; [apply name_start_char; exact Hs | reflexivity]. }
    rewrite Hpar. change (c :: w ++ rest) with ((c :: w) ++ rest).
    rewrite <- Heq. apply read_atom_name; assumption.
  - simpl in Hc. apply Z.leb_le in Hc. destruct (str_of_Z_digits n Hc) as [Hd Hne].
    cbn [read_expr render].
    destruct (list_ascii_of_string (str_of_Z n)) as [|c w] eqn:Heq.
    { exfalso. apply Hne. apply list_ascii_of_string_inj. exact Heq. }
    cbn [app]. inversion Hd as [|? ? Hdc _]; subst.
    rewrite (name_char_not c "(" (digit_char c Hdc) eq_refl).
    change (c :: w ++ rest) with ((c :: w) ++ rest).
    rewrite <- Heq. apply read_atom_number; assumption.
  - simpl in Hc, Hfuel. rewrite render_neg_chars. apply read_expr_negation.
    apply IH1; [exact Hc | lia | reflexivity].
  - simpl in Hc, Hfuel.
    apply andb_prop in Hc as [Hc Hc2]. apply andb_prop in Hc as [Hop Hc1].
    rewrite render_bin_chars.
    destruct (render_first e1 Hc1) as (c & w & Heq & Hminus).
    pose proof (IH1 Hc1 fuel
      (" "%char :: list_ascii_of_string op ++
       " "%char :: list_ascii_of_string (render e2) ++ ")"%char :: rest)
      ltac:(lia) eq_refl) as H1.
    pose proof (IH2 Hc2 fuel (")"%char :: rest) ltac:(lia) eq_refl) as H2.
    rewrite Heq in H1 |- *. cbn [app] in H1 |- *.
    exact (read_expr_binary fuel c _ e1 op _ e2 rest Hminus Hop H1 H2).
Qed.

Lemma depth_lt_length e :
  canonical e = true -> (depth e < length (list_ascii_of_string (render e)))%nat.
Proof.
  induction e as [x|n|e1 IH1|op e1 IH1 e2 IH2]; intros Hc.
  - destruct (render_first _ Hc) as (c & w & -> & _). simpl. lia.
  - destruct (render_first _ Hc) as (c & w & -> & _). simpl. lia.
  - simpl in Hc. specialize (IH1 Hc).
    rewrite <- (app_nil_r (list_ascii_of_string (render (PNeg e1)))).
    rewrite render_neg_chars. simpl. rewrite length_app. simpl. lia.
  - simpl in Hc. apply andb_prop in Hc as [Hc Hc2]. apply andb_prop in Hc as [_ Hc1].
    specialize (IH1 Hc1). specialize (IH2 Hc2).
    rewrite <- (app_nil_r (list_ascii_of_string (render (PBin op e1 e2)))).
    rewrite render_bin_chars. simpl. rewrite length_app. simpl.
    rewrite length_app. simpl. rewrite length_app. simpl. lia.
Qed.

Lemma is_identifier_not_del x : is_identifier x = true -> String.eqb x "del" = false.
Proof.
  intros Hx. destruct (String.eqb_spec x "del") as [->|]; [discriminate Hx | reflexivity].
Qed.

Lemma read_stmt_assign x e :
  is_identifier x = true -> canonical e = true ->
  read_stmt (x +:+ " = " +:+ render e) = Some (SAssign x e).
Proof.
  intros Hx He. unfold read_stmt. rewrite !list_ascii_of_string_app.
  pose proof Hx as Hx'. unfold is_identifier in Hx'. apply andb_prop in Hx' as [Hname _].
  destruct (t_NAME_chars x Hname) as (c & w & Heq & Hs & Hw).
  rewrite Heq. cbn [app].
  rewrite (name_char_not c "#" (name_start_char c Hs) eq_refl).
  change (c :: w ++ ?r) with ((c :: w) ++ r). rewrite <- Heq.
  rewrite span_app; [|apply t_NAME_all_chars; exact Hname | reflexivity].
  rewrite string_of_list_ascii_of_string, (is_identifier_not_del x Hx), Hx.
  simpl. rewrite <- (app_nil_r (list_ascii_of_string (render e))) at 2.
  rewrite read_expr_render; [reflexivity | exact He | | exact I].
  apply depth_lt_length. exact He.
Qed.

Lemma span_del rest :
  span name_char ("d"%char :: "e"%char :: "l"%char :: "("%char :: rest) =
  (["d"; "e"; "l"]%char, "("%char :: rest).
Proof.
  apply (span_app name_char ["d"; "e"; "l"]%char ("("%char :: rest));
    [repeat constructor | reflexivity].
Qed.

Lemma read_stmt_del y :
  is_identifier y = true -> read_stmt ("del(" +:+ y +:+ ")") = Some (SDel y).
Proof.
  intros Hy.
  pose proof Hy as Hy'. unfold is_identifier in Hy'. apply andb_prop in Hy' as [Hname _].
  assert (Hchars : list_ascii_of_string ("del(" +:+ y +:+ ")") =
            "d"%char :: "e"%char :: "l"%char :: "("%char ::
            list_ascii_of_string y ++ [")"%char]).
  { rewrite !list_ascii_of_string_app. reflexivity. }
  unfold read_stmt. rewrite Hchars. cbv zeta iota.
  replace (Ascii.eqb "d" "#") with false by reflexivity.
  rewrite span_del.
  replace (string_of_list_ascii ["d"; "e"; "l"]%char) with "del" by reflexivity.
  rewrite String.eqb_refl.
  rewrite span_app; [|apply t_NAME_all_chars; exact Hname | reflexivity].
  rewrite string_of_list_ascii_of_string, Hy.
  replace (Ascii.eqb "(" "(") with true by reflexivity.
  rewrite bool_decide_eq_true_2 by reflexivity. reflexivity.
Qed.

Lemma read_stmt_comment s :
  no_newline s = true -> read_stmt (String "#" s) = Some SComment.
Proof.
  unfold no_newline, read_stmt. intros Hs. simpl.
  apply negb_true_iff in Hs. rewrite Hs. reflexivity.
Qed.

Lemma no_newline_app a b :
  no_newline a = true -> no_newline b = true -> no_newline (a +:+ b) = true.
Proof.
  unfold no_newline. rewrite list_ascii_of_string_app, existsb_app.
  intros Ha Hb. apply negb_true_iff in Ha, Hb. rewrite Ha, Hb. reflexivity.
Qed.

Lemma no_newline_identifier x : is_identifier x = true -> no_newline x = true.
Proof.
  intros Hx. unfold is_identifier in Hx. apply andb_prop in Hx as [Hname _].
  unfold no_newline. apply negb_true_iff.
  apply not_true_is_false. intros Hex. apply existsb_exists in Hex as (c & Hin & Hc).
  apply Ascii.eqb_eq in Hc. subst c.
  pose proof (t_NAME_all_chars x Hname) as Hall. rewrite Forall_forall in Hall.
  apply list_elem_of_In in Hin. specialize (Hall _ Hin). discriminate Hall.
Qed.

Lemma read_program_app c1 c2 p1 p2 :
  read_program c1 = Some p1 -> read_program c2 = Some p2 ->
  read_program (c1 ++ c2) = Some (p1 ++ p2).
Proof.
  revert p1. induction c1 as [|line c1 IH]; simpl; intros p1.
  - intros [= <-] H2. exact H2.
  - destruct (read_stmt line); [|discriminate].
    destruct (read_program c1) as [q|]; [|discriminate].
    intros [= <-] H2. rewrite (IH q eq_refl H2). reflexivity.
Qed.

(** ** Names of generations *)

Lemma gen_name_zero x g : g <= 0 -> gen_name x g = x.
Proof.
  intros Hg. unfold gen_name, make_gen_name.
  replace (0 <? g) with false by (symmetry; apply Z.ltb_ge; exact Hg). reflexivity.
Qed.

Lemma gen_name_pos x g :
  0 < g -> gen_name x g = "_" +:+ x +:+ "_" +:+ str_of_Z g.
Proof. intros Hg. unfold gen_name. rewrite make_gen_name_pos by exact Hg. reflexivity. Qed.

Lemma gen_name_pos_inj x y g h :
  0 < g -> 0 < h -> gen_name x g = gen_name y h -> x = y /\ g = h.
Proof.
  intros Hg Hh Heq. rewrite !gen_name_pos in Heq by assumption.
  apply gen_name_inj in Heq; [exact Heq | lia | lia].
Qed.

Lemma gen_name_underscore x g : 0 < g -> starts_with_underscore (gen_name x g) = true.
Proof. intros Hg. rewrite gen_name_pos by exact Hg. reflexivity. Qed.

Lemma gen_name_not_plain x g y :
  0 < g -> starts_with_underscore y = false -> gen_name x g <> y.
Proof.
  intros Hg Hy Heq. rewrite <- Heq, gen_name_underscore in Hy by exact Hg.
  discriminate Hy.
Qed.

Lemma gen_name_not_result x g : 0 < g -> gen_name x g <> "_result".
Proof.
  intros Hg Heq. rewrite gen_name_pos in Heq by exact Hg.
  apply (f_equal list_ascii_of_string) in Heq.
  rewrite !list_ascii_of_string_app in Heq. simpl in Heq. injection Heq as Heq.
  assert (Hin : In "_"%char (list_ascii_of_string x ++
                             "_"%char :: list_ascii_of_string (str_of_Z g))).
  { apply in_or_app. right. left. reflexivity. }
  rewrite Heq in Hin. simpl in Hin.
  repeat (destruct Hin as [Hin|Hin]; [discriminate Hin|]). exact Hin.
Qed.

Lemma is_keyword_underscore s : is_keyword (String "_" s) = false.
Proof. reflexivity. Qed.

Lemma gen_name_identifier x g :
  t_NAME x = true -> 0 < g -> is_identifier (gen_name x g) = true.
Proof.
  intros Hx Hg. rewrite gen_name_pos by exact Hg.
  change ("_" +:+ x +:+ "_" +:+ str_of_Z g)
    with (String "_" (x +:+ "_" +:+ str_of_Z g)).
  unfold is_identifier. rewrite is_keyword_underscore, andb_true_r.
  cbn [t_NAME]. replace (name_start "_") with true by reflexivity. cbn [andb].
  rewrite !list_ascii_of_string_app, !forallb_app.
  apply andb_true_intro. split; [|apply andb_true_intro; split].
  - apply forallb_forall. intros c Hc.
    pose proof (t_NAME_all_chars x Hx) as Hall. rewrite Forall_forall in Hall.
    apply Hall, list_elem_of_In, Hc.
  - reflexivity.
  - apply forallb_forall. intros c Hc.
    destruct (str_of_Z_digits g ltac:(lia)) as [Hd _]. rewrite Forall_forall in Hd.
    apply digit_char, Hd, list_elem_of_In, Hc.
Qed.

Lemma user_name_plain x : user_name x = true -> starts_with_underscore x = false.
Proof.
  unfold user_name. intros Hx. apply andb_prop in Hx as [_ Hx].
  apply negb_true_iff. exact Hx.
Qed.

Lemma user_name_identifier x : user_name x = true -> is_identifier x = true.
Proof. unfold user_name. intros Hx. apply andb_prop in Hx as [Hx _]. exact Hx. Qed.

Lemma user_name_t_NAME x : user_name x = true -> t_NAME x = true.
Proof.
  intros Hx. apply user_name_identifier in Hx. unfold is_identifier in Hx.
  apply andb_prop in Hx as [Hx _]. exact Hx.
Qed.

(** ** Settled names *)

Lemma settled_plain vd y : starts_with_underscore y = false -> settled vd y.
Proof.
  intros Hy x g Hg Heq. exfalso. symmetry in Heq.
  exact (gen_name_not_plain x g y Hg Hy Heq).
Qed.

Lemma settled_result vd : settled vd "_result".
Proof.
  intros x g Hg Heq. exfalso. symmetry in Heq. exact (gen_name_not_result x g Hg Heq).
Qed.

Lemma settled_gen vd x g :
  0 < g <= gens_get_default vd (VStr x) -> settled vd (gen_name x g).
Proof.
  intros [Hg Hle] y h Hh Heq.
  apply gen_name_pos_inj in Heq as [-> ->]; assumption.
Qed.

Lemma settled_current vd x :
  starts_with_underscore x = false ->
  settled vd (gen_name x (gens_get_default vd (VStr x))).
Proof.
  intros Hx. destruct (Z_lt_le_dec 0 (gens_get_default vd (VStr x))) as [Hpos|Hle].
  - apply settled_gen. lia.
  - rewrite gen_name_zero by exact Hle. apply settled_plain. exact Hx.
Qed.

Lemma settled_mono vd vd' n : gens_le vd vd' -> settled vd n -> settled vd' n.
Proof.
  intros Hle Hn x g Hg Heq. specialize (Hn x g Hg Heq). specialize (Hle (VStr x)). lia.
Qed.

Lemma names_settled_mono vd vd' e :
  gens_le vd vd' -> names_settled vd e -> names_settled vd' e.
Proof.
  intros Hle He. unfold names_settled in *. eapply Forall_impl; [exact He|].
  intros n. apply settled_mono. exact Hle.
Qed.

Lemma gens_le_refl d : gens_le d d.
Proof. intros k. lia. Qed.

Lemma gens_le_trans d1 d2 d3 : gens_le d1 d2 -> gens_le d2 d3 -> gens_le d1 d3.
Proof. intros H1 H2 k. specialize (H1 k). specialize (H2 k). lia. Qed.

Lemma gens_get_default_set d k g k' :
  gens_get_default (gens_set d k g) k' =
  if decide (k = k') then g else gens_get_default d k'.
Proof.
  unfold gens_get_default. destruct (decide (k = k')) as [->|Hne].
  - rewrite gens_get_set_eq. reflexivity.
  - rewrite gens_get_set_ne by exact Hne. reflexivity.
Qed.

Lemma gens_le_set d k g : gens_get_default d k <= g -> gens_le d (gens_set d k g).
Proof.
  intros Hg k'. rewrite gens_get_default_set. destruct (decide (k = k')) as [<-|]; lia.
Qed.

Lemma keys_user_set d x g : user_name x = true -> keys_user d -> keys_user (gens_set d (VStr x) g).
Proof.
  unfold keys_user. intros Hx. induction d as [|[k g'] d IH]; intros Hd; simpl.
  - constructor; [exists x; split; [reflexivity | exact Hx] | constructor].
  - inversion Hd as [|? ? Hk Hd']; subst.
    destruct (value_eqb (VStr x) k); constructor; auto.
Qed.

(** ** The simulation *)

Section SimulationFacts.
Context `{PyArith}.

Lemma eval_py_frame vd e (C C' : gmap string num) :
  names_settled vd e -> frame vd C C' -> eval_py e C' = eval_py e C.
Proof.
  unfold names_settled. intros He Hfr.
  induction e as [x|n|e1 IH1|op e1 IH1 e2 IH2]; simpl in *.
  - inversion He as [|? ? Hx _]; subst. rewrite (Hfr x Hx). reflexivity.
  - reflexivity.
  - rewrite (IH1 He). reflexivity.
  - apply Forall_app in He as [He1 He2]. rewrite (IH1 He1), (IH2 He2). reflexivity.
Qed.

Lemma frame_refl vd (C : gmap string num) : frame vd C C.
Proof. intros n _. reflexivity. Qed.

Lemma frame_trans vd vd1 (C C1 C2 : gmap string num) :
  gens_le vd vd1 -> frame vd C C1 -> frame vd1 C1 C2 -> frame vd C C2.
Proof.
  intros Hle H1 H2 n Hn. rewrite (H2 n (settled_mono _ _ _ Hle Hn)). apply H1, Hn.
Qed.

Lemma exec_stmts_app p1 p2 (C : gmap string num) :
  exec_stmts (p1 ++ p2) C =
  match exec_stmts p1 C with
  | (Ok _, C1) => exec_stmts p2 C1
  | (Raise e, C1) => (Raise e, C1)
  end.
Proof.
  revert C. induction p1 as [|s p1 IH]; intros C; simpl; [reflexivity|].
  destruct (exec_stmt s C) as [[u|e] C1]; [apply IH | reflexivity].
Qed.

(** The step of a [set]: the store binds [x], the map moves [x] to its
    next generation, the context binds the name of that generation. *)
Lemma sim_set (B : gmap value num) vd (C : gmap string num) x v g :
  sim B vd C -> starts_with_underscore x = false ->
  0 <= gens_get_default vd (VStr x) -> g = gens_get_default vd (VStr x) + 1 ->
  sim (<[VStr x := v]> B) (gens_set vd (VStr x) g) (<[gen_name x g := v]> C).
Proof.
  intros [Hcur Htmp] Hx Hnn Hg. split.
  - intros y Hy. rewrite gens_get_default_set.
    destruct (decide (VStr x = VStr y)) as [[= <-]|Hne].
    + rewrite !lookup_insert_eq. reflexivity.
    + rewrite (lookup_insert_ne B) by exact Hne.
      rewrite lookup_insert_ne; [apply Hcur; exact Hy|].
      intros Heq. destruct (Z_lt_le_dec 0 (gens_get_default vd (VStr y))) as [Hpos|Hle].
      * apply gen_name_pos_inj in Heq as [-> _]; [congruence | lia | exact Hpos].
      * rewrite (gen_name_zero y) in Heq by exact Hle.
        exact (gen_name_not_plain x g y ltac:(lia) Hy Heq).
  - intros y h Hh. rewrite gens_get_default_set in Hh.
    destruct (decide (gen_name x g = gen_name y h)) as [Heq|Hne].
    + rewrite Heq, lookup_insert_eq. eauto.
    + rewrite lookup_insert_ne by exact Hne. apply Htmp.
      destruct (decide (VStr x = VStr y)) as [[= <-]|Hxy]; [|exact Hh].
      assert (h <> g) by congruence. lia.
Qed.

(** Binding [_result] disturbs nothing the relation speaks of. *)
Lemma sim_result (B : gmap value num) vd (C : gmap string num) v :
  sim B vd C -> sim B vd (<["_result" := v]> C).
Proof.
  intros [Hcur Htmp]. split.
  - intros y Hy. rewrite lookup_insert_ne; [apply Hcur; exact Hy|].
    intros Heq.
    destruct (Z_lt_le_dec 0 (gens_get_default vd (VStr y))) as [Hpos|Hle].
    + symmetry in Heq. exact (gen_name_not_result y _ Hpos Heq).
    + rewrite gen_name_zero in Heq by exact Hle. subst y. discriminate Hy.
  - intros y h Hh. rewrite lookup_insert_ne; [apply Htmp; exact Hh|].
    intros Heq. symmetry in Heq. apply (gen_name_not_result y h); [lia | exact Heq].
Qed.

Lemma comprehension_length {S A} (f : ValueTree -> S -> result A * S) cs :
  forall s vs s', comprehension f cs s = (Ok vs, s') -> length vs = length cs.
Proof.
  induction cs as [|c cs IH]; intros s vs s'; simpl.
  - intros [= <- _]. reflexivity.
  - destruct (f c s) as [[v|e] s1]; [|discriminate].
    destruct (comprehension f cs s1) as [[vs1|e] s2] eqn:E; [|discriminate].
    intros [= <- _]. simpl. rewrite (IH _ _ _ E). reflexivity.
Qed.

Lemma binary_operator_agrees op :
  In op ["+"; "-"; "*"; "/"] ->
  exists f, op_to_fn_get (VStr op) = Some (lambda2 f) /\
            binary_operation op = f /\
            existsb (String.eqb op) binary_operators = true.
Proof.
  intros Hin. simpl in Hin.
  destruct Hin as [<-|[<-|[<-|[<-|[]]]]]; eexists; repeat split.
Qed.

Lemma named_operator_cases name fn :
  t_NAME name = true -> op_to_fn_get (VStr name) = Some fn ->
  (name = "neg" /\ fn = lambda1 py_neg) \/
  (name = "sqr" /\ fn = lambda1 (fun x => py_mul x x)).
Proof.
  intros Hname Hfn. unfold op_to_fn_get, op_to_fn in Hfn. cbn [dict_get] in Hfn.
  destruct (decide (name = "neg")) as [->|Hneg].
  { left. split; [reflexivity|]. injection Hfn as <-. reflexivity. }
  rewrite (value_eqb_neq (VStr name) (VStr "neg")) in Hfn by congruence.
  destruct (decide (name = "+")) as [->|H1]; [discriminate Hname|].
  rewrite (value_eqb_neq (VStr name) (VStr "+")) in Hfn by congruence.
  destruct (decide (name = "-")) as [->|H2]; [discriminate Hname|].
  rewrite (value_eqb_neq (VStr name) (VStr "-")) in Hfn by congruence.
  destruct (decide (name = "*")) as [->|H3]; [discriminate Hname|].
  rewrite (value_eqb_neq (VStr name) (VStr "*")) in Hfn by congruence.
  destruct (decide (name = "/")) as [->|H4]; [discriminate Hname|].
  rewrite (value_eqb_neq (VStr name) (VStr "/")) in Hfn by congruence.
  destruct (decide (name = "sqr")) as [->|Hsqr].
  { right. split; [reflexivity|]. injection Hfn as <-. reflexivity. }
  rewrite (value_eqb_neq (VStr name) (VStr "sqr")) in Hfn by congruence.
  destruct (value_eqb (VStr name) (VStr "?")); discriminate Hfn.
Qed.

Lemma cstate_eta st : st = CState (cs_var_dict st) (cs_code st ++ []).
Proof. destruct st as [vd code]. simpl. rewrite app_nil_r. reflexivity. Qed.

Lemma simulated_const (B : gmap value num) n st :
  0 <= n -> gens_wf (cs_var_dict st) -> keys_user (cs_var_dict st) ->
  simulated B B (lit (VInt n)) st (compile_ast (T_const n) st).
Proof.
  intros Hn Hwf Hku. exists (PNum n), [], (cs_var_dict st).
  split; [unfold T_const; rewrite compile_ast_const; unfold ret; simpl;
          rewrite <- cstate_eta; reflexivity|].
  split; [apply Z.leb_le; exact Hn|]. split; [constructor|].
  split; [exact Hwf|]. split; [exact Hku|]. split; [apply gens_le_refl|].
  exists []. split; [reflexivity|]. intros C HC. exists C.
  split; [reflexivity|]. split; [exact HC|]. split; [apply frame_refl | reflexivity].
Qed.

Lemma simulated_get (B : gmap value num) x v st :
  user_name x = true -> B !! VStr x = Some v ->
  gens_wf (cs_var_dict st) -> keys_user (cs_var_dict st) ->
  simulated B B v st (compile_ast (T_get x) st).
Proof.
  intros Hx HB Hwf Hku.
  exists (PName (gen_name x (gens_get_default (cs_var_dict st) (VStr x)))), [],
         (cs_var_dict st).
  pose proof (user_name_plain x Hx) as Hplain.
  pose proof (gens_get_nonneg _ (VStr x) Hwf) as Hnn.
  split.
  { unfold T_get. rewrite compile_ast_get. unfold bind, var_dict_get, ret. simpl.
    rewrite <- cstate_eta. unfold gen_name.
    unfold make_gen_name. destruct (0 <? _); reflexivity. }
  split.
  { simpl. destruct (Z_lt_le_dec 0 (gens_get_default (cs_var_dict st) (VStr x))) as [Hpos|Hle].
    - apply gen_name_identifier; [apply user_name_t_NAME; exact Hx | exact Hpos].
    - rewrite gen_name_zero by exact Hle. apply user_name_identifier. exact Hx. }
  split; [repeat constructor; apply settled_current; exact Hplain|].
  split; [exact Hwf|]. split; [exact Hku|]. split; [apply gens_le_refl|].
  exists []. split; [reflexivity|]. intros C HC. exists C.
  split; [reflexivity|]. split; [exact HC|]. split; [apply frame_refl|].
  simpl. destruct HC as [Hcur _]. rewrite (Hcur x Hplain), HB. reflexivity.
Qed.

Lemma simulated_set (B B1 : gmap value num) x v e st :
  user_name x = true ->
  simulated B B1 v st (compile_ast e st) ->
  simulated B (<[VStr x := v]> B1) v st (compile_ast (T_set x e) st).
Proof.
  intros Hx (e1 & new & vd1 & Hc & Hcan & Hset & Hwf & Hku & Hle & stmts & Hread & Hexec).
  pose proof (user_name_plain x Hx) as Hplain.
  pose proof (gens_get_nonneg _ (VStr x) Hwf) as Hnn.
  set (g := gens_get_default vd1 (VStr x) + 1).
  assert (Hg : 0 < g) by (unfold g; lia).
  exists (PName (gen_name x g)), (new ++ [gen_name x g +:+ " = " +:+ render e1]),
         (gens_set vd1 (VStr x) g).
  split.
  { unfold T_set. rewrite compile_ast_set, (bind_Ok _ _ _ _ _ Hc).
    unfold bind, var_dict_bump, lift, code_append, ret, str_plus. simpl.
    replace (match gens_get vd1 (VStr x) with Some g0 => g0 + 1 | None => 1 end)
      with g by (unfold g, gens_get_default; destruct (gens_get vd1 (VStr x)); reflexivity).
    rewrite gen_name_pos by exact Hg.
    rewrite !append_assoc_str, <- app_assoc. reflexivity. }
  split; [simpl; apply gen_name_identifier; [apply user_name_t_NAME; exact Hx | exact Hg]|].
  split.
  { repeat constructor. apply settled_gen. rewrite gens_get_default_set.
    destruct (decide (VStr x = VStr x)); [lia | congruence]. }
  split; [apply gens_wf_set; assumption|].
  split; [apply keys_user_set; assumption|].
  split; [eapply gens_le_trans; [exact Hle | apply gens_le_set; lia]|].
  exists (stmts ++ [SAssign (gen_name x g) e1]). split.
  { apply read_program_app; [exact Hread|]. simpl.
    rewrite read_stmt_assign; [reflexivity | | exact Hcan].
    apply gen_name_identifier; [apply user_name_t_NAME; exact Hx | exact Hg]. }
  intros C HC. destruct (Hexec C HC) as (C1 & Hex1 & Hsim1 & Hfr1 & Hev1).
  exists (<[gen_name x g := v]> C1).
  split; [rewrite exec_stmts_app, Hex1; simpl; rewrite Hev1; reflexivity|].
  split; [apply sim_set; [exact Hsim1 | exact Hplain | exact Hnn | reflexivity]|].
  split.
  { intros n Hn. rewrite lookup_insert_ne; [apply Hfr1; exact Hn|].
    intros Heq. specialize (Hn x g Hg (eq_sym Heq)). specialize (Hle (VStr x)).
    unfold g in Hn. lia. }
  simpl. rewrite lookup_insert_eq. reflexivity.
Qed.

Lemma simulated_neg (B B1 : gmap value num) v1 v c0s e rest st :
  py_neg v1 = Ok v ->
  simulated B B1 v1 st (compile_ast e st) ->
  simulated B B1 v st
    (compile_ast (Node (VStr "apply") (Node (VStr "neg") c0s :: e :: rest)) st).
Proof.
  intros Hv (e1 & new & vd1 & Hc & Hcan & Hset & Hwf & Hku & Hle & stmts & Hread & Hexec).
  exists (PNeg e1), new, vd1.
  split.
  { rewrite compile_ast_neg, (bind_Ok _ _ _ _ _ Hc).
    unfold bind, lift, ret, str_plus. simpl. rewrite append_assoc_str. reflexivity. }
  split; [exact Hcan|]. split; [exact Hset|].
  split; [exact Hwf|]. split; [exact Hku|]. split; [exact Hle|].
  exists stmts. split; [exact Hread|].
  intros C HC. destruct (Hexec C HC) as (C1 & Hex1 & Hsim1 & Hfr1 & Hev1).
  exists C1. split; [exact Hex1|]. split; [exact Hsim1|]. split; [exact Hfr1|].
  simpl. rewrite Hev1. exact Hv.
Qed.

Lemma simulated_sqr (B B1 : gmap value num) v1 v c0s e rest st :
  pow2_is_square ->
  py_mul v1 v1 = Ok v ->
  simulated B B1 v1 st (compile_ast e st) ->
  simulated B B1 v st
    (compile_ast (Node (VStr "apply") (Node (VStr "sqr") c0s :: e :: rest)) st).
Proof.
  intros Hpow Hv (e1 & new & vd1 & Hc & Hcan & Hset & Hwf & Hku & Hle & stmts & Hread & Hexec).
  exists (PBin "**" e1 (PNum 2)), new, vd1.
  split.
  { rewrite compile_ast_sqr, (bind_Ok _ _ _ _ _ Hc).
    unfold bind, lift, ret, str_plus. simpl. rewrite append_assoc_str. reflexivity. }
  split; [simpl; rewrite Hcan; reflexivity|].
  split; [unfold names_settled; simpl; rewrite app_nil_r; exact Hset|].
  split; [exact Hwf|]. split; [exact Hku|]. split; [exact Hle|].
  exists stmts. split; [exact Hread|].
  intros C HC. destruct (Hexec C HC) as (C1 & Hex1 & Hsim1 & Hfr1 & Hev1).
  exists C1. split; [exact Hex1|]. split; [exact Hsim1|]. split; [exact Hfr1|].
  simpl. rewrite Hev1. change (binary_operation "**") with py_pow.
  rewrite Hpow. exact Hv.
Qed.

Lemma simulated_binary (B B1 B2 : gmap value num) op f v1 v2 v c0s e1 e2 rest st :
  VStr op <> VStr "neg" -> VStr op <> VStr "sqr" ->
  binary_operation op = f ->
  existsb (String.eqb op) binary_operators = true ->
  f v1 v2 = Ok v ->
  simulated B B1 v1 st (compile_ast e1 st) ->
  simulated B1 B2 v2 (snd (compile_ast e1 st))
            (compile_ast e2 (snd (compile_ast e1 st))) ->
  simulated B B2 v st
    (compile_ast (Node (VStr "apply") (Node (VStr op) c0s :: e1 :: e2 :: rest)) st).
Proof.
  intros Hneg Hsqr Hf Hop Hv
    (a1 & new1 & vd1 & Hc1 & Hcan1 & Hset1 & Hwf1 & Hku1 & Hle1 & stmts1 & Hread1 & Hexec1).
  rewrite Hc1. cbn [snd cs_var_dict cs_code].
  intros
    (a2 & new2 & vd2 & Hc2 & Hcan2 & Hset2 & Hwf2 & Hku2 & Hle2 & stmts2 & Hread2 & Hexec2).
  exists (PBin op a1 a2), (new1 ++ new2), vd2.
  split.
  { rewrite (compile_ast_binary _ _ _ _ _ Hneg Hsqr).
    rewrite (bind_Ok _ _ _ _ _ Hc1), (bind_Ok _ _ _ _ _ Hc2).
    unfold bind, lift, ret, str_plus. simpl.
    rewrite !append_assoc_str, <- app_assoc. reflexivity. }
  split; [cbn [canonical]; rewrite Hop, Hcan1, Hcan2; reflexivity|].
  split.
  { unfold names_settled. simpl. apply Forall_app. split; [|exact Hset2].
    apply (names_settled_mono vd1); assumption. }
  split; [exact Hwf2|]. split; [exact Hku2|].
  split; [eapply gens_le_trans; eassumption|].
  exists (stmts1 ++ stmts2). split; [apply read_program_app; assumption|].
  intros C HC. destruct (Hexec1 C HC) as (C1 & Hex1 & Hsim1 & Hfr1 & Hev1).
  destruct (Hexec2 C1 Hsim1) as (C2 & Hex2 & Hsim2 & Hfr2 & Hev2).
  exists C2. split; [rewrite exec_stmts_app, Hex1; exact Hex2|].
  split; [exact Hsim2|].
  split; [eapply frame_trans; eassumption|].
  simpl. rewrite (eval_py_frame vd1 a1 C1 C2 Hset1 Hfr2), Hev1, Hev2, Hf. exact Hv.
Qed.

Lemma plain_names_node ntype children :
  plain_names (Node ntype children) = true ->
  (value_eqb ntype (VStr "get") || value_eqb ntype (VStr "set") = true ->
   match children with
   | c0 :: _ =>
     match get_value c0 with
     | VStr x => user_name x
     | VInt _ => false
     end
   | [] => true
   end = true)
  /\ Forall (fun c => plain_names c = true) children.
Proof.
  cbn [plain_names]. intros Hp. apply andb_prop in Hp as [Hhead Hch].
  split.
  - intros Hgs. rewrite Hgs in Hhead. exact Hhead.
  - apply Forall_forall. intros c Hc.
    rewrite forallb_forall in Hch. apply Hch. apply list_elem_of_In. exact Hc.
Qed.

Lemma evaluate_ast_get name c0s rest (B : gmap value num) :
  evaluate_ast (Node (VStr "get") (Node name c0s :: rest)) B =
  match B !! name with
  | None =>
    (Raise (ValueError ("Evaluation error, variable '" +:+ py_str name
                          +:+ "' has no value yet")), B)
  | Some v => (Ok v, B)
  end.
Proof. reflexivity. Qed.

(** The simulation, by induction on the tree: whenever the evaluator
    returns a value for an expression tree whose variables have plain
    names, [compile_ast] returns the text of an expression of the
    fragment and the statements it appends compute, generation by
    generation, what the evaluator computed. *)
Lemma compile_ast_simulates t :
  pow2_is_square -> expression t -> plain_names t = true ->
  forall (B : gmap value num) v B' st,
    evaluate_ast t B = (Ok v, B') ->
    gens_wf (cs_var_dict st) -> keys_user (cs_var_dict st) ->
    simulated B B' v st (compile_ast t st).
Proof.
  intros Hpow Ht. induction Ht as
    [name e Hn He IHe | op e1 e2 Hop He1 IH1 He2 IH2 | e He IHe | name Hn
    | name args Hn Hne Hargs IHargs | n Hn | name Hn] using expression_args_ind;
    intros Hplain B v B' st Hev Hwf Hku.
  - (* set *)
    apply plain_names_node in Hplain as [Hhead Hch]. specialize (Hhead eq_refl).
    cbn [get_value] in Hhead.
    inversion Hch as [|? ? _ Hch']; subst. inversion Hch' as [|? ? Hpe _]; subst.
    rewrite evaluate_ast_set in Hev.
    destruct (evaluate_ast e B) as [[v1|err] B1] eqn:He1; [|discriminate Hev].
    injection Hev as <- <-.
    apply (simulated_set B B1 name v1 e st Hhead).
    apply IHe; assumption.
  - (* binary operator *)
    apply plain_names_node in Hplain as [_ Hch].
    inversion Hch as [|? ? _ Hch']; subst. inversion Hch' as [|? ? Hp1 Hch'']; subst.
    inversion Hch'' as [|? ? Hp2 _]; subst.
    destruct (binary_operator_agrees op Hop) as (f & Hfn & Hbin & Hex).
    destruct (in_operators_not_unary op Hop) as [Hneg Hsqr].
    rewrite evaluate_ast_apply, Hfn in Hev. cbn [comprehension] in Hev.
    destruct (evaluate_ast e1 B) as [[v1|err] B1] eqn:Hev1; [|discriminate Hev].
    destruct (evaluate_ast e2 B1) as [[v2|err] B2] eqn:Hev2; [|discriminate Hev].
    cbn [lambda2] in Hev. injection Hev as Hv <-.
    pose proof (IH1 Hp1 B v1 B1 st Hev1 Hwf Hku) as H1.
    assert (H2 : simulated B1 B2 v2 (snd (compile_ast e1 st))
                   (compile_ast e2 (snd (compile_ast e1 st)))).
    { destruct H1 as (a1 & new1 & vd1 & Hc1 & _ & _ & Hwf1 & Hku1 & _).
      apply IH2; [exact Hp2 | exact Hev2 | rewrite Hc1; exact Hwf1 | rewrite Hc1; exact Hku1]. }
    exact (simulated_binary B B1 B2 op f v1 v2 v [] e1 e2 [] st
             Hneg Hsqr Hbin Hex Hv H1 H2).
  - (* unary minus *)
    apply plain_names_node in Hplain as [_ Hch].
    inversion Hch as [|? ? _ Hch']; subst. inversion Hch' as [|? ? Hpe _]; subst.
    rewrite evaluate_ast_apply in Hev.
    change (op_to_fn_get (VStr "neg")) with (Some (lambda1 py_neg)) in Hev.
    cbn [comprehension] in Hev.
    destruct (evaluate_ast e B) as [[v1|err] B1] eqn:Hev1; [|discriminate Hev].
    cbn [lambda1] in Hev. injection Hev as Hv <-.
    apply (simulated_neg B B1 v1 v [] e [] st Hv).
    apply IHe; assumption.
  - (* a call without arguments *)
    exfalso. rewrite evaluate_ast_apply in Hev.
    destruct (op_to_fn_get (VStr name)) as [fn|] eqn:Hfn; [|discriminate Hev].
    destruct (named_operator_cases name fn Hn Hfn) as [[_ ->]|[_ ->]];
      discriminate Hev.
  - (* a call with arguments *)
    apply plain_names_node in Hplain as [_ Hch].
    inversion Hch as [|? ? _ Hch']; subst. clear Hch.
    rewrite evaluate_ast_apply in Hev.
    destruct (op_to_fn_get (VStr name)) as [fn|] eqn:Hfn; [|discriminate Hev].
    destruct (comprehension evaluate_ast args B) as [[vs|err] Bc] eqn:Hcomp;
      [|discriminate Hev].
    pose proof (comprehension_length _ _ _ _ _ Hcomp) as Hlen.
    assert (Hone : exists v1, vs = [v1]).
    { destruct (named_operator_cases name fn Hn Hfn) as [[_ ->]|[_ ->]];
        destruct vs as [|v1 [|v2 vs]]; try discriminate Hev; eauto. }
    destruct Hone as [v1 ->].
    destruct args as [|e [|e' args]]; try discriminate Hlen.
    inversion IHargs as [|? ? IHe _]; subst. inversion Hch' as [|? ? Hpe _]; subst.
    cbn [comprehension] in Hcomp.
    destruct (evaluate_ast e B) as [[w|err] Bw] eqn:Hev1; [|discriminate Hcomp].
    injection Hcomp as <- <-.
    pose proof (IHe Hpe B w Bw st Hev1 Hwf Hku) as H1.
    destruct (named_operator_cases name fn Hn Hfn) as [[-> ->]|[-> ->]];
      cbn [lambda1] in Hev; injection Hev as Hv <-.
    + exact (simulated_neg B Bw w v [] e [] st Hv H1).
    + exact (simulated_sqr B Bw w v [] e [] st Hpow Hv H1).
  - (* number *)
    injection Hev as <- <-. apply simulated_const; assumption.
  - (* name *)
    apply plain_names_node in Hplain as [Hhead _]. specialize (Hhead eq_refl).
    cbn [get_value] in Hhead.
    rewrite evaluate_ast_get in Hev.
    destruct (B !! VStr name) as [w|] eqn:HB; [|discriminate Hev].
    injection Hev as <- <-. apply simulated_get; assumption.
Qed.

(** *** The cleanup *)

Lemma range1_In g k : In k (range1 g) -> 0 < k <= g.
Proof.
  unfold range1. intros Hin. apply in_map_iff in Hin as (i & <- & Hi).
  apply in_seq in Hi. lia.
Qed.

Lemma range1_NoDup g : NoDup (range1 g).
Proof.
  unfold range1. apply (NoDup_fmap_2 Z.of_nat). apply NoDup_ListNoDup, seq_NoDup.
Qed.

Lemma read_program_dels x ks :
  t_NAME x = true -> Forall (fun k => 0 < k) ks ->
  read_program (map (fun g => "del(" +:+ py_str (make_gen_name (VStr x) g) +:+ ")") ks)
  = Some (map (fun k => SDel (gen_name x k)) ks).
Proof.
  intros Hx Hks. induction Hks as [|k ks Hk _ IH]; simpl; [reflexivity|].
  fold (gen_name x k). rewrite read_stmt_del, IH; [reflexivity|].
  apply gen_name_identifier; assumption.
Qed.

Lemma read_cleanup_item x g :
  user_name x = true -> 0 < g ->
  read_program (cleanup_item (VStr x, g)) = Some (cleanup_stmts (VStr x, g)).
Proof.
  intros Hx Hg. unfold cleanup_item, cleanup_stmts.
  replace (0 <? g) with true by (symmetry; apply Z.ltb_lt; exact Hg).
  apply (read_program_app [_; _] _ [_; _]).
  - cbn [read_program py_str]. fold (gen_name x g).
    change ("# Update and cleanup " +:+ x)
      with (String "#" (" Update and cleanup " +:+ x)).
    rewrite read_stmt_comment.
    2:{ apply no_newline_app; [reflexivity|].
        apply no_newline_identifier, user_name_identifier, Hx. }
    assert (Hr : read_stmt (x +:+ " = " +:+ gen_name x g)
                 = Some (SAssign x (PName (gen_name x g)))).
    { apply (read_stmt_assign x (PName (gen_name x g))).
      - apply user_name_identifier, Hx.
      - simpl. apply gen_name_identifier; [apply user_name_t_NAME, Hx | exact Hg]. }
    rewrite Hr. reflexivity.
  - apply read_program_dels; [apply user_name_t_NAME, Hx|].
    apply Forall_forall. intros k Hk. apply list_elem_of_In, range1_In in Hk. lia.
Qed.

Lemma read_program_cleanup items :
  keys_user items -> Forall (fun kv => 0 < snd kv) items ->
  read_program (concat (map cleanup_item items)) =
  Some (concat (map cleanup_stmts items)).
Proof.
  intros Hku Hpos. induction items as [|[k g] items IH]; [reflexivity|].
  inversion Hku as [|? ? (x & Hk & Hx) Hku']; subst.
  inversion Hpos as [|? ? Hg Hpos']; subst. simpl in Hk, Hg. subst k.
  cbn [map concat]. apply read_program_app.
  - apply read_cleanup_item; assumption.
  - apply IH; assumption.
Qed.

(** The deletions of the generations of [x] succeed when each is bound,
    and touch no other name. *)
Lemma exec_dels x ks : forall C : gmap string num,
  NoDup ks ->
  (forall k, In k ks -> 0 < k /\ is_Some (C !! gen_name x k)) ->
  exists C', exec_stmts (map (fun k => SDel (gen_name x k)) ks) C = (Ok tt, C') /\
             forall n, (forall k, In k ks -> n <> gen_name x k) -> C' !! n = C !! n.
Proof.
  induction ks as [|k ks IH]; intros C Hnd Hks.
  - exists C. split; [reflexivity | reflexivity].
  - apply NoDup_cons in Hnd as [Hnotin Hnd].
    destruct (Hks k (or_introl eq_refl)) as [Hk [w Hw]].
    destruct (IH (delete (gen_name x k) C) Hnd) as (C' & Hex & Hsame).
    { intros k' Hk'. destruct (Hks k' (or_intror Hk')) as [Hpos Hsome].
      split; [exact Hpos|]. rewrite lookup_delete_ne; [exact Hsome|].
      intros Heq. apply gen_name_pos_inj in Heq as [_ ->]; [|assumption..].
      apply Hnotin, list_elem_of_In, Hk'. }
    exists C'. split.
    + cbn [map exec_stmts exec_stmt]. rewrite Hw. exact Hex.
    + intros n Hn. rewrite Hsame.
      * apply lookup_delete_ne. intros Heq. exact (Hn k (or_introl eq_refl) (eq_sym Heq)).
      * intros k' Hk'. apply Hn. right. exact Hk'.
Qed.

Lemma exec_cleanup (B' : gmap value num) v todo : forall C : gmap string num,
  NoDup (map fst todo) -> keys_user todo -> Forall (fun kv => 0 < snd kv) todo ->
  cleanup_inv B' v todo C ->
  exists C', exec_stmts (concat (map cleanup_stmts todo)) C = (Ok tt, C') /\
             C' !! "_result" = Some v /\
             forall x, starts_with_underscore x = false -> C' !! x = B' !! VStr x.
Proof.
  induction todo as [|[k0 g0] todo IH]; intros C Hnd Hku Hpos (Hres & Hdone & Htodo).
  - exists C. split; [reflexivity|]. split; [exact Hres|].
    intros x Hx. apply Hdone; [exact Hx | simpl; tauto].
  - inversion Hku as [|? ? (x0 & Hk & Hx0) Hku']; subst.
    inversion Hpos as [|? ? Hg0 Hpos']; subst. simpl in Hk, Hg0. subst k0.
    cbn [map fst] in Hnd. apply NoDup_cons in Hnd as [Hnotin Hnd].
    pose proof (user_name_plain x0 Hx0) as Hplain0.
    destruct (Htodo x0 g0 (or_introl eq_refl)) as [Hlast Hbound].
    destruct (Hbound g0 ltac:(lia)) as [w Hw].
    set (Ca := <[x0 := w]> C).
    destruct (exec_dels x0 (range1 g0) Ca (range1_NoDup g0)) as (Cb & Hdel & Hsame).
    { intros k Hk. apply range1_In in Hk. split; [lia|].
      unfold Ca. rewrite lookup_insert_ne; [apply Hbound; exact Hk|].
      intros Heq. symmetry in Heq. exact (gen_name_not_plain x0 k x0 ltac:(lia) Hplain0 Heq). }
    assert (Hkeep : forall n, (forall y h, 0 < h -> n <> gen_name y h) -> Cb !! n = Ca !! n).
    { intros n Hn. apply Hsame. intros k Hk. apply range1_In in Hk. apply Hn. lia. }
    destruct (IH Cb Hnd Hku' Hpos') as (C' & Hex & Hres' & Hfinal).
    { split; [|split].
      - rewrite Hkeep.
        + unfold Ca. rewrite lookup_insert_ne; [exact Hres|].
          intros ->. discriminate Hplain0.
        + intros y h Hh Heq. symmetry in Heq. exact (gen_name_not_result y h Hh Heq).
      - intros x Hx Hnot. rewrite Hkeep.
        + unfold Ca. destruct (decide (x0 = x)) as [<-|Hne].
          * rewrite lookup_insert_eq, <- Hlast. symmetry. exact Hw.
          * rewrite lookup_insert_ne by exact Hne. apply Hdone; [exact Hx|].
            simpl. intros [[= Heq]|Hin]; [congruence | exact (Hnot Hin)].
        + intros y h Hh Heq. symmetry in Heq. exact (gen_name_not_plain y h x Hh Hx Heq).
      - intros x g Hin.
        assert (Hne : x <> x0).
        { intros ->. apply Hnotin, list_elem_of_In, in_map_iff.
          exists (VStr x0, g). split; [reflexivity | exact Hin]. }
        destruct (Htodo x g (or_intror Hin)) as [Hl Hb].
        assert (Hg : 0 < g).
        { rewrite Forall_forall in Hpos'. apply list_elem_of_In in Hin.
          apply (Hpos' _ Hin). }
        assert (Hother : forall k, 0 < k -> Cb !! gen_name x k = C !! gen_name x k).
        { intros k Hk. rewrite Hsame.
          - unfold Ca. apply lookup_insert_ne. intros Heq. symmetry in Heq.
            exact (gen_name_not_plain x k x0 Hk Hplain0 Heq).
          - intros k' Hk' Heq. apply range1_In in Hk'.
            apply gen_name_pos_inj in Heq as [Heq _]; [congruence | exact Hk | lia]. }
        split.
        + rewrite Hother by exact Hg. exact Hl.
        + intros k Hk. rewrite Hother by lia. apply Hb. exact Hk. }
    exists C'. split; [|split; [exact Hres' | exact Hfinal]].
    cbn [map concat cleanup_stmts]. rewrite <- !app_assoc.
    cbn [app exec_stmts exec_stmt eval_py]. rewrite Hw. fold Ca.
    rewrite exec_stmts_app, Hdel. exact Hex.
Qed.

Lemma gens_get_not_in d k : ~ In k (map fst d) -> gens_get d k = None.
Proof.
  induction d as [|[k0 g0] d IH]; simpl; intros Hnot; [reflexivity|].
  destruct (value_eqb k k0) eqn:E.
  - apply value_eqb_eq in E. subst k0. tauto.
  - apply IH. tauto.
Qed.

Lemma sim_initial (B : gmap value num) (C : gmap string num) :
  (forall x, C !! x = B !! VStr x) -> sim B [] C.
Proof.
  intros HC. split.
  - intros x _. change (gens_get_default [] (VStr x)) with 0.
    rewrite gen_name_zero by lia. apply HC.
  - intros x g Hg. change (gens_get_default [] (VStr x)) with 0 in Hg. lia.
Qed.

Lemma read_header expr_str :
  no_newline expr_str = true ->
  read_program ["# code for:"; "# " +:+ expr_str] = Some [SComment; SComment].
Proof.
  intros Hnl. cbn [read_program].
  replace (read_stmt "# code for:") with (Some SComment) by reflexivity.
  change ("# " +:+ expr_str) with (String "#" (" " +:+ expr_str)).
  rewrite read_stmt_comment; [reflexivity|].
  apply no_newline_app; [reflexivity | exact Hnl].
Qed.

Lemma read_result_line e :
  canonical e = true ->
  read_program ["_result = " +:+ render e] = Some [SAssign "_result" e].
Proof.
  intros He. cbn [read_program].
  assert (Hr : read_stmt ("_result = " +:+ render e) = Some (SAssign "_result" e)).
  { apply (read_stmt_assign "_result" e); [reflexivity | exact He]. }
  rewrite Hr. reflexivity.
Qed.

(** C1 (as amended).  Let the tree be an expression tree whose variables
    have names that do not begin with an underscore and are no reserved
    words of Python, let the source text have no newline, and let
    [x ** 2] be the square [x * x] in the arithmetic at hand.  If the
    evaluator returns [v] and leaves the store [B'], then [compile]
    succeeds on an empty list, and the statements it produced, run in a
    context equal to the initial store, run to the end, bind [_result] to
    [v], and leave every name that does not begin with an underscore
    bound (or unbound) as it is in [B']. *)
Theorem compiled_code_agrees_with_evaluator t (B B' : gmap value num) v
    expr_str (C : gmap string num) :
  pow2_is_square -> expression t -> plain_names t = true ->
  no_newline expr_str = true ->
  evaluate_ast t B = (Ok v, B') ->
  (forall x, C !! x = B !! VStr x) ->
  exists code C',
    compile [] (Some t) expr_str [] = (Ok ReturnNone, code) /\
    exec_program code C = (Ok tt, C') /\
    C' !! "_result" = Some v /\
    forall x, starts_with_underscore x = false -> C' !! x = B' !! VStr x.
Proof.
  intros Hpow Ht Hplain Hnl Hev HC.
  set (st0 := CState [] ["# code for:"; "# " +:+ expr_str]).
  destruct (compile_ast_simulates t Hpow Ht Hplain B v B' st0 Hev)
    as (e & new & vd & Hc & Hcan & Hset & Hwf & Hku & Hle & stmts & Hread & Hexec).
  { split; [apply NoDup_nil_2 | constructor]. }
  { constructor. }
  assert (Hks : keys_str vd).
  { eapply Forall_impl; [exact Hku|]. intros kv (x & Hk & _). exists x. exact Hk. }
  destruct (sorted vd) as [items|err] eqn:Hsorted.
  2:{ exfalso. unfold sorted in Hsorted.
      destruct (with_keys_total vd Hks) as [l Hl]. rewrite Hl in Hsorted.
      discriminate Hsorted. }
  pose proof (sorted_perm _ _ Hsorted) as Hperm.
  destruct Hwf as [Hnd Hpos].
  assert (Hku' : keys_user items) by (unfold keys_user; rewrite Hperm; exact Hku).
  assert (Hpos' : Forall (fun kv => 0 < snd kv) items) by (rewrite Hperm; exact Hpos).
  assert (Hnd' : NoDup (map fst items)) by (rewrite Hperm; exact Hnd).
  exists ((cs_code st0 ++ new) ++ ["_result = " +:+ render e]
          ++ concat (map cleanup_item items)).
  (* the run of the emitted statements *)
  destruct (Hexec C (sim_initial B C HC)) as (C1 & Hex1 & Hsim1 & _ & Hev1).
  pose proof (sim_result B' vd C1 v Hsim1) as [Hcur Htmp].
  destruct (exec_cleanup B' v items (<["_result" := v]> C1) Hnd' Hku' Hpos')
    as (C' & Hex' & Hres & Hfinal).
  { split; [apply lookup_insert_eq|]. split.
    - intros x Hx Hnot. rewrite <- (Hcur x Hx).
      rewrite gen_name_zero; [reflexivity|]. unfold gens_get_default.
      rewrite gens_get_not_in; [lia|]. intros Hin. apply Hnot.
      apply list_elem_of_In. rewrite Hperm. apply list_elem_of_In. exact Hin.
    - intros x g Hin.
      assert (Hin' : In (VStr x, g) vd).
      { apply list_elem_of_In. rewrite <- Hperm. apply list_elem_of_In. exact Hin. }
      assert (Hget : gens_get_default vd (VStr x) = g).
      { unfold gens_get_default. apply gens_get_In in Hin'; [|exact Hnd].
        rewrite Hin'. reflexivity. }
      assert (Hx : starts_with_underscore x = false).
      { pose proof Hku as Hall. unfold keys_user in Hall.
        rewrite Forall_forall in Hall. apply list_elem_of_In in Hin'.
        destruct (Hall _ Hin') as (x' & [= <-] & Hx'). apply user_name_plain. exact Hx'. }
      split.
      + rewrite <- (Hcur x Hx), Hget. reflexivity.
      + intros k Hk. apply Htmp. lia. }
  exists C'.
  split.
  { unfold compile. change (0 <? length (@nil string))%nat with false. cbv iota.
    change (CState [] ([] ++ ["# code for:"; "# " +:+ expr_str])) with st0.
    rewrite Hc. cbn [cs_code cs_var_dict py_str]. rewrite Hsorted.
    rewrite <- !app_assoc. reflexivity. }
  split; [|split; [exact Hres | exact Hfinal]].
  unfold exec_program.
  rewrite (read_program_app (cs_code st0 ++ new) _
             ([SComment; SComment] ++ stmts)
             ([SAssign "_result" e] ++ concat (map cleanup_stmts items))).
  - rewrite <- app_assoc. cbn [app exec_stmts exec_stmt].
    rewrite exec_stmts_app, Hex1. cbn [app exec_stmts exec_stmt].
    rewrite Hev1. exact Hex'.
  - apply read_program_app; [apply read_header; exact Hnl | exact Hread].
  - apply read_program_app; [apply read_result_line; exact Hcan|].
    apply read_program_cleanup; assumption.
Qed.

End SimulationFacts.

(** ** The doctests of [compiler.py]

    [do_test(s)] of the source is [compile] on an empty list; the tree is
    the one the parser builds for [s]. *)

Example doctest_const :
  compile [] (Some (T_const 1)) "1" [] =
  (Ok ReturnNone, ["# code for:"; "# 1"; "_result = 1"]).
Proof. reflexivity. Qed.

Example doctest_neg :
  compile [] (Some (T_apply "neg" [T_const 1])) "-1" [] =
  (Ok ReturnNone, ["# code for:"; "# -1"; "_result = (-1)"]).
Proof. reflexivity. Qed.

Example doctest_sqr :
  compile [] (Some (T_apply "sqr" [T_const 2])) "sqr(2)" [] =
  (Ok ReturnNone, ["# code for:"; "# sqr(2)"; "_result = (2 ** 2)"]).
Proof. reflexivity. Qed.

Example doctest_division_by_zero :
  compile [] (Some (T_apply "/" [T_const 1; T_const 0])) "1 / 0" [] =
  (Ok ReturnNone, ["# code for:"; "# 1 / 0"; "_result = (1 / 0)"]).
Proof. reflexivity. Qed.

Example doctest_three_generations :
  compile [] (Some tree_three_generations)
          "(x = 1) + (x = x + 2) + (x = x + 42)" [] =
  (Ok ReturnNone,
   ["# code for:"; "# (x = 1) + (x = x + 2) + (x = x + 42)";
    "_x_1 = 1"; "_x_2 = (_x_1 + 2)"; "_x_3 = (_x_2 + 42)";
    "_result = ((_x_1 + _x_2) + _x_3)"; "# Update and cleanup x";
    "x = _x_3"; "del(_x_1)"; "del(_x_2)"; "del(_x_3)"]).
Proof. reflexivity. Qed.

Example doctest_syntax_error :
  compile ["Syntax error at '+'"] (Some pass_tree) "x + - + 1" [] =
  (Ok (ReturnStr ("Parsing generated errors:" +:+ newline
                    +:+ "Syntax error at '+'")), []).
Proof. reflexivity. Qed.

Example doctest_nested_assignments :
  compile [] (Some tree_nested_assignments) "x=1 + (y=2) + (z=x)" [] =
  (Ok ReturnNone,
   ["# code for:"; "# x=1 + (y=2) + (z=x)"; "_y_1 = 2"; "_z_1 = x";
    "_x_1 = ((1 + _y_1) + _z_1)"; "_result = _x_1";
    "# Update and cleanup x"; "x = _x_1"; "del(_x_1)";
    "# Update and cleanup y"; "y = _y_1"; "del(_y_1)";
    "# Update and cleanup z"; "z = _z_1"; "del(_z_1)"]).
Proof. reflexivity. Qed.

Example doctest_underscored :
  compile [] (Some tree_underscored) "_p_ + _g_ + _y_ = 3" [] =
  (Ok ReturnNone,
   ["# code for:"; "# _p_ + _g_ + _y_ = 3"; "__y__1 = 3";
    "_result = ((_p_ + _g_) + __y__1)"; "# Update and cleanup _y_";
    "_y_ = __y__1"; "del(__y__1)"]).
Proof. reflexivity. Qed.

Example doctest_square_quotient :
  compile [] (Some tree_square_quotient) "sqr(100)/10" [] =
  (Ok ReturnNone, ["# code for:"; "# sqr(100)/10"; "_result = ((100 ** 2) / 10)"]).
Proof. reflexivity. Qed.

(** The evaluator on the same trees, over the integers. *)
Example evaluate_three_generations :
  @evaluate_ast int_arith tree_three_generations ∅ =
  (Ok (VInt 49), <[VStr "x" := VInt 45]> ∅).
Proof. vm_compute. reflexivity. Qed.

Example evaluate_sqr :
  @evaluate_ast int_arith (T_apply "sqr" [T_const 2]) ∅ = (Ok (VInt 4), ∅).
Proof. reflexivity. Qed.

(** ** Why the simulation needs its hypotheses *)

(** A variable named like a reserved word evaluates, and its compiled
    code is no Python. *)
Example reserved_word_is_refused :
  @evaluate_ast int_arith (T_set "if" (T_const 1)) ∅ =
    (Ok (VInt 1), <[VStr "if" := VInt 1]> ∅) /\
  compile [] (Some (T_set "if" (T_const 1))) "if = 1" [] =
    (Ok ReturnNone,
     ["# code for:"; "# if = 1"; "_if_1 = 1"; "_result = _if_1";
      "# Update and cleanup if"; "if = _if_1"; "del(_if_1)"]) /\
  @exec_program int_arith
    ["# code for:"; "# if = 1"; "_if_1 = 1"; "_result = _if_1";
     "# Update and cleanup if"; "if = _if_1"; "del(_if_1)"] ∅ =
    (Raise SyntaxError, ∅).
Proof. repeat split; vm_compute; reflexivity. Qed.

(** A newline in the source text ends the comment that quotes it: the
    rest of the text becomes a line of the program. *)
Example newline_ends_the_comment :
  @exec_program int_arith
    (snd (compile [] (Some (T_apply "+" [T_const 1; T_const 2]))
                  ("1 +" +:+ newline +:+ " 2") [])) ∅ =
  (Raise SyntaxError, ∅).
Proof. vm_compute. reflexivity. Qed.

(** ** Worked inputs *)

Lemma expression_call_two : expression tree_call_two.
Proof.
  apply (p_fn_apply "f" [T_const 1; T_const 2]); [reflexivity|].
  apply (p_expr_list_2 [T_const 1] (T_const 2)).
  - apply p_expr_list_1. apply p_expression_number. lia.
  - apply p_expression_number. lia.
Qed.

(** C8 at [(x = 1) + y] with an empty store: the read of [y] raises, and
    the binding of [x] is in the store that is left. *)
Lemma partial_effects_survive_failure_witness :
  @evaluate_ast int_arith tree_set_then_unbound ∅ =
    (Raise (ValueError "Evaluation error, variable 'y' has no value yet"),
     <[VStr "x" := VInt 1]> ∅)
  /\ <[VStr "x" := VInt 1]> ∅ =
       apply_sets (@set_log int_arith tree_set_then_unbound ∅) ∅
  /\ is_Some ((<[VStr "x" := VInt 1]> ∅ : gmap value value) !! VStr "x").
Proof.
  assert (Hev : @evaluate_ast int_arith tree_set_then_unbound ∅ =
    (Raise (ValueError "Evaluation error, variable 'y' has no value yet"),
     <[VStr "x" := VInt 1]> ∅)) by reflexivity.
  destruct (@partial_effects_survive_failure int_arith _ _ _ _ Hev) as [Hst Hin].
  split; [exact Hev|]. split; [exact Hst|].
  apply (Hin (VStr "x") (VInt 1)). left. reflexivity.
Defined.

(** C10 at [f(x = 1)] with an empty store: the error is raised and [x]
    stays unbound. *)
Lemma unknown_operator_raises_before_arguments_witness :
  @evaluate_ast int_arith tree_unknown_call ∅ =
    (Raise (ValueError "Evaluation error, no implementation of operation 'f'"), ∅)
  /\ @set_log int_arith tree_unknown_call ∅ = [].
Proof.
  apply (@unknown_operator_raises_before_arguments int_arith (VStr "f")).
  reflexivity.
Defined.

(** C9 at [x] and generation 3. *)
Lemma temporary_names_are_apart_witness :
  make_gen_name (VStr "x") 3 <> VStr "x3"
  /\ (make_gen_name (VStr "x") 3 = make_gen_name (VStr "x") 3 -> "x" = "x" /\ 3 = 3).
Proof.
  destruct (temporary_names_are_apart "x" 3 ltac:(lia)) as [Huser Htemp].
  split.
  - apply Huser. reflexivity.
  - apply Htemp. lia.
Defined.

(** C3 at [f(1, 2)], whose operator has no function in [op_to_fn]. *)
Lemma compile_never_checks_operators_witness :
  exists out, compile [] (Some tree_call_two) "f(1, 2)" [] = (Ok ReturnNone, [] ++ out).
Proof.
  apply (compile_never_checks_operators "f(1, 2)" []).
  - exact expression_call_two.
  - reflexivity.
Defined.

(** C3 (counterexample).  The tree of [f(1, 2)] holds an operator that has
    no function in [op_to_fn], and [compile] returns [None] for it, with
    the statement [_result = (1 f 2)] emitted. *)
Lemma unknown_operator_compiles_counterexample :
  expression tree_call_two
  /\ @has_unimplemented_operator int_arith tree_call_two = true
  /\ compile [] (Some tree_call_two) "f(1, 2)" [] =
     (Ok ReturnNone, ["# code for:"; "# f(1, 2)"; "_result = (1 f 2)"]).
Proof.
  split; [exact expression_call_two|]. split; reflexivity.
Qed.

Lemma int_arith_pow2 : @pow2_is_square int_arith.
Proof.
  intros [s|a]; simpl; [reflexivity|]. rewrite Z.pow_2_r. reflexivity.
Qed.

Lemma expression_three_generations : expression tree_three_generations.
Proof.
  unfold tree_three_generations, T_apply, T_set, T_get, T_const.
  repeat (first
    [ apply p_expression_binop; [simpl; tauto | |]
    | apply p_expression_assign; [reflexivity|]
    | apply p_expression_number; lia
    | apply p_expression_name; reflexivity ]).
Qed.

(** C5 at [(x = 1) + (x = x + 2) + (x = x + 42)]: [compile] returns
    [None] with the list below, the map ends with [x] at generation 3
    and the cleanup names [_x_3]. *)
Lemma generations_count_up_and_cleanup_uses_the_last_witness :
  exists last st items,
    compile_ast tree_three_generations
      (CState [] ([] ++ ["# code for:";
                         "# " +:+ "(x = 1) + (x = x + 2) + (x = x + 42)"]))
      = (Ok last, st) /\
    Permutation items (cs_var_dict st) /\
    compile [] (Some tree_three_generations)
            "(x = 1) + (x = x + 2) + (x = x + 42)" [] =
      (Ok ReturnNone,
       cs_code st ++ ["_result = " +:+ py_str last]
         ++ concat (map cleanup_item items)) /\
    compile [] (Some tree_three_generations)
            "(x = 1) + (x = x + 2) + (x = x + 42)" [] =
      (Ok ReturnNone,
       ["# code for:"; "# (x = 1) + (x = x + 2) + (x = x + 42)";
        "_x_1 = 1"; "_x_2 = (_x_1 + 2)"; "_x_3 = (_x_2 + 42)";
        "_result = ((_x_1 + _x_2) + _x_3)"; "# Update and cleanup x"; "x = _x_3";
        "del(_x_1)"; "del(_x_2)"; "del(_x_3)"]) /\
    forall v gen, In (v, gen) items ->
      0 < gen /\
      gens_get (cs_var_dict st) v = Some gen /\
      cleanup_item (v, gen) =
        [ "# Update and cleanup " +:+ py_str v;
          py_str v +:+ " = " +:+ py_str (make_gen_name v gen) ]
        ++ map (fun g => "del(" +:+ py_str (make_gen_name v g) +:+ ")")
               (range1 gen).
Proof.
  destruct generations_count_up_and_cleanup_uses_the_last as (_ & _ & _ & Hret).
  destruct (Hret tree_three_generations "(x = 1) + (x = x + 2) + (x = x + 42)" []
              expression_three_generations eq_refl)
    as (last & st & items & Hc & Hperm & Hcompile & Hitems).
  exists last, st, items. split; [exact Hc|]. split; [exact Hperm|].
  split; [exact Hcompile|]. split; [reflexivity | exact Hitems].
Defined.

(** C1 (as amended) at [(x = 1) + (x = x + 2) + (x = x + 42)] with an
    empty store: the compiled statements bind [_result] to 49 and [x] to
    45, as the evaluator does. *)
Lemma compiled_code_agrees_with_evaluator_witness :
  exists code C',
    compile [] (Some tree_three_generations)
            "(x = 1) + (x = x + 2) + (x = x + 42)" [] = (Ok ReturnNone, code) /\
    @exec_program int_arith code ∅ = (Ok tt, C') /\
    C' !! "_result" = Some (VInt 49) /\
    forall x, starts_with_underscore x = false ->
              C' !! x = (<[VStr "x" := VInt 45]> ∅ : gmap value value) !! VStr x.
Proof.
  apply (@compiled_code_agrees_with_evaluator int_arith
           tree_three_generations ∅ (<[VStr "x" := VInt 45]> ∅) (VInt 49)).
  - exact int_arith_pow2.
  - exact expression_three_generations.
  - reflexivity.
  - reflexivity.
  - vm_compute. reflexivity.
  - intros x. rewrite !lookup_empty. reflexivity.
Defined.

(** C1 (counterexample).  The tree of [(x = 1) + _x_1] parses without
    diagnostics and evaluates to 11 in the store that binds [_x_1] to 10,
    leaving [_x_1] bound to 10.  The temporary of the first generation
    of [x] is [_x_1] too: the compiled statements, run in a context equal
    to that store, bind [_result] to 2 and end with [_x_1] deleted. *)
Lemma temporary_clash_counterexample :
  expression tree_temporary_clash /\
  @evaluate_ast int_arith tree_temporary_clash {[VStr "_x_1" := VInt 10]} =
    (Ok (VInt 11), <[VStr "x" := VInt 1]> {[VStr "_x_1" := VInt 10]}) /\
  compile [] (Some tree_temporary_clash) "(x = 1) + _x_1" [] =
    (Ok ReturnNone,
     ["# code for:"; "# (x = 1) + _x_1"; "_x_1 = 1"; "_result = (_x_1 + _x_1)";
      "# Update and cleanup x"; "x = _x_1"; "del(_x_1)"]) /\
  @exec_program int_arith
    ["# code for:"; "# (x = 1) + _x_1"; "_x_1 = 1"; "_result = (_x_1 + _x_1)";
     "# Update and cleanup x"; "x = _x_1"; "del(_x_1)"]
    {["_x_1" := VInt 10]} =
    (Ok tt, <["x" := VInt 1]> {["_result" := VInt 2]}) /\
  (<["x" := VInt 1]> {["_result" := VInt 2]} : gmap string value) !! "_result"
    <> Some (VInt 11) /\
  (<["x" := VInt 1]> {["_result" := VInt 2]} : gmap string value) !! "_x_1"
    <> (<[VStr "x" := VInt 1]> {[VStr "_x_1" := VInt 10]} : gmap value value)
         !! VStr "_x_1".
Proof.
  split.
  { unfold tree_temporary_clash, T_apply, T_set, T_get, T_const.
    apply p_expression_binop; [simpl; tauto | |].
    - apply p_expression_assign; [reflexivity|]. apply p_expression_number. lia.
    - apply p_expression_name. reflexivity. }
  split; [vm_compute; reflexivity|]. split; [vm_compute; reflexivity|].
  split; [vm_compute; reflexivity|]. split; vm_compute; discriminate.
Qed.

(** The rollback at the tree of the empty input, with a statement already
    in the list. *)
Lemma compile_rolls_back_on_diagnostic_witness :
  compile [] (Some pass_tree) "" ["x = 1"] =
    (Ok (ReturnExc (ValueError (not_implemented (VStr "pass")))), ["x = 1"])
  /\ ["x = 1"] = ["x = 1"].
Proof.
  split; [reflexivity|].
  apply (compile_rolls_back_on_diagnostic [] (Some pass_tree) "" ["x = 1"]
           (ReturnExc (ValueError (not_implemented (VStr "pass"))))).
  - reflexivity.
  - discriminate.
Defined.

(** The order of the assignments at [(x = (y = 2)) + (z = 3)]: the
    statement of [y], which the right-hand side of [x] emits, then the
    statement of [x], then the statement of [z]. *)
Lemma assignments_are_emitted_left_to_right_witness :
  exists rhs_a st_a before_a ga rhs_b st_b before_b gb,
    compile_ast (T_set "y" (T_const 2)) (CState [] []) = (Ok (VStr rhs_a), st_a) /\
    cs_code st_a = [] ++ before_a /\
    ga = gens_get_default (cs_var_dict st_a) (VStr "x") + 1 /\
    compile_ast (T_const 3)
      (CState (gens_set (cs_var_dict st_a) (VStr "x") ga)
         ([] ++ before_a
            ++ [("_" +:+ "x" +:+ "_" +:+ str_of_Z ga) +:+ " = " +:+ rhs_a]))
      = (Ok (VStr rhs_b), st_b) /\
    cs_code st_b =
      [] ++ before_a
        ++ [("_" +:+ "x" +:+ "_" +:+ str_of_Z ga) +:+ " = " +:+ rhs_a]
        ++ before_b /\
    gb = gens_get_default (cs_var_dict st_b) (VStr "z") + 1 /\
    CState [(VStr "y", 1); (VStr "x", 1); (VStr "z", 1)]
           ["_y_1 = 2"; "_x_1 = _y_1"; "_z_1 = 3"]
      = CState (gens_set (cs_var_dict st_b) (VStr "z") gb)
          ([] ++ before_a
             ++ [("_" +:+ "x" +:+ "_" +:+ str_of_Z ga) +:+ " = " +:+ rhs_a]
             ++ before_b
             ++ [("_" +:+ "z" +:+ "_" +:+ str_of_Z gb) +:+ " = " +:+ rhs_b])
    /\ VStr "(_x_1 + _z_1)" =
       VStr ("(" +:+ ("_" +:+ "x" +:+ "_" +:+ str_of_Z ga) +:+ " " +:+ "+"
               +:+ " " +:+ ("_" +:+ "z" +:+ "_" +:+ str_of_Z gb) +:+ ")").
Proof.
  apply (assignments_are_emitted_left_to_right "+"
           "x" (T_set "y" (T_const 2)) "z" (T_const 3)
           (CState [] [])
           (VStr "(_x_1 + _z_1)")
           (CState [(VStr "y", 1); (VStr "x", 1); (VStr "z", 1)]
                   ["_y_1 = 2"; "_x_1 = _y_1"; "_z_1 = 3"])).
  - discriminate.
  - discriminate.
  - reflexivity.
Defined.

(** * Further properties *)

(** ** The statements before the call *)

Lemma ignores_code_ret {A} (a : A) : ignores_code (ret a).
Proof. intros vd code. unfold ret. simpl. rewrite app_nil_r. reflexivity. Qed.

Lemma ignores_code_raise {A} e : ignores_code (@raise A e).
Proof. intros vd code. unfold raise. simpl. rewrite app_nil_r. reflexivity. Qed.

Lemma ignores_code_lift {A} (r : result A) : ignores_code (lift r).
Proof. intros vd code. unfold lift. simpl. rewrite app_nil_r. reflexivity. Qed.

Lemma ignores_code_get name : ignores_code (var_dict_get name).
Proof. intros vd code. unfold var_dict_get. simpl. rewrite app_nil_r. reflexivity. Qed.

Lemma ignores_code_bump name : ignores_code (var_dict_bump name).
Proof. intros vd code. unfold var_dict_bump. simpl. rewrite app_nil_r. reflexivity. Qed.

Lemma ignores_code_append line : ignores_code (code_append line).
Proof. intros vd code. reflexivity. Qed.

Lemma ignores_code_bind {A B} (c : comp A) (k : A -> comp B) :
  ignores_code c -> (forall a, ignores_code (k a)) -> ignores_code (bind c k).
Proof.
  intros Hc Hk vd code. unfold bind. rewrite (Hc vd code).
  destruct (c (CState vd [])) as [[a|e] [vd1 new1]]; simpl.
  - rewrite (Hk a vd1 (code ++ new1)), (Hk a vd1 new1). simpl.
    rewrite app_assoc. reflexivity.
  - reflexivity.
Qed.

(** [compile_ast] never reads the list of statements. *)
Lemma compile_ast_ignores_code t : ignores_code (compile_ast t).
Proof.
  induction t as [ntype children IH] using ValueTree_children_ind.
  cbn [compile_ast].
  destruct (value_eqb ntype (VStr "const")).
  { destruct children; [apply ignores_code_raise | apply ignores_code_ret]. }
  destruct (value_eqb ntype (VStr "get")).
  { destruct children; [apply ignores_code_raise|].
    apply ignores_code_bind; [apply ignores_code_get | intros; apply ignores_code_ret]. }
  destruct (value_eqb ntype (VStr "set")).
  { destruct children as [|c0 [|c1 rest]]; try apply ignores_code_raise.
    inversion IH as [|? ? _ IH1]; subst. inversion IH1 as [|? ? Hc1 _]; subst.
    apply ignores_code_bind; [exact Hc1 | intros const_num].
    apply ignores_code_bind; [apply ignores_code_bump | intros g].
    apply ignores_code_bind; [apply ignores_code_lift | intros s].
    apply ignores_code_bind; [apply ignores_code_lift | intros line].
    apply ignores_code_bind; [apply ignores_code_append | intros _].
    apply ignores_code_ret. }
  destruct (value_eqb ntype (VStr "apply")); [|apply ignores_code_raise].
  destruct children as [|c0 rest]; [apply ignores_code_raise|].
  inversion IH as [|? ? _ IHrest]; subst.
  destruct (value_eqb (get_value c0) (VStr "neg")).
  { destruct rest as [|c1 rest]; [apply ignores_code_raise|].
    inversion IHrest as [|? ? Hc1 _]; subst.
    apply ignores_code_bind; [exact Hc1 | intros t].
    apply ignores_code_bind; [apply ignores_code_lift | intros; apply ignores_code_ret]. }
  destruct (value_eqb (get_value c0) (VStr "sqr")).
  { destruct rest as [|c1 rest]; [apply ignores_code_raise|].
    inversion IHrest as [|? ? Hc1 _]; subst.
    apply ignores_code_bind; [exact Hc1 | intros t].
    apply ignores_code_bind; [apply ignores_code_lift | intros; apply ignores_code_ret]. }
  destruct rest as [|c1 rest]; [apply ignores_code_raise|].
  inversion IHrest as [|? ? Hc1 IHrest']; subst.
  apply ignores_code_bind; [exact Hc1 | intros d1].
  destruct rest as [|c2 rest]; [apply ignores_code_raise|].
  inversion IHrest' as [|? ? Hc2 _]; subst.
  apply ignores_code_bind; [exact Hc2 | intros d2].
  repeat (apply ignores_code_bind; [apply ignores_code_lift | intros ?]).
  apply ignores_code_ret.
Qed.

(** [compile] on a list that holds statements already: the outcome is
    that on the empty list, after the statements that were there. *)
Lemma compile_appends_to_any_list errors ast expr_str code :
  compile errors ast expr_str code =
  (fst (compile errors ast expr_str []),
   code ++ snd (compile errors ast expr_str [])).
Proof.
  unfold compile. destruct (0 <? length errors)%nat.
  { simpl. rewrite app_nil_r. reflexivity. }
  destruct ast as [ast|]; [|simpl; rewrite app_nil_r; reflexivity].
  rewrite (compile_ast_ignores_code ast [] (code ++ _)).
  rewrite (compile_ast_ignores_code ast [] ([] ++ _)).
  destruct (compile_ast ast (CState [] [])) as [[last|e] [vd new]]; cbn [fst snd cs_code cs_var_dict].
  - destruct (sorted vd) as [items|e]; cbn [fst snd]; rewrite <- ?app_assoc; reflexivity.
  - destruct e; cbn [fst snd]; rewrite <- ?app_assoc; try reflexivity.
    cbn [app length].
    rewrite take_app_length.
    replace (length code <? length (code ++ _))%nat with true
      by (symmetry; apply Nat.ltb_lt; rewrite length_app; simpl; lia).
    simpl. rewrite app_nil_r. reflexivity.
Qed.

(** Neither [compile_ast] nor [compile] looks at the statements already
    in the list: what is returned or raised, and what is appended, are
    what they are on the empty list.  The lines [compile] appends to a
    list in use are those it appends to a fresh one. *)
Theorem compile_ignores_the_lines_before :
  (forall t, ignores_code (compile_ast t)) /\
  (forall errors ast expr_str code,
     compile errors ast expr_str code =
     (fst (compile errors ast expr_str []),
      code ++ snd (compile errors ast expr_str []))).
Proof.
  split; [exact compile_ast_ignores_code | exact compile_appends_to_any_list].
Qed.

(** ** Trees without assignments, and the variables a tree assigns *)

Section EvalStore.
Context `{PyArith}.

Lemma apply_sets_other l : forall (B : gmap value num) k,
  ~ In k (map fst l) -> apply_sets l B !! k = B !! k.
Proof.
  induction l as [|[k0 v0] l IH]; intros B k Hnot; simpl; [reflexivity|].
  simpl in Hnot. rewrite IH by tauto.
  apply lookup_insert_ne. tauto.
Qed.

(** The evaluator logs assignments to names the tree assigns only. *)
Lemma set_log_assigned t : forall (B : gmap value num) k,
  In k (map fst (set_log t B)) -> In k (assigned t).
Proof.
  induction t as [ntype children IH] using ValueTree_children_ind.
  intros B k. cbn [set_log assigned].
  destruct (value_eqb ntype (VStr "const")) eqn:Ec; [intros []|].
  destruct (value_eqb ntype (VStr "apply")) eqn:Ea.
  { assert (Hset : value_eqb ntype (VStr "set") = false).
    { apply value_eqb_eq in Ea. subst ntype. reflexivity. }
    rewrite Hset. cbn [app].
    destruct children as [|c0 rest]; [intros []|].
    destruct (op_to_fn_get (get_value c0)); [|intros []].
    inversion IH as [|? ? _ IHrest]; subst. clear IH.
    intros Hin. cbn [flat_map]. apply in_or_app. right.
    revert B Hin. induction rest as [|c cs IHcs]; intros B Hin; [destruct Hin|].
    inversion IHrest as [|? ? Hc Hcs]; subst.
    cbn [comprehension_log] in Hin. rewrite map_app in Hin.
    cbn [flat_map]. apply in_or_app. apply in_app_or in Hin as [Hin|Hin].
    - left. exact (Hc B k Hin).
    - right. destruct (evaluate_ast c B) as [[v|e] B1]; [|destruct Hin].
      exact (IHcs Hcs B1 Hin). }
  destruct (value_eqb ntype (VStr "set")) eqn:Es; [|intros []].
  destruct children as [|c0 [|c1 rest]]; [intros []|intros []|].
  inversion IH as [|? ? _ IH1]; subst. inversion IH1 as [|? ? Hc1 _]; subst.
  rewrite map_app. intros Hin. apply in_app_or in Hin as [Hin|Hin].
  - apply in_or_app. right. cbn [flat_map]. apply in_or_app. right.
    apply in_or_app. left. exact (Hc1 B k Hin).
  - destruct (evaluate_ast c1 B) as [[v|e] B1]; [|destruct Hin].
    destruct Hin as [<-|[]]. left. reflexivity.
Qed.

(** An evaluation, whether it returns or raises, leaves every variable
    that no [set] node of the tree names bound as it was, and unbinds
    none. *)
Theorem evaluation_changes_only_assigned_variables t (B : gmap value num) :
  (forall k, ~ In k (assigned t) -> snd (evaluate_ast t B) !! k = B !! k) /\
  (forall k, is_Some (B !! k) -> is_Some (snd (evaluate_ast t B) !! k)).
Proof.
  rewrite evaluate_ast_store. split.
  - intros k Hnot. apply apply_sets_other. intros Hin.
    apply Hnot. exact (set_log_assigned t B k Hin).
  - intros k Hk. apply apply_sets_bound. left. exact Hk.
Qed.

End EvalStore.


(** On a tree without assignments [compile_ast] leaves the generation
    map and the list of statements as they were, whatever it returns or
    raises. *)
Lemma compile_ast_assignment_free t :
  assignment_free t = true -> forall st, snd (compile_ast t st) = st.
Proof.
  induction t as [ntype children IH] using ValueTree_children_ind.
  cbn [assignment_free]. intros Hfree st.
  apply andb_prop in Hfree as [Hset Hch]. apply negb_true_iff in Hset.
  assert (Hall : Forall (fun c => forall st, snd (compile_ast c st) = st) children).
  { rewrite Forall_forall in IH |- *. intros c Hc. apply IH; [exact Hc|].
    rewrite forallb_forall in Hch. apply Hch. apply list_elem_of_In. exact Hc. }
  clear IH Hch.
  assert (Hbind : forall c (k : value -> comp value) st0,
            (forall st, snd (compile_ast c st) = st) ->
            (forall a st, snd (k a st) = st) ->
            snd (bind (compile_ast c) k st0) = st0).
  { intros c k st0 Hc Hk. unfold bind. specialize (Hc st0).
    destruct (compile_ast c st0) as [[a|e] st1]; simpl in Hc; subst st1;
      [apply Hk | reflexivity]. }
  cbn [compile_ast].
  destruct (value_eqb ntype (VStr "const")).
  { destruct children; reflexivity. }
  destruct (value_eqb ntype (VStr "get")).
  { destruct children; reflexivity. }
  destruct (value_eqb ntype (VStr "set")).
  { destruct children as [|c0 [|c1 rest]]; [reflexivity|reflexivity|].
    discriminate Hset. }
  destruct (value_eqb ntype (VStr "apply")); [|reflexivity].
  destruct children as [|c0 rest]; [reflexivity|].
  inversion Hall as [|? ? _ Hrest]; subst.
  destruct (value_eqb (get_value c0) (VStr "neg")).
  { destruct rest as [|c1 rest]; [reflexivity|].
    inversion Hrest as [|? ? Hc1 _]; subst.
    apply Hbind; [exact Hc1|]. intros a st1. unfold bind, lift, ret.
    destruct (str_plus "(-" a); reflexivity. }
  destruct (value_eqb (get_value c0) (VStr "sqr")).
  { destruct rest as [|c1 rest]; [reflexivity|].
    inversion Hrest as [|? ? Hc1 _]; subst.
    apply Hbind; [exact Hc1|]. intros a st1. unfold bind, lift, ret.
    destruct (str_plus "(" a); reflexivity. }
  destruct rest as [|c1 rest]; [reflexivity|].
  inversion Hrest as [|? ? Hc1 Hrest']; subst.
  apply Hbind; [exact Hc1|]. intros d1 st1.
  destruct rest as [|c2 rest]; [reflexivity|].
  inversion Hrest' as [|? ? Hc2 _]; subst.
  apply Hbind; [exact Hc2|]. intros d2 st2. unfold bind, lift, ret.
  destruct (str_plus "(" d1) as [s1|]; [|reflexivity]. simpl.
  destruct (str_plus (s1 +:+ " ") (get_value c0)) as [s2|]; [|reflexivity]. simpl.
  destruct (str_plus (s2 +:+ " ") d2); reflexivity.
Qed.

(** A tree without assignments needs no statement of its own: when
    [compile_ast] returns the text [r] for it, [compile] appends the two
    header lines and the line that binds [_result] to [r], and no
    cleanup. *)
Theorem assignment_free_compiles_to_one_line t :
  assignment_free t = true ->
  (forall st, snd (compile_ast t st) = st) /\
  (forall expr_str code r st,
     compile_ast t (CState [] []) = (Ok r, st) ->
     compile [] (Some t) expr_str code =
     (Ok ReturnNone,
      code ++ ["# code for:"; "# " +:+ expr_str; "_result = " +:+ py_str r])).
Proof.
  intros Hfree. split; [apply compile_ast_assignment_free; exact Hfree|].
  intros expr_str code r st Hc.
  pose proof (compile_ast_assignment_free t Hfree (CState [] [])) as Hst.
  rewrite Hc in Hst. simpl in Hst. subst st.
  unfold compile. change (0 <? length (@nil string))%nat with false. cbv iota.
  rewrite (compile_ast_ignores_code t [] (code ++ _)), Hc.
  cbn [fst snd cs_var_dict cs_code]. rewrite app_nil_r.
  change (sorted []) with (@Ok gens []). cbn [map concat].
  rewrite app_nil_r, <- app_assoc. reflexivity.
Qed.

(** The generations [compile_ast] moves are those of the names the tree
    assigns. *)
Lemma compile_ast_assigned t : forall st k,
  ~ In k (assigned t) ->
  gens_get (cs_var_dict (snd (compile_ast t st))) k = gens_get (cs_var_dict st) k.
Proof.
  induction t as [ntype children IH] using ValueTree_children_ind.
  intros st k Hnot.
  assert (Hch : Forall (fun c => forall st,
            gens_get (cs_var_dict (snd (compile_ast c st))) k
            = gens_get (cs_var_dict st) k) children).
  { rewrite Forall_forall in IH |- *. intros c Hc st0. apply IH; [exact Hc|].
    intros Hin. apply Hnot. cbn [assigned]. apply in_or_app. right.
    apply in_flat_map. exists c. split; [apply list_elem_of_In; exact Hc | exact Hin]. }
  assert (Hbind : forall c (kont : value -> comp value) st0,
            (forall st, gens_get (cs_var_dict (snd (compile_ast c st))) k
                        = gens_get (cs_var_dict st) k) ->
            (forall a st, gens_get (cs_var_dict (snd (kont a st))) k
                          = gens_get (cs_var_dict st) k) ->
            gens_get (cs_var_dict (snd (bind (compile_ast c) kont st0))) k
            = gens_get (cs_var_dict st0) k).
  { intros c kont st0 Hc Hk. unfold bind. specialize (Hc st0).
    destruct (compile_ast c st0) as [[a|e] st1]; simpl in Hc |- *;
      [rewrite Hk; exact Hc | exact Hc]. }
  cbn [compile_ast].
  destruct (value_eqb ntype (VStr "const")).
  { destruct children; reflexivity. }
  destruct (value_eqb ntype (VStr "get")).
  { destruct children; reflexivity. }
  destruct (value_eqb ntype (VStr "set")) eqn:Es.
  { destruct children as [|c0 [|c1 rest]]; [reflexivity|reflexivity|].
    inversion Hch as [|? ? _ Hch1]; subst. inversion Hch1 as [|? ? Hc1 _]; subst.
    apply Hbind; [exact Hc1|]. intros a st1.
    assert (Hne : get_value c0 <> k).
    { intros <-. apply Hnot. cbn [assigned]. rewrite Es. left. reflexivity. }
    unfold bind, var_dict_bump, lift, code_append, ret. cbn [fst snd cs_var_dict cs_code].
    destruct (str_plus "_" (get_value c0)) as [s|];
      [|cbn [snd cs_var_dict]; apply gens_get_set_ne; exact Hne].
    destruct (str_plus _ a) as [line|]; cbn [snd cs_var_dict];
      apply gens_get_set_ne; exact Hne. }
  destruct (value_eqb ntype (VStr "apply")); [|reflexivity].
  destruct children as [|c0 rest]; [reflexivity|].
  inversion Hch as [|? ? _ Hrest]; subst.
  destruct (value_eqb (get_value c0) (VStr "neg")).
  { destruct rest as [|c1 rest]; [reflexivity|].
    inversion Hrest as [|? ? Hc1 _]; subst.
    apply Hbind; [exact Hc1|]. intros a st1. unfold bind, lift, ret.
    destruct (str_plus "(-" a); reflexivity. }
  destruct (value_eqb (get_value c0) (VStr "sqr")).
  { destruct rest as [|c1 rest]; [reflexivity|].
    inversion Hrest as [|? ? Hc1 _]; subst.
    apply Hbind; [exact Hc1|]. intros a st1. unfold bind, lift, ret.
    destruct (str_plus "(" a); reflexivity. }
  destruct rest as [|c1 rest]; [reflexivity|].
  inversion Hrest as [|? ? Hc1 Hrest']; subst.
  apply Hbind; [exact Hc1|]. intros d1 st1.
  destruct rest as [|c2 rest]; [reflexivity|].
  inversion Hrest' as [|? ? Hc2 _]; subst.
  apply Hbind; [exact Hc2|]. intros d2 st2. unfold bind, lift, ret.
  destruct (str_plus "(" d1) as [s1|]; [|reflexivity]. simpl.
  destruct (str_plus (s1 +:+ " ") (get_value c0)) as [s2|]; [|reflexivity]. simpl.
  destruct (str_plus (s2 +:+ " ") d2); reflexivity.
Qed.

(** [compile_ast] moves the generations of the variables the tree
    assigns and of no other; started on the empty map, as [compile]
    starts it, it ends with a map whose keys are all assigned in the
    tree, so there is a cleanup for such variables only. *)
Theorem generations_move_only_for_assigned_variables t st :
  (forall k, ~ In k (assigned t) ->
     gens_get (cs_var_dict (snd (compile_ast t st))) k
     = gens_get (cs_var_dict st) k) /\
  (forall k g code,
     In (k, g) (cs_var_dict (snd (compile_ast t (CState [] code)))) ->
     In k (assigned t)).
Proof.
  split; [intros k; apply compile_ast_assigned|].
  intros k g code Hin.
  destruct (in_dec value_eq_dec k (assigned t)) as [Hyes|Hnot]; [exact Hyes|].
  exfalso. pose proof (compile_ast_assigned t (CState [] code) k Hnot) as Hget.
  cbn [cs_var_dict gens_get] in Hget.
  apply gens_get_None_not_in in Hget. apply Hget.
  apply in_map_iff. exists (k, g). split; [reflexivity | exact Hin].
Qed.

(** ** How an evaluation fails *)

Section EvalErrors.
Context `{PyArith}.

(** An operator of [op_to_fn] applied to a number of arguments other
    than the one its function takes never returns a value: the
    arguments are all evaluated first, left to right, their assignments
    stay, and then the call of the function raises [TypeError]. *)
Theorem wrong_number_of_arguments_raises_TypeError op c0s args (B : gmap value num) :
  (In op ["neg"; "sqr"] /\ length args <> 1%nat) \/
  (In op ["+"; "-"; "*"; "/"] /\ length args <> 2%nat) ->
  evaluate_ast (Node (VStr "apply") (Node (VStr op) c0s :: args)) B =
  match comprehension evaluate_ast args B with
  | (Ok _, B') => (Raise TypeError, B')
  | (Raise e, B') => (Raise e, B')
  end.
Proof.
  intros Hop. rewrite evaluate_ast_apply.
  destruct (comprehension evaluate_ast args B) as [[vs|e] B'] eqn:Hcomp.
  2:{ destruct Hop as [[Hin _]|[Hin _]]; simpl in Hin;
        repeat (destruct Hin as [<-|Hin]; [reflexivity|]); destruct Hin. }
  apply comprehension_length in Hcomp.
  destruct Hop as [[Hin Hlen]|[Hin Hlen]]; simpl in Hin;
    repeat (destruct Hin as [<-|Hin];
            [destruct vs as [|v1 [|v2 [|v3 vs]]]; simpl in Hcomp;
             try reflexivity; congruence|]);
    destruct Hin.
Qed.

Lemma comprehension_raises (P : exn -> Prop) args :
  Forall (fun c => forall (B : gmap value num) e B',
            evaluate_ast c B = (Raise e, B') -> P e) args ->
  forall B e B', comprehension evaluate_ast args B = (Raise e, B') -> P e.
Proof.
  induction 1 as [|c cs Hc _ IH]; intros B e B'; simpl; [discriminate|].
  destruct (evaluate_ast c B) as [[v|e1] B1] eqn:Hev.
  - destruct (comprehension evaluate_ast cs B1) as [[vs|e2] B2] eqn:Hcs; [discriminate|].
    intros [= <- <-]. exact (IH _ _ _ Hcs).
  - intros [= <- <-]. exact (Hc _ _ _ Hev).
Qed.

Lemma expression_failures t :
  expression t ->
  forall (B : gmap value num) e B',
    evaluate_ast t B = (Raise e, B') ->
    (exists msg, e = ValueError msg) \/ e = TypeError \/ arith_raises e.
Proof.
  intros Ht. induction Ht as
    [name e0 Hn He IHe | op e1 e2 Hop He1 IH1 He2 IH2 | e0 He IHe | name Hn
    | name args Hn Hne Hargs IHargs | n Hn | name Hn] using expression_args_ind;
    intros B e B' Hev.
  - rewrite evaluate_ast_set in Hev.
    destruct (evaluate_ast e0 B) as [[v|err] B1] eqn:E; [discriminate|].
    injection Hev as <- <-. exact (IHe _ _ _ E).
  - rewrite evaluate_ast_apply in Hev.
    destruct (binary_operator_agrees op Hop) as (f & Hfn & Hbin & _).
    rewrite Hfn in Hev. cbn [comprehension] in Hev.
    destruct (evaluate_ast e1 B) as [[v1|err] B1] eqn:E1.
    2:{ injection Hev as <- <-. exact (IH1 _ _ _ E1). }
    destruct (evaluate_ast e2 B1) as [[v2|err] B2] eqn:E2.
    2:{ injection Hev as <- <-. exact (IH2 _ _ _ E2). }
    cbn [lambda2] in Hev. injection Hev as Hf _.
    right. right. subst f. unfold arith_raises. simpl in Hop.
    destruct Hop as [<-|[<-|[<-|[<-|[]]]]]; cbn in Hf; eauto 10.
  - rewrite evaluate_ast_apply in Hev.
    change (op_to_fn_get (VStr "neg")) with (Some (lambda1 py_neg)) in Hev.
    cbn [comprehension] in Hev.
    destruct (evaluate_ast e0 B) as [[v1|err] B1] eqn:E1.
    2:{ injection Hev as <- <-. exact (IHe _ _ _ E1). }
    cbn [lambda1] in Hev. injection Hev as Hf _.
    right. right. left. eauto.
  - rewrite evaluate_ast_apply in Hev.
    destruct (op_to_fn_get (VStr name)) as [fn|] eqn:Hfn.
    + destruct (named_operator_cases name fn Hn Hfn) as [[_ ->]|[_ ->]];
        injection Hev as <- _; right; left; reflexivity.
    + injection Hev as <- _. left. eauto.
  - rewrite evaluate_ast_apply in Hev.
    destruct (op_to_fn_get (VStr name)) as [fn|] eqn:Hfn.
    2:{ injection Hev as <- _. left. eauto. }
    destruct (comprehension evaluate_ast args B) as [[vs|err] B1] eqn:Hcomp.
    2:{ injection Hev as <- <-.
        exact (comprehension_raises _ args IHargs _ _ _ Hcomp). }
    injection Hev as Hf _.
    destruct (named_operator_cases name fn Hn Hfn) as [[_ ->]|[_ ->]];
      destruct vs as [|v1 [|v2 vs]]; cbn [lambda1] in Hf;
      try (injection Hf as <-; right; left; reflexivity);
      right; right; unfold arith_raises; eauto 10.
  - discriminate Hev.
  - rewrite evaluate_ast_get in Hev.
    destruct (B !! VStr name); [discriminate|].
    injection Hev as <- _. left. eauto.
Qed.

(** On a tree the grammar builds, [evaluate_ast] fails in three ways
    only: with a [ValueError] of its own (a variable without a value, an
    operator without a function, the tree of the empty input), with the
    [TypeError] of a call with the wrong number of arguments, or with
    an exception of the arithmetic.  No index into [children] is ever
    out of range. *)
Theorem evaluation_failures_are_classified t (B : gmap value num) e B' :
  statement t -> evaluate_ast t B = (Raise e, B') ->
  (exists msg, e = ValueError msg) \/ e = TypeError \/ arith_raises e.
Proof.
  intros [t0 Ht|] Hev.
  - exact (expression_failures t0 Ht B e B' Hev).
  - injection Hev as <- _. left. eauto.
Qed.

End EvalErrors.

(** ** The outcomes of [compile] *)

(** On an expression tree [compile_ast] returns a [str] or raises
    [IndexError]. *)
Lemma compile_ast_expression_outcome t :
  expression t ->
  forall st, keys_str (cs_var_dict st) ->
    (exists s st', compile_ast t st = (Ok (VStr s), st') /\
                   keys_str (cs_var_dict st')) \/
    (exists st', compile_ast t st = (Raise IndexError, st')).
Proof.
  intros Ht. induction Ht as
    [name e Hn He IHe | op e1 e2 Hop He1 IH1 He2 IH2 | e He IHe | name Hn
    | name args Hn Hne Hargs IHargs | n Hn | name Hn] using expression_args_ind;
    intros st Hst.
  - rewrite compile_ast_set.
    destruct (IHe st Hst) as [(s1 & st1 & Hc1 & Hk1)|[st1 Hc1]].
    + left. rewrite (bind_Ok _ _ _ _ _ Hc1).
      eexists _, _. split; [reflexivity|]. simpl. apply keys_str_set. exact Hk1.
    + right. rewrite (bind_Raise _ _ _ _ _ Hc1). eauto.
  - destruct (in_operators_not_unary op Hop) as [Hneg Hsqr].
    rewrite (compile_ast_binary _ _ _ _ _ Hneg Hsqr).
    destruct (IH1 st Hst) as [(s1 & st1 & Hc1 & Hk1)|[st1 Hc1]].
    2:{ right. rewrite (bind_Raise _ _ _ _ _ Hc1). eauto. }
    rewrite (bind_Ok _ _ _ _ _ Hc1).
    destruct (IH2 st1 Hk1) as [(s2 & st2 & Hc2 & Hk2)|[st2 Hc2]].
    2:{ right. rewrite (bind_Raise _ _ _ _ _ Hc2). eauto. }
    rewrite (bind_Ok _ _ _ _ _ Hc2).
    left. eexists _, _. split; [reflexivity | exact Hk2].
  - rewrite compile_ast_neg.
    destruct (IHe st Hst) as [(s1 & st1 & Hc1 & Hk1)|[st1 Hc1]].
    + left. rewrite (bind_Ok _ _ _ _ _ Hc1).
      eexists _, _. split; [reflexivity | exact Hk1].
    + right. rewrite (bind_Raise _ _ _ _ _ Hc1). eauto.
  - right. exists st. cbn [compile_ast get_value].
    change (value_eqb (VStr "apply") (VStr "const")) with false.
    change (value_eqb (VStr "apply") (VStr "get")) with false.
    change (value_eqb (VStr "apply") (VStr "set")) with false.
    change (value_eqb (VStr "apply") (VStr "apply")) with true. cbv iota.
    destruct (value_eqb (VStr name) (VStr "neg")); [reflexivity|].
    destruct (value_eqb (VStr name) (VStr "sqr")); reflexivity.
  - destruct args as [|c1 args]; [congruence|].
    inversion IHargs as [|? ? IH1 IHrest]; subst.
    destruct (decide (VStr name = VStr "neg")) as [Heq|Hneg].
    { rewrite Heq, compile_ast_neg.
      destruct (IH1 st Hst) as [(s1 & st1 & Hc1 & Hk1)|[st1 Hc1]].
      + left. rewrite (bind_Ok _ _ _ _ _ Hc1).
        eexists _, _. split; [reflexivity | exact Hk1].
      + right. rewrite (bind_Raise _ _ _ _ _ Hc1). eauto. }
    destruct (decide (VStr name = VStr "sqr")) as [Heq|Hsqr].
    { rewrite Heq, compile_ast_sqr.
      destruct (IH1 st Hst) as [(s1 & st1 & Hc1 & Hk1)|[st1 Hc1]].
      + left. rewrite (bind_Ok _ _ _ _ _ Hc1).
        eexists _, _. split; [reflexivity | exact Hk1].
      + right. rewrite (bind_Raise _ _ _ _ _ Hc1). eauto. }
    destruct args as [|c2 args].
    { (* one argument: children[2] is out of range *)
      cbn [compile_ast get_value].
      change (value_eqb (VStr "apply") (VStr "const")) with false.
      change (value_eqb (VStr "apply") (VStr "get")) with false.
      change (value_eqb (VStr "apply") (VStr "set")) with false.
      change (value_eqb (VStr "apply") (VStr "apply")) with true. cbv iota.
      rewrite (value_eqb_neq _ _ Hneg), (value_eqb_neq _ _ Hsqr).
      right. unfold bind.
      destruct (IH1 st Hst) as [(s1 & st1 & Hc1 & Hk1)|[st1 Hc1]];
        rewrite Hc1; eauto. }
    inversion IHrest as [|? ? IH2 _]; subst.
    rewrite (compile_ast_binary _ _ _ _ _ Hneg Hsqr).
    destruct (IH1 st Hst) as [(s1 & st1 & Hc1 & Hk1)|[st1 Hc1]].
    2:{ right. rewrite (bind_Raise _ _ _ _ _ Hc1). eauto. }
    rewrite (bind_Ok _ _ _ _ _ Hc1).
    destruct (IH2 st1 Hk1) as [(s2 & st2 & Hc2 & Hk2)|[st2 Hc2]].
    2:{ right. rewrite (bind_Raise _ _ _ _ _ Hc2). eauto. }
    rewrite (bind_Ok _ _ _ _ _ Hc2).
    left. eexists _, _. split; [reflexivity | exact Hk2].
  - left. rewrite compile_ast_const. eexists _, _. split; [reflexivity | exact Hst].
  - left. rewrite compile_ast_get. unfold bind, var_dict_get, ret, make_gen_name.
    destruct (0 <? gens_get_default (cs_var_dict st) (VStr name));
      eexists _, _; (split; [reflexivity | exact Hst]).
Qed.

(** For a tree the grammar builds, [compile] ends in one of three ways:
    it returns [None] with statements appended; it raises [IndexError]
    and leaves at least the two header lines behind; or, for the tree of
    the empty input only, it returns the [ValueError] it caught, with
    the list restored. *)
Theorem compile_of_a_parsed_tree_has_three_outcomes t expr_str code :
  statement t ->
  (exists out, compile [] (Some t) expr_str code = (Ok ReturnNone, code ++ out))
  \/ (exists out, compile [] (Some t) expr_str code =
        (Raise IndexError, code ++ ["# code for:"; "# " +:+ expr_str] ++ out))
  \/ (t = pass_tree /\
      compile [] (Some t) expr_str code =
        (Ok (ReturnExc (ValueError (not_implemented (VStr "pass")))), code)).
Proof.
  intros [t0 Ht|].
  2:{ right. right. split; [reflexivity | apply compile_pass_tree]. }
  unfold compile. change (0 <? length (@nil string))%nat with false. cbv iota.
  set (st0 := CState [] _).
  destruct (compile_ast_appends t0 st0) as [new Hnew].
  destruct (compile_ast_expression_outcome t0 Ht st0) as [(s & st & Hc & Hk)|[st Hc]];
    [constructor| |]; rewrite Hc in Hnew |- *; simpl in Hnew.
  - left. unfold sorted. destruct (with_keys_total _ Hk) as [l ->].
    eexists. rewrite Hnew. rewrite <- !app_assoc. reflexivity.
  - right. left. exists new. rewrite Hnew, <- app_assoc. reflexivity.
Qed.

(** ** A read after an assignment *)

(** A [get] compiled right after a [set] of the same variable returns
    the name that the [set] returned: the text [_x_n] built in the [set]
    branch is the name [make_gen_name] gives for the new generation. *)
Theorem a_read_after_an_assignment_names_its_temporary x e st r st' :
  0 <= gens_get_default (cs_var_dict st) (VStr x) ->
  compile_ast (T_set x e) st = (Ok r, st') ->
  compile_ast (T_get x) st' = (Ok r, st').
Proof.
  intros Hnn Hc. apply compile_ast_set_inv in Hc as (rhs & st1 & g & He & Hg & -> & ->).
  pose proof (compile_ast_generations_grow e st (VStr x)) as Hgrow.
  rewrite He in Hgrow. cbn [snd] in Hgrow.
  assert (Hpos : 0 < g).
  { subst g. unfold gens_get_default in Hgrow, Hnn.
    destruct (gens_get (cs_var_dict st1) (VStr x)); lia. }
  unfold T_get. rewrite compile_ast_get. unfold bind, var_dict_get, ret.
  cbn [cs_var_dict]. unfold gens_get_default. rewrite gens_get_set_eq.
  rewrite make_gen_name_pos by exact Hpos. reflexivity.
Qed.

(** ** One statement for each assignment *)

Section Counting.
Context `{PyArith}.

Lemma set_log_set name c0s e rest (B : gmap value num) :
  set_log (Node (VStr "set") (Node name c0s :: e :: rest)) B =
  set_log e B ++
  match evaluate_ast e B with
  | (Ok v, _) => [(name, v)]
  | (Raise _, _) => []
  end.
Proof. reflexivity. Qed.

Lemma set_log_apply op c0s args (B : gmap value num) :
  set_log (Node (VStr "apply") (Node op c0s :: args)) B =
  match op_to_fn_get op with
  | None => []
  | Some _ => comprehension_log set_log evaluate_ast args B
  end.
Proof. reflexivity. Qed.

Lemma follows_log_unary (B : gmap value num) name (f : num -> result num)
    pre post e st v B' :
  (forall st0, compile_ast (Node (VStr "apply") [Node (VStr name) []; e]) st0 =
     (temp_value <- compile_ast e ;;
      s <- lift (str_plus pre temp_value) ;;
      ret (VStr (s +:+ post))) st0) ->
  op_to_fn_get (VStr name) = Some (lambda1 f) ->
  evaluate_ast (Node (VStr "apply") [Node (VStr name) []; e]) B = (Ok v, B') ->
  (forall v1 B1, evaluate_ast e B = (Ok v1, B1) -> follows_log e B st) ->
  follows_log (Node (VStr "apply") [Node (VStr name) []; e]) B st.
Proof.
  intros Hcomp Hfn Hev IH. rewrite evaluate_ast_apply, Hfn in Hev.
  cbn [comprehension] in Hev.
  destruct (evaluate_ast e B) as [[v1|err] B1] eqn:Hev1; [|discriminate Hev].
  destruct (IH _ _ eq_refl) as (s & new & vd' & Hc & Hlines & Hgens).
  exists (pre +:+ s +:+ post), new, vd'. split.
  - rewrite Hcomp, (bind_Ok _ _ _ _ _ Hc). unfold bind, lift, ret, str_plus.
    rewrite append_assoc_str. reflexivity.
  - rewrite set_log_apply, Hfn. cbn [comprehension_log]. rewrite Hev1.
    rewrite app_nil_r. split; assumption.
Qed.

Lemma compile_ast_follows_log t :
  expression t ->
  forall (B : gmap value num) v B' st,
    evaluate_ast t B = (Ok v, B') -> follows_log t B st.
Proof.
  intros Ht. induction Ht as
    [name e Hn He IHe | op e1 e2 Hop He1 IH1 He2 IH2 | e He IHe | name Hn
    | name args Hn Hne Hargs IHargs | n Hn | name Hn] using expression_args_ind;
    intros B v B' st Hev.
  - (* set *)
    rewrite evaluate_ast_set in Hev.
    destruct (evaluate_ast e B) as [[v1|err] B1] eqn:Hev1; [|discriminate Hev].
    destruct (IHe B v1 B1 st Hev1) as (s & new & vd1 & Hc & Hlines & Hgens).
    set (g := match gens_get vd1 (VStr name) with Some g0 => g0 + 1 | None => 1 end).
    exists ("_" +:+ name +:+ "_" +:+ str_of_Z g),
           (new ++ [("_" +:+ name +:+ "_" +:+ str_of_Z g) +:+ " = " +:+ s]),
           (gens_set vd1 (VStr name) g).
    split.
    { rewrite compile_ast_set, (bind_Ok _ _ _ _ _ Hc).
      unfold bind, var_dict_bump, lift, code_append, ret, str_plus. simpl.
      fold g. rewrite !append_assoc_str, <- app_assoc. reflexivity. }
    rewrite set_log_set, Hev1, map_app. cbn [map fst]. split.
    { apply Forall2_app; [exact Hlines|]. constructor; [|constructor].
      exists g, s. reflexivity. }
    intros x. rewrite gens_get_default_set, count_occ_app, Hgens. cbn [count_occ].
    destruct (decide (VStr name = x)) as [<-|Hne].
    + destruct (value_eq_dec (VStr name) (VStr name)) as [_|Hne]; [|congruence].
      unfold g. specialize (Hgens (VStr name)). unfold gens_get_default in Hgens |- *.
      destruct (gens_get vd1 (VStr name)); lia.
    + destruct (value_eq_dec (VStr name) x) as [Heq|_]; [congruence|]. lia.
  - (* binary operator *)
    destruct (binary_operator_agrees op Hop) as (f & Hfn & _ & _).
    destruct (in_operators_not_unary op Hop) as [Hneg Hsqr].
    rewrite evaluate_ast_apply, Hfn in Hev. cbn [comprehension] in Hev.
    destruct (evaluate_ast e1 B) as [[v1|err] B1] eqn:Hev1; [|discriminate Hev].
    destruct (evaluate_ast e2 B1) as [[v2|err] B2] eqn:Hev2; [|discriminate Hev].
    destruct (IH1 B v1 B1 st Hev1) as (s1 & new1 & vd1 & Hc1 & Hlines1 & Hgens1).
    destruct (IH2 B1 v2 B2 (CState vd1 (cs_code st ++ new1)) Hev2)
      as (s2 & new2 & vd2 & Hc2 & Hlines2 & Hgens2).
    cbn [cs_code cs_var_dict] in Hc2, Hgens2.
    exists ("(" +:+ s1 +:+ " " +:+ op +:+ " " +:+ s2 +:+ ")"), (new1 ++ new2), vd2.
    split.
    { rewrite (compile_ast_binary _ _ _ _ _ Hneg Hsqr).
      rewrite (bind_Ok _ _ _ _ _ Hc1), (bind_Ok _ _ _ _ _ Hc2).
      unfold bind, lift, ret, str_plus. simpl.
      rewrite !append_assoc_str, <- app_assoc. reflexivity. }
    rewrite set_log_apply, Hfn. cbn [comprehension_log]. rewrite Hev1, Hev2.
    rewrite app_nil_r, map_app. split.
    { apply Forall2_app; assumption. }
    intros x. rewrite count_occ_app, Hgens2, Hgens1. lia.
  - (* unary minus *)
    apply (follows_log_unary B "neg" py_neg "(-" ")" e st v B'); try assumption.
    + intros st0. rewrite compile_ast_neg. reflexivity.
    + reflexivity.
    + intros v1 B1 Hev1. exact (IHe B v1 B1 st Hev1).
  - (* a call without arguments *)
    exfalso. rewrite evaluate_ast_apply in Hev.
    destruct (op_to_fn_get (VStr name)) as [fn|] eqn:Hfn; [|discriminate Hev].
    destruct (named_operator_cases name fn Hn Hfn) as [[_ ->]|[_ ->]];
      discriminate Hev.
  - (* a call with arguments *)
    pose proof Hev as Hev0. rewrite evaluate_ast_apply in Hev.
    destruct (op_to_fn_get (VStr name)) as [fn|] eqn:Hfn; [|discriminate Hev].
    destruct (comprehension evaluate_ast args B) as [[vs|err] Bc] eqn:Hcomp;
      [|discriminate Hev].
    pose proof (comprehension_length _ _ _ _ _ Hcomp) as Hlen.
    assert (Hone : length args = 1%nat).
    { destruct (named_operator_cases name fn Hn Hfn) as [[_ ->]|[_ ->]];
        destruct vs as [|v1 [|v2 vs]]; try discriminate Hev; simpl in Hlen; auto. }
    destruct args as [|e [|e' args]]; try discriminate Hone.
    inversion IHargs as [|? ? IHe _]; subst.
    destruct (named_operator_cases name fn Hn Hfn) as [[-> ->]|[-> ->]].
    + apply (follows_log_unary B "neg" py_neg "(-" ")" e st v B'); try assumption.
      * intros st0. rewrite compile_ast_neg. reflexivity.
      * intros v1 B1 Hev1. exact (IHe B v1 B1 st Hev1).
    + apply (follows_log_unary B "sqr" (fun x => py_mul x x) "(" " ** 2)" e st v B');
        try assumption.
      * intros st0. rewrite compile_ast_sqr. reflexivity.
      * intros v1 B1 Hev1. exact (IHe B v1 B1 st Hev1).
  - (* number *)
    exists (str_of_Z n), [], (cs_var_dict st). split.
    { unfold T_const. rewrite compile_ast_const. unfold ret. simpl.
      rewrite <- cstate_eta. reflexivity. }
    split; [constructor|]. intros x. simpl. lia.
  - (* name *)
    exists (py_str (make_gen_name (VStr name)
                      (gens_get_default (cs_var_dict st) (VStr name)))),
           [], (cs_var_dict st).
    split.
    { rewrite compile_ast_get. unfold bind, var_dict_get, ret, make_gen_name. simpl.
      rewrite <- cstate_eta. destruct (0 <? _); reflexivity. }
    split; [constructor|]. intros x. simpl. lia.
Qed.

(** When the evaluator returns on an expression tree, [compile_ast]
    appends one statement for each assignment the evaluator carried
    out, in the order it carried them out and each to a temporary of
    the variable assigned, and raises the generation of each variable by
    the number of assignments to it. *)
Theorem one_statement_per_assignment t (B B' : gmap value num) v st :
  expression t -> evaluate_ast t B = (Ok v, B') ->
  exists new,
    cs_code (snd (compile_ast t st)) = cs_code st ++ new /\
    Forall2 assigns_to new (map fst (set_log t B)) /\
    forall x,
      gens_get_default (cs_var_dict (snd (compile_ast t st))) x =
      gens_get_default (cs_var_dict st) x
      + Z.of_nat (count_occ value_eq_dec (map fst (set_log t B)) x).
Proof.
  intros Ht Hev.
  destruct (compile_ast_follows_log t Ht B v B' st Hev)
    as (s & new & vd' & Hc & Hlines & Hgens).
  exists new. rewrite Hc. cbn [snd cs_code cs_var_dict].
  split; [reflexivity|]. split; assumption.
Qed.

End Counting.

(** ** The order of the cleanup *)

Lemma string_compare_cons c1 s1 c2 s2 :
  String.compare (String c1 s1) (String c2 s2) =
  match Ascii.compare c1 c2 with
  | Eq => String.compare s1 s2
  | ne => ne
  end.
Proof. reflexivity. Qed.

Lemma ascii_compare_spec c1 c2 :
  CompareSpec (c1 = c2) (N_of_ascii c1 < N_of_ascii c2)%N
              (N_of_ascii c2 < N_of_ascii c1)%N (Ascii.compare c1 c2).
Proof.
  unfold Ascii.compare. destruct (N.compare_spec (N_of_ascii c1) (N_of_ascii c2)) as [Heq|Hlt|Hgt];
    constructor; try assumption.
  rewrite <- (ascii_N_embedding c1), <- (ascii_N_embedding c2), Heq. reflexivity.
Qed.

Lemma string_leb_trans s1 : forall s2 s3,
  String.leb s1 s2 = true -> String.leb s2 s3 = true -> String.leb s1 s3 = true.
Proof.
  unfold String.leb.
  induction s1 as [|c1 s1 IH]; intros [|c2 s2] [|c3 s3]; try reflexivity;
    try discriminate.
  rewrite !string_compare_cons.
  destruct (ascii_compare_spec c1 c2) as [->|H12|H12]; [| |discriminate].
  - destruct (ascii_compare_spec c2 c3) as [->|H23|H23]; [| |discriminate].
    + apply IH.
    + reflexivity.
  - intros _. destruct (ascii_compare_spec c2 c3) as [->|H23|H23]; [| |discriminate].
    + intros _. destruct (ascii_compare_spec c1 c3) as [->|H13|H13]; [lia|reflexivity|lia].
    + intros _. destruct (ascii_compare_spec c1 c3) as [->|H13|H13]; [lia|reflexivity|lia].
Qed.

Lemma insert_by_key_sorted x l :
  StronglySorted (fun a b => String.leb (fst a) (fst b) = true) l ->
  StronglySorted (fun a b => String.leb (fst a) (fst b) = true) (insert_by_key x l).
Proof.
  induction 1 as [|y l Hl IH Hy]; simpl.
  - repeat constructor.
  - destruct (String.leb (fst x) (fst y)) eqn:E.
    + constructor; [constructor; assumption|].
      constructor; [exact E|].
      eapply Forall_impl; [exact Hy|]. intros z Hz.
      exact (string_leb_trans _ _ _ E Hz).
    + constructor; [exact IH|].
      assert (Hyx : String.leb (fst y) (fst x) = true).
      { destruct (String.leb_total (fst x) (fst y)) as [Hc|Hc]; [congruence | exact Hc]. }
      rewrite (Forall_forall). intros z Hz.
      apply list_elem_of_In in Hz.
      assert (Hperm := insert_by_key_perm x l).
      apply list_elem_of_In in Hz. rewrite Hperm in Hz.
      apply list_elem_of_In in Hz. destruct Hz as [<-|Hz]; [exact Hyx|].
      rewrite Forall_forall in Hy. apply Hy. apply list_elem_of_In. exact Hz.
Qed.

Lemma with_keys_keys d l :
  with_keys d = Ok l -> Forall (fun kt => key_fn (snd kt) = Ok (fst kt)) l.
Proof.
  revert l. induction d as [|t d IH]; simpl; intros l.
  - intros [= <-]. constructor.
  - destruct (key_fn t) as [k|] eqn:Hk; [|discriminate].
    destruct (with_keys d) as [l'|]; [|discriminate].
    intros [= <-]. constructor; [exact Hk | apply IH; reflexivity].
Qed.

(** [sorted] hands the items back in ascending order of their keys. *)
Lemma sorted_by_key d items :
  sorted d = Ok items -> StronglySorted key_le items.
Proof.
  unfold sorted. destruct (with_keys d) as [l|] eqn:E; [|discriminate].
  intros [= <-]. pose proof (with_keys_keys _ _ E) as Hkeys. clear E.
  assert (Hs : StronglySorted (fun a b => String.leb (fst a) (fst b) = true)
                 (fold_right insert_by_key [] l)).
  { clear Hkeys. induction l as [|x l IH]; simpl; [constructor|].
    apply insert_by_key_sorted. exact IH. }
  assert (Hk : Forall (fun kt => key_fn (snd kt) = Ok (fst kt))
                 (fold_right insert_by_key [] l)).
  { assert (Hperm : Permutation (fold_right insert_by_key [] l) l).
    { clear. induction l as [|x l IH]; simpl; [reflexivity|].
      rewrite insert_by_key_perm, IH. reflexivity. }
    rewrite Hperm. exact Hkeys. }
  revert Hs Hk. generalize (fold_right insert_by_key [] l). clear.
  induction 1 as [|y l Hl IH Hy]; intros Hk; simpl; [constructor|].
  inversion Hk as [|? ? Hky Hk']; subst.
  constructor; [apply IH; exact Hk'|].
  rewrite Forall_forall in Hy. rewrite Forall_forall in Hk'.
  rewrite Forall_forall. intros t Ht.
  apply list_elem_of_In, in_map_iff in Ht as (z & <- & Hz).
  apply list_elem_of_In in Hz.
  exists (fst y), (fst z). split; [exact Hky|]. split; [apply Hk'; exact Hz|].
  apply Hy. exact Hz.
Qed.

(** The cleanup goes through the variables in ascending order of
    [key_fn], whatever the order in which they were assigned; for names
    that do not begin with an underscore this is the order of the names
    themselves. *)
Theorem cleanup_goes_in_the_order_of_the_names ast expr_str code code' :
  compile [] (Some ast) expr_str code = (Ok ReturnNone, code') ->
  (exists last st items,
     compile_ast ast (CState [] (code ++ ["# code for:"; "# " +:+ expr_str]))
       = (Ok last, st) /\
     Permutation items (cs_var_dict st) /\
     code' = cs_code st ++ ["_result = " +:+ py_str last]
               ++ concat (map cleanup_item items) /\
     StronglySorted key_le items) /\
  (forall x gx y gy,
     starts_with_underscore x = false -> starts_with_underscore y = false ->
     (key_le (VStr x, gx) (VStr y, gy) <-> String.leb x y = true)).
Proof.
  intros Hcompile. split.
  - revert Hcompile. unfold compile.
    change (0 <? length (@nil string))%nat with false. cbv iota.
    set (st0 := CState [] _).
    destruct (compile_ast ast st0) as [[last|err] st].
    2:{ destruct err; discriminate. }
    destruct (sorted (cs_var_dict st)) as [items|] eqn:Hs; [|discriminate].
    intros [= <-]. exists last, st, items.
    split; [reflexivity|]. split; [exact (sorted_perm _ _ Hs)|].
    split; [rewrite <- app_assoc; reflexivity|].
    exact (sorted_by_key _ _ Hs).
  - intros x gx y gy Hx Hy.
    assert (Hkey : forall z g, starts_with_underscore z = false ->
              key_fn (VStr z, g) = Ok ("_" +:+ z)).
    { intros z g Hz. unfold key_fn. cbn [fst].
      destruct z as [|c z]; [reflexivity|]. cbn [starts_with_underscore] in Hz.
      unfold is_underscore in Hz.
      replace (substring 0 1 (String c z)) with (String c EmptyString)
        by (simpl; destruct z; reflexivity).
      cbn [String.eqb]. rewrite Hz. reflexivity. }
    unfold key_le. rewrite (Hkey x gx Hx), (Hkey y gy Hy). split.
    + intros (ka & kb & [= <-] & [= <-] & Hle). exact Hle.
    + intros Hle. eexists _, _. split; [reflexivity|]. split; [reflexivity | exact Hle].
Qed.

(** ** The outcome of an evaluation and the run of the compiled code *)

Lemma assigns_between_app vd vd' s1 s2 :
  assigns_between vd vd' s1 -> assigns_between vd vd' s2 ->
  assigns_between vd vd' (s1 ++ s2).
Proof. intros H1 H2. apply Forall_app. split; assumption. Qed.

Lemma assigns_between_mono vd0 vd vd' vd1 stmts :
  gens_le vd0 vd -> gens_le vd' vd1 ->
  assigns_between vd vd' stmts -> assigns_between vd0 vd1 stmts.
Proof.
  intros H0 H1 Hs. unfold assigns_between in *. eapply Forall_impl; [exact Hs|].
  intros s (x & g & e & -> & Hg & Hb). exists x, g, e.
  split; [reflexivity|]. split; [exact Hg|].
  specialize (H0 (VStr x)). specialize (H1 (VStr x)). lia.
Qed.

Section OutcomeFacts.
Context `{PyArith}.

(** The statements touch the names of the generations between the two
    maps and no other name, whether they run to the end or raise. *)
Lemma exec_stmts_between vd vd' stmts : forall (C : gmap string num) r C',
  assigns_between vd vd' stmts ->
  exec_stmts stmts C = (r, C') ->
  forall n,
    (forall x g, 0 < g ->
       gens_get_default vd (VStr x) < g <= gens_get_default vd' (VStr x) ->
       n <> gen_name x g) ->
    C' !! n = C !! n.
Proof.
  induction stmts as [|s stmts IH]; intros C r C' Hs Hex n Hn.
  - injection Hex as _ <-. reflexivity.
  - inversion Hs as [|? ? (x & g & e & -> & Hg & Hb) Hs']; subst.
    cbn [exec_stmts exec_stmt] in Hex.
    destruct (eval_py e C) as [v|err].
    + rewrite (IH _ _ _ Hs' Hex n Hn).
      apply lookup_insert_ne. intros Heq. exact (Hn x g Hg Hb (eq_sym Heq)).
    + injection Hex as _ <-. reflexivity.
Qed.

Lemma exec_stmts_frame vd vd' stmts (C : gmap string num) r C' :
  assigns_between vd vd' stmts ->
  exec_stmts stmts C = (r, C') -> frame vd C C'.
Proof.
  intros Hs Hex n Hn. apply (exec_stmts_between vd vd' stmts C r C' Hs Hex).
  intros x g Hg Hb Heq. specialize (Hn x g Hg Heq). lia.
Qed.

Lemma outcomes_agree_const (B : gmap value num) n st :
  0 <= n -> gens_wf (cs_var_dict st) -> keys_user (cs_var_dict st) ->
  outcomes_agree B (T_const n) st.
Proof.
  intros Hn Hwf Hku. exists (PNum n), [], (cs_var_dict st). split.
  - exists []. split; [unfold T_const; rewrite compile_ast_const; unfold ret; simpl;
                       rewrite <- cstate_eta; reflexivity|].
    split; [apply Z.leb_le; exact Hn|]. split; [constructor|].
    split; [exact Hwf|]. split; [exact Hku|]. split; [apply gens_le_refl|].
    split; [reflexivity | constructor].
  - intros C HC. cbn. exists C. split; [reflexivity|]. split; [exact HC | reflexivity].
Qed.

Lemma outcomes_agree_get (B : gmap value num) x st :
  user_name x = true ->
  gens_wf (cs_var_dict st) -> keys_user (cs_var_dict st) ->
  outcomes_agree B (T_get x) st.
Proof.
  intros Hx Hwf Hku.
  exists (PName (gen_name x (gens_get_default (cs_var_dict st) (VStr x)))), [],
         (cs_var_dict st).
  pose proof (user_name_plain x Hx) as Hplain.
  pose proof (gens_get_nonneg _ (VStr x) Hwf) as Hnn.
  split.
  - exists []. split.
    { unfold T_get. rewrite compile_ast_get. unfold bind, var_dict_get, ret. simpl.
      rewrite <- cstate_eta. unfold gen_name.
      unfold make_gen_name. destruct (0 <? _); reflexivity. }
    split.
    { simpl. destruct (Z_lt_le_dec 0 (gens_get_default (cs_var_dict st) (VStr x))) as [Hpos|Hle].
      - apply gen_name_identifier; [apply user_name_t_NAME; exact Hx | exact Hpos].
      - rewrite gen_name_zero by exact Hle. apply user_name_identifier. exact Hx. }
    split; [repeat constructor; apply settled_current; exact Hplain|].
    split; [exact Hwf|]. split; [exact Hku|]. split; [apply gens_le_refl|].
    split; [reflexivity | constructor].
  - intros C HC. unfold T_get. rewrite evaluate_ast_get.
    destruct HC as [Hcur Htmp]. pose proof (Hcur x Hplain) as Hlook.
    destruct (B !! VStr x) as [v|] eqn:HB.
    + exists C. split; [reflexivity|]. split; [split; assumption|].
      simpl. rewrite Hlook. reflexivity.
    + right. exists C. split; [reflexivity|]. simpl. rewrite Hlook. eauto.
Qed.

Lemma outcomes_agree_set (B : gmap value num) x e st :
  user_name x = true ->
  outcomes_agree B e st -> outcomes_agree B (T_set x e) st.
Proof.
  intros Hx (e1 & stmts & vd1 & (new & Hc & Hcan & Hset & Hwf & Hku & Hle & Hread & Hbet) & Hrun).
  pose proof (user_name_plain x Hx) as Hplain.
  pose proof (gens_get_nonneg _ (VStr x) Hwf) as Hnn.
  set (g := gens_get_default vd1 (VStr x) + 1).
  assert (Hg : 0 < g) by (unfold g; lia).
  exists (PName (gen_name x g)), (stmts ++ [SAssign (gen_name x g) e1]),
         (gens_set vd1 (VStr x) g).
  assert (Hle1 : gens_le vd1 (gens_set vd1 (VStr x) g)) by (apply gens_le_set; lia).
  split.
  - exists (new ++ [gen_name x g +:+ " = " +:+ render e1]). split.
    { unfold T_set. rewrite compile_ast_set, (bind_Ok _ _ _ _ _ Hc).
      unfold bind, var_dict_bump, lift, code_append, ret, str_plus. simpl.
      replace (match gens_get vd1 (VStr x) with Some g0 => g0 + 1 | None => 1 end)
        with g by (unfold g, gens_get_default; destruct (gens_get vd1 (VStr x)); reflexivity).
      rewrite gen_name_pos by exact Hg.
      rewrite !append_assoc_str, <- app_assoc. reflexivity. }
    split; [simpl; apply gen_name_identifier; [apply user_name_t_NAME; exact Hx | exact Hg]|].
    split.
    { repeat constructor. apply settled_gen. rewrite gens_get_default_set.
      destruct (decide (VStr x = VStr x)); [lia | congruence]. }
    split; [apply gens_wf_set; assumption|].
    split; [apply keys_user_set; assumption|].
    split; [eapply gens_le_trans; [exact Hle | exact Hle1]|].
    split.
    { apply read_program_app; [exact Hread|]. simpl.
      rewrite read_stmt_assign; [reflexivity | | exact Hcan].
      apply gen_name_identifier; [apply user_name_t_NAME; exact Hx | exact Hg]. }
    apply assigns_between_app.
    + apply (assigns_between_mono _ (cs_var_dict st) vd1 _ _ (gens_le_refl _) Hle1 Hbet).
    + constructor; [|constructor]. exists x, g, e1. split; [reflexivity|].
      split; [exact Hg|]. rewrite gens_get_default_set.
      destruct (decide (VStr x = VStr x)); [|congruence].
      specialize (Hle (VStr x)). unfold g. lia.
  - intros C HC. specialize (Hrun C HC). unfold T_set. rewrite evaluate_ast_set.
    destruct (evaluate_ast e B) as [[v|err] B1].
    + destruct Hrun as (C1 & Hex1 & Hsim1 & Hev1).
      exists (<[gen_name x g := v]> C1).
      split; [rewrite exec_stmts_app, Hex1; simpl; rewrite Hev1; reflexivity|].
      split; [apply sim_set; [exact Hsim1 | exact Hplain | exact Hnn | reflexivity]|].
      simpl. rewrite lookup_insert_eq. reflexivity.
    + left. destruct Hrun as [(err' & C1 & Hex1)|(C1 & Hex1 & err' & Hev1)].
      * exists err', C1. rewrite exec_stmts_app, Hex1. reflexivity.
      * exists err', C1. rewrite exec_stmts_app, Hex1. simpl. rewrite Hev1. reflexivity.
Qed.

(** An operator of one argument whose text wraps the text of the
    argument: [neg] and [sqr]. *)
Lemma outcomes_agree_unary (B : gmap value num) name wrap (f : num -> result num)
    c0s e rest st :
  (forall a st1, compile_ast e st = (Ok (VStr (render a)), st1) ->
     compile_ast (Node (VStr "apply") (Node (VStr name) c0s :: e :: rest)) st =
     (Ok (VStr (render (wrap a))), st1)) ->
  (forall a, canonical a = true -> canonical (wrap a) = true) ->
  (forall a, py_names (wrap a) = py_names a) ->
  (forall a (C : gmap string num),
     eval_py (wrap a) C =
     match eval_py a C with Ok v => f v | Raise err => Raise err end) ->
  (forall B0,
     evaluate_ast (Node (VStr "apply") (Node (VStr name) c0s :: e :: rest)) B0 =
     match evaluate_ast e B0 with
     | (Ok v, B1) => (f v, B1)
     | (Raise err, B1) => (Raise err, B1)
     end) ->
  outcomes_agree B e st ->
  outcomes_agree B (Node (VStr "apply") (Node (VStr name) c0s :: e :: rest)) st.
Proof.
  intros Hcomp Hcanw Hnames Heval Hevaluate
    (e1 & stmts & vd1 & (new & Hc & Hcan & Hset & Hwf & Hku & Hle & Hread & Hbet) & Hrun).
  exists (wrap e1), stmts, vd1. split.
  - exists new. split; [apply Hcomp; exact Hc|].
    split; [apply Hcanw; exact Hcan|].
    split; [unfold names_settled; rewrite Hnames; exact Hset|].
    repeat (split; [assumption|]). exact Hbet.
  - intros C HC. specialize (Hrun C HC). rewrite Hevaluate.
    destruct (evaluate_ast e B) as [[v1|err] B1].
    + destruct Hrun as (C1 & Hex1 & Hsim1 & Hev1).
      destruct (f v1) as [v|err] eqn:Hf.
      * exists C1. split; [exact Hex1|]. split; [exact Hsim1|].
        rewrite Heval, Hev1. exact Hf.
      * right. exists C1. split; [exact Hex1|]. exists err.
        rewrite Heval, Hev1. exact Hf.
    + destruct Hrun as [(err' & C1 & Hex1)|(C1 & Hex1 & err' & Hev1)].
      * left. eauto.
      * right. exists C1. split; [exact Hex1|]. exists err'.
        rewrite Heval, Hev1. reflexivity.
Qed.

Lemma outcomes_agree_neg (B : gmap value num) c0s e st :
  outcomes_agree B e st ->
  outcomes_agree B (Node (VStr "apply") [Node (VStr "neg") c0s; e]) st.
Proof.
  intros He.
  apply (outcomes_agree_unary B "neg" PNeg py_neg c0s e [] st); try exact He.
  - intros a st1 Hc. rewrite compile_ast_neg, (bind_Ok _ _ _ _ _ Hc).
    unfold bind, lift, ret, str_plus. simpl. rewrite append_assoc_str. reflexivity.
  - intros a Ha. exact Ha.
  - reflexivity.
  - reflexivity.
  - intros B0. rewrite evaluate_ast_apply.
    change (op_to_fn_get (VStr "neg")) with (Some (lambda1 py_neg)).
    cbn [comprehension]. destruct (evaluate_ast e B0) as [[v|err] B1]; reflexivity.
Qed.

Lemma outcomes_agree_sqr (B : gmap value num) c0s e st :
  pow2_is_square ->
  outcomes_agree B e st ->
  outcomes_agree B (Node (VStr "apply") [Node (VStr "sqr") c0s; e]) st.
Proof.
  intros Hpow He.
  apply (outcomes_agree_unary B "sqr" (fun a => PBin "**" a (PNum 2))
           (fun x => py_mul x x) c0s e [] st); try exact He.
  - intros a st1 Hc. rewrite compile_ast_sqr, (bind_Ok _ _ _ _ _ Hc).
    unfold bind, lift, ret, str_plus. simpl. rewrite append_assoc_str. reflexivity.
  - intros a Ha. simpl. rewrite Ha. reflexivity.
  - intros a. simpl. apply app_nil_r.
  - intros a C. simpl. destruct (eval_py a C) as [v|err]; [|reflexivity].
    change (binary_operation "**") with py_pow. apply Hpow.
  - intros B0. rewrite evaluate_ast_apply.
    change (op_to_fn_get (VStr "sqr")) with (Some (lambda1 (fun x => py_mul x x))).
    cbn [comprehension]. destruct (evaluate_ast e B0) as [[v|err] B1]; reflexivity.
Qed.

Lemma outcomes_agree_binary (B : gmap value num) op f c0s e1 e2 st :
  VStr op <> VStr "neg" -> VStr op <> VStr "sqr" ->
  op_to_fn_get (VStr op) = Some (lambda2 f) ->
  binary_operation op = f ->
  existsb (String.eqb op) binary_operators = true ->
  outcomes_agree B e1 st ->
  (forall B1, outcomes_agree B1 e2 (snd (compile_ast e1 st))) ->
  outcomes_agree B (Node (VStr "apply") [Node (VStr op) c0s; e1; e2]) st.
Proof.
  intros Hneg Hsqr Hfn Hf Hop
    (a1 & stmts1 & vd1 & (new1 & Hc1 & Hcan1 & Hset1 & Hwf1 & Hku1 & Hle1 & Hread1 & Hbet1)
        & Hrun1) H2.
  rewrite Hc1 in H2. cbn [snd] in H2.
  assert (Hwhole : forall B1,
    (exists a2 stmts2 vd2,
       translated (CState vd1 (cs_code st ++ new1))
                  (compile_ast e2 (CState vd1 (cs_code st ++ new1))) a2 stmts2 vd2 /\
       run_agrees B1 (evaluate_ast e2 B1) vd1 vd2 a2 stmts2 /\
       translated st
         (compile_ast (Node (VStr "apply") [Node (VStr op) c0s; e1; e2]) st)
         (PBin op a1 a2) (stmts1 ++ stmts2) vd2 /\
       assigns_between vd1 vd2 stmts2)).
  { intros B1.
    destruct (H2 B1) as (a2 & stmts2 & vd2 & Htr2 & Hrun2).
    exists a2, stmts2, vd2. split; [exact Htr2|]. split; [exact Hrun2|].
    destruct Htr2 as (new2 & Hc2 & Hcan2 & Hset2 & Hwf2 & Hku2 & Hle2 & Hread2 & Hbet2).
    cbn [cs_var_dict cs_code] in *.
    split; [|exact Hbet2].
    exists (new1 ++ new2). split.
    { rewrite (compile_ast_binary _ _ _ _ _ Hneg Hsqr).
      rewrite (bind_Ok _ _ _ _ _ Hc1), (bind_Ok _ _ _ _ _ Hc2).
      unfold bind, lift, ret, str_plus. simpl.
      rewrite !append_assoc_str, <- app_assoc. reflexivity. }
    split; [cbn [canonical]; rewrite Hop, Hcan1, Hcan2; reflexivity|].
    split.
    { unfold names_settled. simpl. apply Forall_app. split; [|exact Hset2].
      apply (names_settled_mono vd1); assumption. }
    split; [exact Hwf2|]. split; [exact Hku2|].
    split; [eapply gens_le_trans; eassumption|].
    split; [apply read_program_app; assumption|].
    apply assigns_between_app.
    - exact (assigns_between_mono _ _ _ _ _ (gens_le_refl _) Hle2 Hbet1).
    - exact (assigns_between_mono _ _ _ _ _ Hle1 (gens_le_refl _) Hbet2). }
  destruct (evaluate_ast e1 B) as [[v1|err1] B1] eqn:Hev1.
  - destruct (Hwhole B1) as (a2 & stmts2 & vd2 & _ & Hrun2 & Htr & Hbet2).
    exists (PBin op a1 a2), (stmts1 ++ stmts2), vd2. split; [exact Htr|].
    intros C HC. specialize (Hrun1 C HC). cbn in Hrun1.
    destruct Hrun1 as (C1 & Hex1 & Hsim1 & Hval1).
    specialize (Hrun2 C1 Hsim1).
    rewrite evaluate_ast_apply, Hfn. cbn [comprehension]. rewrite Hev1.
    destruct (evaluate_ast e2 B1) as [[v2|err2] B2] eqn:Hev2.
    + destruct Hrun2 as (C2 & Hex2 & Hsim2 & Hval2).
      pose proof (exec_stmts_frame _ _ _ _ _ _ Hbet2 Hex2) as Hfr.
      assert (Hval : eval_py (PBin op a1 a2) C2 = f v1 v2).
      { simpl. rewrite (eval_py_frame vd1 a1 C1 C2 Hset1 Hfr), Hval1, Hval2, Hf.
        reflexivity. }
      cbn [lambda2]. destruct (f v1 v2) as [v|err] eqn:Hfv.
      * exists C2. split; [rewrite exec_stmts_app, Hex1; exact Hex2|].
        split; [exact Hsim2 | exact Hval].
      * right. exists C2. split; [rewrite exec_stmts_app, Hex1; exact Hex2|].
        exists err. exact Hval.
    + destruct Hrun2 as [(err' & C2 & Hex2)|(C2 & Hex2 & err' & Hval2)].
      * left. exists err', C2. rewrite exec_stmts_app, Hex1. exact Hex2.
      * right. exists C2. split; [rewrite exec_stmts_app, Hex1; exact Hex2|].
        exists err'. simpl.
        pose proof (exec_stmts_frame _ _ _ _ _ _ Hbet2 Hex2) as Hfr.
        rewrite (eval_py_frame vd1 a1 C1 C2 Hset1 Hfr), Hval1, Hval2. reflexivity.
  - destruct (Hwhole B) as (a2 & stmts2 & vd2 & _ & _ & Htr & Hbet2).
    exists (PBin op a1 a2), (stmts1 ++ stmts2), vd2. split; [exact Htr|].
    intros C HC. specialize (Hrun1 C HC). cbn in Hrun1.
    rewrite evaluate_ast_apply, Hfn. cbn [comprehension]. rewrite Hev1.
    destruct Hrun1 as [(err' & C1 & Hex1)|(C1 & Hex1 & err' & Hval1)].
    + left. exists err', C1. rewrite exec_stmts_app, Hex1. reflexivity.
    + destruct (exec_stmts stmts2 C1) as [[[]|err2] C2] eqn:Hex2.
      * right. exists C2. split; [rewrite exec_stmts_app, Hex1; exact Hex2|].
        exists err'. simpl.
        pose proof (exec_stmts_frame _ _ _ _ _ _ Hbet2 Hex2) as Hfr.
        rewrite (eval_py_frame vd1 a1 C1 C2 Hset1 Hfr), Hval1. reflexivity.
      * left. exists err2, C2. rewrite exec_stmts_app, Hex1. exact Hex2.
Qed.

Lemma calls_implemented_node ntype children :
  calls_implemented (Node ntype children) = true ->
  (value_eqb ntype (VStr "apply") = true ->
   match children with
   | c0 :: rest =>
     if value_eqb (get_value c0) (VStr "neg")
        || value_eqb (get_value c0) (VStr "sqr")
     then (length rest =? 1)%nat
     else existsb (value_eqb (get_value c0))
            [VStr "+"; VStr "-"; VStr "*"; VStr "/"]
          && (length rest =? 2)%nat
   | [] => true
   end = true)
  /\ Forall (fun c => calls_implemented c = true) children.
Proof.
  cbn [calls_implemented]. intros Hen. apply andb_prop in Hen as [Hhead Hch].
  split.
  - intros Happ. rewrite Happ in Hhead. exact Hhead.
  - apply Forall_forall. intros c Hc.
    rewrite forallb_forall in Hch. apply Hch. apply list_elem_of_In. exact Hc.
Qed.

(** The outcomes agree on every expression tree whose variables have
    plain names and whose calls are calls of an implemented operator
    with as many arguments as it takes. *)
Lemma compile_ast_outcomes t :
  pow2_is_square -> expression t ->
  plain_names t = true -> calls_implemented t = true ->
  forall (B : gmap value num) st,
    gens_wf (cs_var_dict st) -> keys_user (cs_var_dict st) ->
    outcomes_agree B t st.
Proof.
  intros Hpow Ht. induction Ht as
    [name e Hn He IHe | op e1 e2 Hop He1 IH1 He2 IH2 | e He IHe | name Hn
    | name args Hn Hne Hargs IHargs | n Hn | name Hn] using expression_args_ind;
    intros Hplain Hcalls B st Hwf Hku.
  - (* set *)
    apply plain_names_node in Hplain as [Hhead Hch]. specialize (Hhead eq_refl).
    cbn [get_value] in Hhead.
    inversion Hch as [|? ? _ Hch']; subst. inversion Hch' as [|? ? Hpe _]; subst.
    apply calls_implemented_node in Hcalls as [_ Hcs].
    inversion Hcs as [|? ? _ Hcs']; subst. inversion Hcs' as [|? ? Hce _]; subst.
    apply (outcomes_agree_set B name e st Hhead). apply IHe; assumption.
  - (* binary operator *)
    apply plain_names_node in Hplain as [_ Hch].
    inversion Hch as [|? ? _ Hch']; subst. inversion Hch' as [|? ? Hp1 Hch'']; subst.
    inversion Hch'' as [|? ? Hp2 _]; subst.
    apply calls_implemented_node in Hcalls as [_ Hcs].
    inversion Hcs as [|? ? _ Hcs']; subst. inversion Hcs' as [|? ? Hc1 Hcs'']; subst.
    inversion Hcs'' as [|? ? Hc2 _]; subst.
    destruct (binary_operator_agrees op Hop) as (f & Hfn & Hbin & Hex).
    destruct (in_operators_not_unary op Hop) as [Hneg Hsqr].
    pose proof (IH1 Hp1 Hc1 B st Hwf Hku) as H1.
    apply (outcomes_agree_binary B op f [] e1 e2 st Hneg Hsqr Hfn Hbin Hex H1).
    intros B1.
    destruct H1 as (a1 & stmts1 & vd1 & (new1 & Hcomp & _ & _ & Hwf1 & Hku1 & _) & _).
    apply IH2; [exact Hp2 | exact Hc2 | rewrite Hcomp; exact Hwf1 | rewrite Hcomp; exact Hku1].
  - (* unary minus *)
    apply plain_names_node in Hplain as [_ Hch].
    inversion Hch as [|? ? _ Hch']; subst. inversion Hch' as [|? ? Hpe _]; subst.
    apply calls_implemented_node in Hcalls as [_ Hcs].
    inversion Hcs as [|? ? _ Hcs']; subst. inversion Hcs' as [|? ? Hce _]; subst.
    apply outcomes_agree_neg. apply IHe; assumption.
  - (* a call without arguments *)
    exfalso. apply calls_implemented_node in Hcalls as [Hhead _].
    specialize (Hhead eq_refl). cbn [get_value length] in Hhead.
    destruct (value_eqb (VStr name) (VStr "neg") || value_eqb (VStr name) (VStr "sqr"));
      [discriminate Hhead|].
    rewrite andb_false_r in Hhead. discriminate Hhead.
  - (* a call with arguments *)
    apply plain_names_node in Hplain as [_ Hch].
    inversion Hch as [|? ? _ Hch']; subst. clear Hch.
    apply calls_implemented_node in Hcalls as [Hhead Hcs].
    specialize (Hhead eq_refl). cbn [get_value] in Hhead.
    inversion Hcs as [|? ? _ Hcs']; subst. clear Hcs.
    destruct (value_eqb (VStr name) (VStr "neg") || value_eqb (VStr name) (VStr "sqr"))
      eqn:Hunary.
    2:{ exfalso. apply andb_prop in Hhead as [Hop _].
        apply existsb_exists in Hop as (o & Hin & Ho).
        apply value_eqb_eq in Ho. subst o. simpl in Hin.
        destruct Hin as [Heq|[Heq|[Heq|[Heq|[]]]]]; injection Heq as <-;
          discriminate Hn. }
    apply Nat.eqb_eq in Hhead.
    destruct args as [|e [|e' args]]; try discriminate Hhead.
    inversion IHargs as [|? ? IHe _]; subst. inversion Hch' as [|? ? Hpe _]; subst.
    inversion Hcs' as [|? ? Hce _]; subst.
    pose proof (IHe Hpe Hce B st Hwf Hku) as H1.
    apply orb_prop in Hunary as [Heq|Heq]; apply value_eqb_eq in Heq;
      injection Heq as ->.
    + apply outcomes_agree_neg. exact H1.
    + apply outcomes_agree_sqr; assumption.
  - (* number *)
    apply outcomes_agree_const; assumption.
  - (* name *)
    apply plain_names_node in Hplain as [Hhead _]. specialize (Hhead eq_refl).
    cbn [get_value] in Hhead. apply outcomes_agree_get; assumption.
Qed.

End OutcomeFacts.

Lemma range1_In_iff g k : In k (range1 g) <-> 0 < k <= g.
Proof.
  split; [apply range1_In|]. intros Hk. unfold range1.
  apply in_map_iff. exists (Z.to_nat k). split; [lia|]. apply in_seq. lia.
Qed.

Lemma gens_get_default_In d x :
  NoDup (map fst d) -> 0 < gens_get_default d (VStr x) ->
  In (VStr x, gens_get_default d (VStr x)) d.
Proof.
  intros Hnd Hpos. unfold gens_get_default in *.
  destruct (gens_get d (VStr x)) as [g|] eqn:E; [|lia].
  apply gens_get_In; assumption.
Qed.

Lemma gens_In_get_default d x g :
  NoDup (map fst d) -> In (VStr x, g) d -> gens_get_default d (VStr x) = g.
Proof.
  intros Hnd Hin. unfold gens_get_default.
  apply gens_get_In in Hin; [|exact Hnd]. rewrite Hin. reflexivity.
Qed.

Lemma comprehension_each {S A} (f : ValueTree -> S -> result A * S) cs :
  forall s vs s', comprehension f cs s = (Ok vs, s') ->
  Forall (fun c => exists s1 v s2, f c s1 = (Ok v, s2)) cs.
Proof.
  induction cs as [|c cs IH]; intros s vs s'; simpl; [constructor|].
  destruct (f c s) as [[v|e] s1] eqn:Hf; [|discriminate].
  destruct (comprehension f cs s1) as [[vs1|e] s2] eqn:E; [|discriminate].
  intros _. constructor; [eauto | exact (IH _ _ _ E)].
Qed.

Lemma calls_implemented_leaf v : calls_implemented (Node v []) = true.
Proof. simpl. destruct (value_eqb v (VStr "apply")); reflexivity. Qed.

Lemma calls_implemented_unfold ntype children :
  calls_implemented (Node ntype children) =
  (if value_eqb ntype (VStr "apply") then
     match children with
     | c0 :: rest =>
       if value_eqb (get_value c0) (VStr "neg")
          || value_eqb (get_value c0) (VStr "sqr")
       then (length rest =? 1)%nat
       else existsb (value_eqb (get_value c0))
              [VStr "+"; VStr "-"; VStr "*"; VStr "/"]
            && (length rest =? 2)%nat
     | [] => true
     end
   else true)
  && forallb calls_implemented children.
Proof. reflexivity. Qed.

Section RunFacts.
Context `{PyArith}.

(** An expression tree on which the evaluator returns has only calls of
    implemented operators with the arguments they take. *)
Lemma evaluated_calls_implemented t :
  expression t ->
  forall (B : gmap value num) v B',
    evaluate_ast t B = (Ok v, B') -> calls_implemented t = true.
Proof.
  intros Ht. induction Ht as
    [name e Hn He IHe | op e1 e2 Hop He1 IH1 He2 IH2 | e He IHe | name Hn
    | name args Hn Hne Hargs IHargs | n Hn | name Hn] using expression_args_ind;
    intros B v B' Hev.
  - rewrite evaluate_ast_set in Hev.
    destruct (evaluate_ast e B) as [[v1|err] B1] eqn:He1; [|discriminate Hev].
    rewrite calls_implemented_unfold. cbn [forallb].
    rewrite calls_implemented_leaf, (IHe _ _ _ He1). reflexivity.
  - destruct (binary_operator_agrees op Hop) as (f & Hfn & _ & _).
    rewrite evaluate_ast_apply, Hfn in Hev. cbn [comprehension] in Hev.
    destruct (evaluate_ast e1 B) as [[v1|err] B1] eqn:Hev1; [|discriminate Hev].
    destruct (evaluate_ast e2 B1) as [[v2|err] B2] eqn:Hev2; [|discriminate Hev].
    rewrite calls_implemented_unfold. cbn [forallb get_value length].
    rewrite calls_implemented_leaf, (IH1 _ _ _ Hev1), (IH2 _ _ _ Hev2).
    simpl in Hop. destruct Hop as [<-|[<-|[<-|[<-|[]]]]]; reflexivity.
  - rewrite evaluate_ast_apply in Hev.
    change (op_to_fn_get (VStr "neg")) with (Some (lambda1 py_neg)) in Hev.
    cbn [comprehension] in Hev.
    destruct (evaluate_ast e B) as [[v1|err] B1] eqn:Hev1; [|discriminate Hev].
    rewrite calls_implemented_unfold. cbn [forallb get_value length].
    rewrite calls_implemented_leaf, (IHe _ _ _ Hev1). reflexivity.
  - exfalso. rewrite evaluate_ast_apply in Hev.
    destruct (op_to_fn_get (VStr name)) as [fn|] eqn:Hfn; [|discriminate Hev].
    destruct (named_operator_cases name fn Hn Hfn) as [[_ ->]|[_ ->]];
      discriminate Hev.
  - rewrite evaluate_ast_apply in Hev.
    destruct (op_to_fn_get (VStr name)) as [fn|] eqn:Hfn; [|discriminate Hev].
    destruct (comprehension evaluate_ast args B) as [[vs|err] Bc] eqn:Hcomp;
      [|discriminate Hev].
    pose proof (comprehension_length _ _ _ _ _ Hcomp) as Hlen.
    pose proof (comprehension_each _ _ _ _ _ Hcomp) as Heach.
    assert (Hone : length args = 1%nat /\
                   (name = "neg" \/ name = "sqr")).
    { destruct (named_operator_cases name fn Hn Hfn) as [[-> ->]|[-> ->]];
        destruct vs as [|v1 [|v2 vs]]; try discriminate Hev; simpl in Hlen; auto. }
    destruct Hone as [Hlen1 Hname].
    assert (Hch : forallb calls_implemented args = true).
    { apply forallb_forall. intros c Hc. apply list_elem_of_In in Hc.
      rewrite Forall_forall in IHargs, Heach.
      destruct (Heach c Hc) as (s1 & v1 & s2 & Hc1).
      exact (IHargs c Hc _ _ _ Hc1). }
    rewrite calls_implemented_unfold. cbn [forallb get_value].
    rewrite calls_implemented_leaf, Hch, Hlen1.
    destruct Hname as [-> | ->]; reflexivity.
  - rewrite calls_implemented_unfold. cbn [forallb].
    rewrite calls_implemented_leaf. reflexivity.
  - rewrite calls_implemented_unfold. cbn [forallb].
    rewrite calls_implemented_leaf. reflexivity.
Qed.

Lemma sim_of_agree (B : gmap value num) (C : gmap string num) :
  agree B C -> sim B [] C.
Proof.
  intros HC. split.
  - intros x Hx. change (gens_get_default [] (VStr x)) with 0.
    rewrite gen_name_zero by lia. apply HC. exact Hx.
  - intros x g Hg. change (gens_get_default [] (VStr x)) with 0 in Hg. lia.
Qed.

(** The deletions bind nothing and unbind exactly the names they list. *)
Lemma exec_dels_effect names : forall (C C' : gmap string num),
  exec_stmts (map SDel names) C = (Ok tt, C') ->
  (forall n, In n names -> C' !! n = None) /\
  (forall n, ~ In n names -> C' !! n = C !! n).
Proof.
  induction names as [|a names IH]; intros C C' Hex.
  - injection Hex as <-. split; [intros n [] | reflexivity].
  - cbn [map exec_stmts exec_stmt] in Hex.
    destruct (C !! a) as [w|]; [|discriminate Hex].
    destruct (IH _ _ Hex) as [Hgone Hkept]. split.
    + intros n [<-|Hin]; [|apply Hgone; exact Hin].
      destruct (in_dec string_dec a names) as [Hin|Hnot];
        [apply Hgone; exact Hin|].
      rewrite (Hkept a Hnot). apply lookup_delete_eq.
    + intros n Hnot. simpl in Hnot. rewrite Hkept by tauto.
      apply lookup_delete_ne. tauto.
Qed.

(** A cleanup that runs to the end unbinds every generation of the
    variables it cleans up, rebinds their bare names, and touches no
    other name. *)
Lemma exec_cleanup_effect todo : forall (C C' : gmap string num),
  NoDup (map fst todo) -> keys_user todo -> Forall (fun kv => 0 < snd kv) todo ->
  exec_stmts (concat (map cleanup_stmts todo)) C = (Ok tt, C') ->
  (forall x g k, In (VStr x, g) todo -> 0 < k <= g -> C' !! gen_name x k = None) /\
  (forall n, ~ In (VStr n) (map fst todo) ->
     (forall x g k, In (VStr x, g) todo -> 0 < k <= g -> n <> gen_name x k) ->
     C' !! n = C !! n).
Proof.
  induction todo as [|[k0 g0] todo IH]; intros C C' Hnd Hku Hpos Hex.
  - injection Hex as <-. split; [intros x g k [] | reflexivity].
  - inversion Hku as [|? ? (x0 & Hk & Hx0) Hku']; subst.
    inversion Hpos as [|? ? Hg0 Hpos']; subst. simpl in Hk, Hg0. subst k0.
    cbn [map fst] in Hnd. apply NoDup_cons in Hnd as [Hnotin Hnd].
    pose proof (user_name_plain x0 Hx0) as Hplain0.
    cbn [map concat cleanup_stmts] in Hex. rewrite <- !app_assoc in Hex.
    cbn [app exec_stmts exec_stmt eval_py] in Hex.
    destruct (C !! gen_name x0 g0) as [w|] eqn:Hw; [|discriminate Hex].
    rewrite exec_stmts_app in Hex.
    destruct (exec_stmts (map (fun k => SDel (gen_name x0 k)) (range1 g0))
                (<[x0 := w]> C)) as [[[]|err] Cb] eqn:Hdel; [|discriminate Hex].
    rewrite <- (map_map (gen_name x0) SDel) in Hdel.
    destruct (exec_dels_effect _ _ _ Hdel) as [Hgone Hkept].
    destruct (IH Cb C' Hnd Hku' Hpos' Hex) as [IHgone IHkept].
    assert (Hrest_keys : forall x g, In (VStr x, g) todo ->
              x <> x0 /\ 0 < g /\ starts_with_underscore x = false).
    { intros x g Hin. split; [|split].
      - intros ->. apply Hnotin, list_elem_of_In, in_map_iff.
        exists (VStr x0, g). split; [reflexivity | exact Hin].
      - rewrite Forall_forall in Hpos'. apply list_elem_of_In in Hin.
        exact (Hpos' _ Hin).
      - unfold keys_user in Hku'. rewrite Forall_forall in Hku'.
        apply list_elem_of_In in Hin.
        destruct (Hku' _ Hin) as (x' & [= <-] & Hx'). apply user_name_plain, Hx'. }
    split.
    + intros x g k [[= -> ->]|Hin] Hk.
      * rewrite IHkept.
        -- apply Hgone. apply in_map. apply range1_In_iff. exact Hk.
        -- intros Hin. apply in_map_iff in Hin as ([y gy] & Hy & Hin).
           simpl in Hy. subst y.
           destruct (Hrest_keys _ _ Hin) as (_ & _ & Hpl).
           rewrite gen_name_underscore in Hpl by lia. discriminate Hpl.
        -- intros y gy ky Hin Hky Heq.
           apply gen_name_pos_inj in Heq as [<- _]; [|lia..].
           destruct (Hrest_keys _ _ Hin) as (Hne & _). congruence.
      * exact (IHgone x g k Hin Hk).
    + intros n Hnot Htemp. rewrite IHkept.
      * rewrite Hkept.
        -- apply lookup_insert_ne. intros ->. apply Hnot. left. reflexivity.
        -- intros Hin. apply in_map_iff in Hin as (k & Hk & Hin).
           apply range1_In_iff in Hin.
           exact (Htemp x0 g0 k (or_introl eq_refl) Hin (eq_sym Hk)).
      * intros Hin. apply Hnot. right. exact Hin.
      * intros x g k Hin. apply Htemp. right. exact Hin.
Qed.

End RunFacts.

(** What [compile] makes of a translated tree: the header, the
    statements of the tree, the [_result] line and the cleanup, all of
    which read back as statements. *)
Lemma compile_of_translated t expr_str e stmts vd' :
  no_newline expr_str = true ->
  translated (CState [] ["# code for:"; "# " +:+ expr_str])
             (compile_ast t (CState [] ["# code for:"; "# " +:+ expr_str]))
             e stmts vd' ->
  exists code items,
    compile [] (Some t) expr_str [] = (Ok ReturnNone, code) /\
    Permutation items vd' /\
    read_program code =
      Some ([SComment; SComment] ++ stmts
            ++ [SAssign "_result" e] ++ concat (map cleanup_stmts items)).
Proof.
  intros Hnl (new & Hc & Hcan & Hset & Hwf & Hku & Hle & Hread & Hbet).
  assert (Hks : keys_str vd').
  { eapply Forall_impl; [exact Hku|]. intros kv (x & Hk & _). exists x. exact Hk. }
  destruct (sorted vd') as [items|err] eqn:Hsorted.
  2:{ exfalso. unfold sorted in Hsorted.
      destruct (with_keys_total vd' Hks) as [l Hl]. rewrite Hl in Hsorted.
      discriminate Hsorted. }
  pose proof (sorted_perm _ _ Hsorted) as Hperm.
  destruct Hwf as [Hnd Hpos].
  assert (Hku' : keys_user items) by (unfold keys_user; rewrite Hperm; exact Hku).
  assert (Hpos' : Forall (fun kv => 0 < snd kv) items) by (rewrite Hperm; exact Hpos).
  eexists _, items. split; [|split; [exact Hperm|]].
  - unfold compile. change (0 <? length (@nil string))%nat with false. cbv iota.
    change ([] ++ ["# code for:"; "# " +:+ expr_str])
      with ["# code for:"; "# " +:+ expr_str].
    rewrite Hc. cbn [cs_code cs_var_dict py_str]. rewrite Hsorted. reflexivity.
  - rewrite <- !app_assoc.
    apply (read_program_app [_; _] _ [_; _]); [apply read_header; exact Hnl|].
    apply read_program_app; [exact Hread|].
    apply read_program_app; [apply read_result_line; exact Hcan|].
    apply read_program_cleanup; assumption.
Qed.

Section Runs.
Context `{PyArith}.


(** The run of a compiled program for an expression the evaluator
    returns on, with every name of the final context accounted for. *)
Lemma compiled_program_runs t (B B' : gmap value num) v expr_str
    (C : gmap string num) :
  pow2_is_square -> expression t -> plain_names t = true ->
  no_newline expr_str = true ->
  evaluate_ast t B = (Ok v, B') -> agree B C ->
  exists code C',
    compile [] (Some t) expr_str [] = (Ok ReturnNone, code) /\
    exec_program code C = (Ok tt, C') /\
    C' !! "_result" = Some v /\
    agree B' C' /\
    (forall x g,
       0 < g <= gens_get_default
                  (cs_var_dict (snd (compile_ast t (CState [] [])))) (VStr x) ->
       C' !! gen_name x g = None) /\
    (forall n,
       starts_with_underscore n = true -> n <> "_result" ->
       (forall x g,
          0 < g <= gens_get_default
                     (cs_var_dict (snd (compile_ast t (CState [] [])))) (VStr x) ->
          n <> gen_name x g) ->
       C' !! n = C !! n).
Proof.
  intros Hpow Ht Hplain Hnl Hev HC.
  pose proof (evaluated_calls_implemented t Ht B v B' Hev) as Hcalls.
  set (st0 := CState [] ["# code for:"; "# " +:+ expr_str]).
  destruct (compile_ast_outcomes t Hpow Ht Hplain Hcalls B st0)
    as (e & stmts & vd & Htr & Hrun).
  { split; [apply NoDup_nil_2 | constructor]. }
  { constructor. }
  destruct (compile_of_translated t expr_str e stmts vd Hnl Htr)
    as (code & items & Hcompile & Hperm & Hread).
  destruct Htr as (new & Hc & Hcan & Hset & Hwf & Hku & Hle & _ & Hbet).
  assert (Hvd : cs_var_dict (snd (compile_ast t (CState [] []))) = vd).
  { pose proof (compile_ast_ignores_code t [] ["# code for:"; "# " +:+ expr_str]) as Hig.
    fold st0 in Hig. rewrite Hc in Hig. injection Hig as _ Hvd _. symmetry. exact Hvd. }
  rewrite Hvd. clear Hvd.
  destruct Hwf as [Hnd Hpos].
  assert (Hku' : keys_user items) by (unfold keys_user; rewrite Hperm; exact Hku).
  assert (Hpos' : Forall (fun kv => 0 < snd kv) items) by (rewrite Hperm; exact Hpos).
  assert (Hnd' : NoDup (map fst items)) by (rewrite Hperm; exact Hnd).
  specialize (Hrun C (sim_of_agree B C HC)). rewrite Hev in Hrun.
  destruct Hrun as (C1 & Hex1 & Hsim1 & Hval1).
  pose proof (sim_result B' vd C1 v Hsim1) as [Hcur Htmp].
  assert (Hin_items : forall x g, In (VStr x, g) items <-> In (VStr x, g) vd).
  { intros x g. rewrite <- !list_elem_of_In. rewrite Hperm. reflexivity. }
  assert (Hplain_key : forall x g, In (VStr x, g) vd -> starts_with_underscore x = false).
  { intros x g Hin. pose proof Hku as Hall. unfold keys_user in Hall.
    rewrite Forall_forall in Hall. apply list_elem_of_In in Hin.
    destruct (Hall _ Hin) as (x' & [= <-] & Hx'). apply user_name_plain. exact Hx'. }
  destruct (exec_cleanup B' v items (<["_result" := v]> C1) Hnd' Hku' Hpos')
    as (C' & Hex' & Hres & Hfinal).
  { split; [apply lookup_insert_eq|]. split.
    - intros x Hx Hnot. rewrite <- (Hcur x Hx).
      rewrite gen_name_zero; [reflexivity|]. unfold gens_get_default.
      rewrite gens_get_not_in; [lia|]. intros Hin. apply Hnot.
      apply list_elem_of_In. rewrite Hperm. apply list_elem_of_In. exact Hin.
    - intros x g Hin. apply Hin_items in Hin.
      rewrite <- (gens_In_get_default vd x g Hnd Hin) at 1.
      split.
      + rewrite <- (Hcur x (Hplain_key x g Hin)). reflexivity.
      + intros k Hk. apply Htmp. rewrite (gens_In_get_default vd x g Hnd Hin). lia. }
  destruct (exec_cleanup_effect items _ C' Hnd' Hku' Hpos' Hex') as [Hgone Hkept].
  exists code, C'. split; [exact Hcompile|].
  split.
  { unfold exec_program. rewrite Hread.
    cbn [app exec_stmts exec_stmt]. rewrite exec_stmts_app, Hex1.
    cbn [app exec_stmts exec_stmt]. rewrite Hval1. exact Hex'. }
  split; [exact Hres|]. split; [exact Hfinal|]. split.
  - intros x g Hg.
    apply (Hgone x (gens_get_default vd (VStr x)) g); [|exact Hg].
    apply Hin_items. apply gens_get_default_In; [exact Hnd | lia].
  - intros n Hn Hres' Htemp. rewrite Hkept.
    + rewrite lookup_insert_ne by congruence.
      apply (exec_stmts_between _ _ _ _ _ _ Hbet Hex1).
      intros x g Hg Hb. apply Htemp. cbn [cs_var_dict] in Hb. lia.
    + intros Hin. apply in_map_iff in Hin as ([k g] & Hk & Hin). simpl in Hk. subst k.
      apply Hin_items in Hin. rewrite (Hplain_key n g Hin) in Hn. discriminate Hn.
    + intros x g k Hin Hk. apply Htemp. apply Hin_items in Hin.
      rewrite (gens_In_get_default vd x g Hnd Hin). exact Hk.
Qed.

End Runs.

Section Programs.
Context `{PyArith}.


(** After the run of a compiled program no temporary of the expression
    is left: every generation the compiler reached is unbound at the
    end, and a name that begins with an underscore and is neither
    [_result] nor one of these temporaries is bound as it was before. *)
Theorem compiled_program_leaves_no_temporary t (B B' : gmap value num) v expr_str
    (C : gmap string num) :
  pow2_is_square -> expression t -> plain_names t = true ->
  no_newline expr_str = true ->
  evaluate_ast t B = (Ok v, B') -> agree B C ->
  exists code C',
    compile [] (Some t) expr_str [] = (Ok ReturnNone, code) /\
    exec_program code C = (Ok tt, C') /\
    (forall x g,
       0 < g <= gens_get_default
                  (cs_var_dict (snd (compile_ast t (CState [] [])))) (VStr x) ->
       C' !! gen_name x g = None) /\
    (forall n,
       starts_with_underscore n = true -> n <> "_result" ->
       (forall x g,
          0 < g <= gens_get_default
                     (cs_var_dict (snd (compile_ast t (CState [] [])))) (VStr x) ->
          n <> gen_name x g) ->
       C' !! n = C !! n).
Proof.
  intros Hpow Ht Hplain Hnl Hev HC.
  destruct (compiled_program_runs t B B' v expr_str C Hpow Ht Hplain Hnl Hev HC)
    as (code & C' & Hcompile & Hex & _ & _ & Hgone & Hkept).
  exists code, C'. repeat (split; [assumption|]). exact Hkept.
Qed.

Lemma exec_program_app code1 code2 (C C1 C2 : gmap string num) :
  exec_program code1 C = (Ok tt, C1) -> exec_program code2 C1 = (Ok tt, C2) ->
  exec_program (code1 ++ code2) C = (Ok tt, C2).
Proof.
  unfold exec_program.
  destruct (read_program code1) as [p1|] eqn:H1; [|discriminate].
  destruct (read_program code2) as [p2|] eqn:H2; [|discriminate].
  intros Hex1 Hex2. rewrite (read_program_app _ _ _ _ H1 H2).
  rewrite exec_stmts_app, Hex1. exact Hex2.
Qed.

(** Compiled programs chain.  When two expressions are evaluated one
    after the other, the program of the second, run in the context the
    program of the first left, ends with [_result] bound to the value of
    the second and the variables bound as the evaluator leaves them;
    compiling the second onto the list that holds the first gives the
    two programs one after the other, and that list runs to the same
    end. *)
Theorem compiled_programs_chain t1 t2 (B B1 B2 : gmap value num) v1 v2 s1 s2
    (C : gmap string num) :
  pow2_is_square ->
  expression t1 -> plain_names t1 = true -> no_newline s1 = true ->
  expression t2 -> plain_names t2 = true -> no_newline s2 = true ->
  evaluate_ast t1 B = (Ok v1, B1) -> evaluate_ast t2 B1 = (Ok v2, B2) ->
  agree B C ->
  exists code1 code2 C1 C2,
    compile [] (Some t1) s1 [] = (Ok ReturnNone, code1) /\
    compile [] (Some t2) s2 [] = (Ok ReturnNone, code2) /\
    compile [] (Some t2) s2 code1 = (Ok ReturnNone, code1 ++ code2) /\
    exec_program code1 C = (Ok tt, C1) /\
    exec_program code2 C1 = (Ok tt, C2) /\
    exec_program (code1 ++ code2) C = (Ok tt, C2) /\
    C2 !! "_result" = Some v2 /\ agree B2 C2.
Proof.
  intros Hpow Ht1 Hp1 Hn1 Ht2 Hp2 Hn2 Hev1 Hev2 HC.
  destruct (compiled_program_runs t1 B B1 v1 s1 C Hpow Ht1 Hp1 Hn1 Hev1 HC)
    as (code1 & C1 & Hc1 & Hex1 & _ & HC1 & _).
  destruct (compiled_program_runs t2 B1 B2 v2 s2 C1 Hpow Ht2 Hp2 Hn2 Hev2 HC1)
    as (code2 & C2 & Hc2 & Hex2 & Hres & HC2 & _).
  exists code1, code2, C1, C2.
  split; [exact Hc1|]. split; [exact Hc2|].
  split; [rewrite compile_appends_to_any_list, Hc2; reflexivity|].
  split; [exact Hex1|]. split; [exact Hex2|].
  split; [exact (exec_program_app _ _ _ _ _ Hex1 Hex2)|].
  split; [exact Hres | exact HC2].
Qed.

End Programs.

(** The statements [compile] produces for an expression tree whose
    variables have plain names and whose calls are implemented are
    always accepted as a program, whatever the store: an evaluation
    that fails shows as an exception of the run, never as a
    [SyntaxError]. *)
Theorem compiled_code_is_python t expr_str :
  expression t -> plain_names t = true -> calls_implemented t = true ->
  no_newline expr_str = true ->
  exists code stmts,
    compile [] (Some t) expr_str [] = (Ok ReturnNone, code) /\
    read_program code = Some stmts.
Proof.
  intros Ht Hplain Hcalls Hnl.
  set (st0 := CState [] ["# code for:"; "# " +:+ expr_str]).
  destruct (@compile_ast_outcomes int_arith t int_arith_pow2 Ht Hplain Hcalls ∅ st0)
    as (e & stmts & vd & Htr & _).
  { split; [apply NoDup_nil_2 | constructor]. }
  { constructor. }
  destruct (compile_of_translated t expr_str e stmts vd Hnl Htr)
    as (code & items & Hcompile & _ & Hread).
  eauto.
Qed.


(** ** Worked inputs of the further properties *)

Lemma expression_set_then_unbound : expression tree_set_then_unbound.
Proof.
  unfold tree_set_then_unbound, T_apply, T_set, T_get, T_const.
  apply p_expression_binop; [simpl; tauto | |].
  - apply p_expression_assign; [reflexivity|]. apply p_expression_number. lia.
  - apply p_expression_name. reflexivity.
Qed.

Lemma expression_nested_assignments : expression tree_nested_assignments.
Proof.
  unfold tree_nested_assignments, T_apply, T_set, T_get, T_const.
  repeat (first
    [ apply p_expression_binop; [simpl; tauto | |]
    | apply p_expression_assign; [reflexivity|]
    | apply p_expression_number; lia
    | apply p_expression_name; reflexivity ]).
Qed.

(** [sqr(100)/10] compiled onto a list that holds a statement. *)
Lemma assignment_free_compiles_to_one_line_witness :
  compile [] (Some tree_square_quotient) "sqr(100)/10" ["x = 1"] =
  (Ok ReturnNone,
   ["x = 1"] ++ ["# code for:"; "# " +:+ "sqr(100)/10";
                 "_result = " +:+ py_str (VStr "((100 ** 2) / 10)")]).
Proof.
  destruct (assignment_free_compiles_to_one_line tree_square_quotient eq_refl)
    as [_ Hline].
  apply (Hline "sqr(100)/10" ["x = 1"] (VStr "((100 ** 2) / 10)") (CState [] [])).
  reflexivity.
Defined.

(** [neg(x = 1, 2)]: both arguments are evaluated, [x] is bound, and the
    call of the one-argument function raises. *)
Lemma wrong_number_of_arguments_raises_TypeError_witness :
  @evaluate_ast int_arith
    (Node (VStr "apply")
       [Node (VStr "neg") []; T_set "x" (T_const 1); T_const 2]) ∅ =
  (Raise TypeError, <[VStr "x" := VInt 1]> ∅).
Proof.
  exact (@wrong_number_of_arguments_raises_TypeError int_arith "neg" []
           [T_set "x" (T_const 1); T_const 2] ∅
           (or_introl (conj (or_introl eq_refl)
                            (fun H : 2%nat = 1%nat => O_S 0 (eq_sym (eq_add_S _ _ H)))))).
Defined.

(** [(x = 1) + y] with an empty store fails with a [ValueError]. *)
Lemma evaluation_failures_are_classified_witness :
  (exists msg,
     ValueError "Evaluation error, variable 'y' has no value yet" = ValueError msg)
  \/ ValueError "Evaluation error, variable 'y' has no value yet" = TypeError
  \/ @arith_raises int_arith
       (ValueError "Evaluation error, variable 'y' has no value yet").
Proof.
  apply (@evaluation_failures_are_classified int_arith tree_set_then_unbound ∅
           (ValueError "Evaluation error, variable 'y' has no value yet")
           (<[VStr "x" := VInt 1]> ∅)).
  - apply p_statement_expr. exact expression_set_then_unbound.
  - reflexivity.
Defined.

(** The three outcomes at [f()]. *)
Lemma compile_of_a_parsed_tree_has_three_outcomes_witness :
  (exists out, compile [] (Some (T_apply "f" [])) "f()" [] = (Ok ReturnNone, [] ++ out))
  \/ (exists out, compile [] (Some (T_apply "f" [])) "f()" [] =
        (Raise IndexError, [] ++ ["# code for:"; "# " +:+ "f()"] ++ out))
  \/ (T_apply "f" [] = pass_tree /\
      compile [] (Some (T_apply "f" [])) "f()" [] =
        (Ok (ReturnExc (ValueError (not_implemented (VStr "pass")))), [])).
Proof.
  apply (compile_of_a_parsed_tree_has_three_outcomes (T_apply "f" []) "f()" []).
  apply p_statement_expr. apply p_fn_apply_0. reflexivity.
Defined.

(** [x = 1], then a read of [x]. *)
Lemma a_read_after_an_assignment_names_its_temporary_witness :
  compile_ast (T_get "x") (CState [(VStr "x", 1)] ["_x_1 = 1"]) =
  (Ok (VStr "_x_1"), CState [(VStr "x", 1)] ["_x_1 = 1"]).
Proof.
  apply (a_read_after_an_assignment_names_its_temporary "x" (T_const 1) (CState [] [])).
  - unfold gens_get_default. simpl. lia.
  - reflexivity.
Defined.

(** [(x = 1) + (x = x + 2) + (x = x + 42)] with an empty store: three
    statements, and [x] at generation 3. *)
Lemma one_statement_per_assignment_witness :
  exists new,
    cs_code (snd (compile_ast tree_three_generations (CState [] []))) = [] ++ new /\
    Forall2 assigns_to new
      (map fst (@set_log int_arith tree_three_generations ∅)) /\
    forall x,
      gens_get_default
        (cs_var_dict (snd (compile_ast tree_three_generations (CState [] [])))) x =
      gens_get_default [] x
      + Z.of_nat (count_occ value_eq_dec
                    (map fst (@set_log int_arith tree_three_generations ∅)) x).
Proof.
  apply (@one_statement_per_assignment int_arith tree_three_generations
           ∅ (<[VStr "x" := VInt 45]> ∅) (VInt 49) (CState [] [])).
  - exact expression_three_generations.
  - vm_compute. reflexivity.
Defined.

(** [x=1 + (y=2) + (z=x)]: [y] is assigned first, and the cleanup goes
    [x], [y], [z]. *)
Lemma cleanup_goes_in_the_order_of_the_names_witness :
  exists last st items,
    compile_ast tree_nested_assignments
      (CState [] ([] ++ ["# code for:"; "# " +:+ "x=1 + (y=2) + (z=x)"]))
      = (Ok last, st) /\
    Permutation items (cs_var_dict st) /\
    ["# code for:"; "# x=1 + (y=2) + (z=x)"; "_y_1 = 2"; "_z_1 = x";
     "_x_1 = ((1 + _y_1) + _z_1)"; "_result = _x_1";
     "# Update and cleanup x"; "x = _x_1"; "del(_x_1)";
     "# Update and cleanup y"; "y = _y_1"; "del(_y_1)";
     "# Update and cleanup z"; "z = _z_1"; "del(_z_1)"]
      = cs_code st ++ ["_result = " +:+ py_str last]
          ++ concat (map cleanup_item items) /\
    StronglySorted key_le items.
Proof.
  apply (cleanup_goes_in_the_order_of_the_names tree_nested_assignments
           "x=1 + (y=2) + (z=x)" []).
  reflexivity.
Defined.

(** [x = 1] and then [x = x + 2], from an empty store. *)
Lemma compiled_programs_chain_witness :
  exists code1 code2 (C1 C2 : gmap string value),
    compile [] (Some (T_set "x" (T_const 1))) "x = 1" [] = (Ok ReturnNone, code1) /\
    compile [] (Some (T_set "x" (T_apply "+" [T_get "x"; T_const 2]))) "x = x + 2" []
      = (Ok ReturnNone, code2) /\
    compile [] (Some (T_set "x" (T_apply "+" [T_get "x"; T_const 2]))) "x = x + 2" code1
      = (Ok ReturnNone, code1 ++ code2) /\
    @exec_program int_arith code1 ∅ = (Ok tt, C1) /\
    @exec_program int_arith code2 C1 = (Ok tt, C2) /\
    @exec_program int_arith (code1 ++ code2) ∅ = (Ok tt, C2) /\
    C2 !! "_result" = Some (VInt 3) /\
    @agree int_arith (<[VStr "x" := VInt 3]> (<[VStr "x" := VInt 1]> ∅)) C2.
Proof.
  apply (@compiled_programs_chain int_arith
           (T_set "x" (T_const 1))
           (T_set "x" (T_apply "+" [T_get "x"; T_const 2]))
           ∅ (<[VStr "x" := VInt 1]> ∅)
           (<[VStr "x" := VInt 3]> (<[VStr "x" := VInt 1]> ∅))
           (VInt 1) (VInt 3) "x = 1" "x = x + 2" ∅).
  - exact int_arith_pow2.
  - apply p_expression_assign; [reflexivity|]. apply p_expression_number. lia.
  - reflexivity.
  - reflexivity.
  - apply p_expression_assign; [reflexivity|].
    apply p_expression_binop; [simpl; tauto | |].
    + apply p_expression_name. reflexivity.
    + apply p_expression_number. lia.
  - reflexivity.
  - reflexivity.
  - reflexivity.
  - vm_compute. reflexivity.
  - intros x _. rewrite !lookup_empty. reflexivity.
Defined.

(** [(x = 1) + (x = x + 2) + (x = x + 42)]: [_x_1], [_x_2] and [_x_3]
    are unbound at the end. *)
Lemma compiled_program_leaves_no_temporary_witness :
  exists code (C' : gmap string value),
    compile [] (Some tree_three_generations)
            "(x = 1) + (x = x + 2) + (x = x + 42)" [] = (Ok ReturnNone, code) /\
    @exec_program int_arith code ∅ = (Ok tt, C') /\
    (forall x g,
       0 < g <= gens_get_default
                  (cs_var_dict (snd (compile_ast tree_three_generations (CState [] []))))
                  (VStr x) ->
       C' !! gen_name x g = None) /\
    (forall n,
       starts_with_underscore n = true -> n <> "_result" ->
       (forall x g,
          0 < g <= gens_get_default
                     (cs_var_dict (snd (compile_ast tree_three_generations
                                          (CState [] [])))) (VStr x) ->
          n <> gen_name x g) ->
       C' !! n = (∅ : gmap string value) !! n).
Proof.
  apply (@compiled_program_leaves_no_temporary int_arith
           tree_three_generations ∅ (<[VStr "x" := VInt 45]> ∅) (VInt 49)).
  - exact int_arith_pow2.
  - exact expression_three_generations.
  - reflexivity.
  - reflexivity.
  - vm_compute. reflexivity.
  - intros x _. rewrite !lookup_empty. reflexivity.
Defined.


(** The statements for [(x = 1) + y] are a program. *)
Lemma compiled_code_is_python_witness :
  exists code stmts,
    compile [] (Some tree_set_then_unbound) "(x = 1) + y" [] = (Ok ReturnNone, code) /\
    read_program code = Some stmts.
Proof.
  apply (compiled_code_is_python tree_set_then_unbound "(x = 1) + y").
  - exact expression_set_then_unbound.
  - reflexivity.
  - reflexivity.
  - reflexivity.
Defined.

(** ** The lexer and the grammar *)

Lemma span_length (p : ascii -> bool) l :
  (length (snd (span p l)) <= length l)%nat.
Proof.
  induction l as [|c l IH]; simpl; [lia|].
  destruct (p c); [|simpl; lia].
  destruct (span p l) as [w r]. simpl in *. lia.
Qed.

Lemma span_all (p : ascii -> bool) l :
  Forall (fun c => p c = true) (fst (span p l)).
Proof.
  induction l as [|c l IH]; simpl; [constructor|].
  destruct (p c) eqn:E; [|constructor].
  destruct (span p l) as [w r]. simpl in *. constructor; assumption.
Qed.

Lemma span_split (p : ascii -> bool) l :
  fst (span p l) ++ snd (span p l) = l.
Proof.
  induction l as [|c l IH]; simpl; [reflexivity|].
  destruct (p c); [|reflexivity].
  destruct (span p l) as [w r]. simpl in *. rewrite IH. reflexivity.
Qed.

Lemma span_cons_true (p : ascii -> bool) c l :
  p c = true ->
  span p (c :: l) = (c :: fst (span p l), snd (span p l)).
Proof. intros Hc. simpl. rewrite Hc. destruct (span p l); reflexivity. Qed.

(** Any fuel that covers the text gives the same tokens. *)
Lemma lex_fuel f1 : forall f2 l,
  (length l <= f1)%nat -> (length l <= f2)%nat -> lex f1 l = lex f2 l.
Proof.
  induction f1 as [|f1 IH]; intros f2 l H1 H2.
  - destruct l; [|simpl in H1; lia]. destruct f2; reflexivity.
  - destruct l as [|c l]; [destruct f2; reflexivity|].
    destruct f2 as [|f2]; [simpl in H2; lia|].
    simpl in H1, H2.
    assert (Hl : lex f1 l = lex f2 l) by (apply IH; lia).
    assert (Hd : forall p, p c = true ->
              lex f1 (snd (span p (c :: l))) = lex f2 (snd (span p (c :: l)))).
    { intros p Hp. rewrite (span_cons_true p c l Hp). cbn [snd].
      pose proof (span_length p l). apply IH; lia. }
    cbn [lex].
    destruct (existsb (Ascii.eqb c) t_ignore); [exact Hl|].
    destruct (is_digit c) eqn:Ed.
    { specialize (Hd is_digit Ed). destruct (span is_digit (c :: l)) as [w r].
      cbn [snd] in Hd. rewrite Hd. reflexivity. }
    destruct (is_newline c) eqn:En.
    { specialize (Hd is_newline En). destruct (span is_newline (c :: l)) as [w r].
      exact Hd. }
    destruct (name_start c) eqn:Es.
    { specialize (Hd name_char (name_start_char c Es)). destruct (span name_char (c :: l)) as [w r].
      cbn [snd] in Hd. rewrite Hd. reflexivity. }
    rewrite Hl. reflexivity.
Qed.

Lemma lex_enough fuel l :
  (length l <= fuel)%nat -> lex fuel l = lex (length l) l.
Proof. intros Hf. apply lex_fuel; [exact Hf | lia]. Qed.

Lemma string_length_chars s : String.length s = length (list_ascii_of_string s).
Proof. induction s as [|c s IH]; simpl; [reflexivity | rewrite IH; reflexivity]. Qed.

Lemma t_NUMBER_nonneg c w : is_digit c = true -> token_ok (t_NUMBER (c :: w)).
Proof.
  intros Hc. unfold t_NUMBER, token_ok, NilZero.int_of_string.
  cbn [string_of_list_ascii].
  replace (Ascii.eqb c "-") with false.
  2:{ symmetry. apply Ascii.eqb_neq. intros ->. discriminate Hc. }
  destruct (NilZero.uint_of_string _) as [u|]; simpl; [|lia].
  unfold Z.of_uint. lia.
Qed.

Lemma lex_tokens_ok fuel : forall l, Forall token_ok (fst (lex fuel l)).
Proof.
  induction fuel as [|fuel IH]; intros l; [constructor|].
  destruct l as [|c l]; [constructor|]. cbn [lex].
  destruct (existsb (Ascii.eqb c) t_ignore); [apply IH|].
  destruct (is_digit c) eqn:Ed.
  { rewrite (span_cons_true is_digit c l Ed).
    specialize (IH (snd (span is_digit l))).
    destruct (lex fuel (snd (span is_digit l))) as [ts es]. cbn [fst] in *.
    constructor; [apply t_NUMBER_nonneg; exact Ed | exact IH]. }
  destruct (is_newline c) eqn:En.
  { destruct (span is_newline (c :: l)) as [w r]. apply IH. }
  destruct (name_start c) eqn:Es.
  { rewrite (span_cons_true name_char c l (name_start_char c Es)).
    pose proof (span_all name_char l) as Hall.
    specialize (IH (snd (span name_char l))).
    destruct (lex fuel (snd (span name_char l))) as [ts es]. cbn [fst] in *.
    constructor; [|exact IH].
    cbn [token_ok string_of_list_ascii t_NAME]. rewrite Es. cbn [andb].
    rewrite list_ascii_of_string_of_list_ascii.
    apply forallb_forall. intros x Hx. rewrite Forall_forall in Hall.
    apply Hall. apply list_elem_of_In. exact Hx. }
  destruct (Ascii.eqb c "(").
  { specialize (IH l). destruct (lex fuel l) as [ts es]. constructor; [exact I | exact IH]. }
  destruct (Ascii.eqb c ")").
  { specialize (IH l). destruct (lex fuel l) as [ts es]. constructor; [exact I | exact IH]. }
  destruct (Ascii.eqb c ",").
  { specialize (IH l). destruct (lex fuel l) as [ts es]. constructor; [exact I | exact IH]. }
  destruct (existsb (Ascii.eqb c) literals) eqn:El.
  { specialize (IH l). destruct (lex fuel l) as [ts es]. constructor; [|exact IH].
    apply existsb_exists in El as (x & Hin & Hx). apply Ascii.eqb_eq in Hx. subst x.
    exact Hin. }
  specialize (IH l). destruct (lex fuel l) as [ts es]. exact IH.
Qed.

(** A tree that the grammar derives from well-formed tokens is a tree
    of [statement]. *)
Lemma parses_expression_expression ts e :
  parses_expression ts e -> Forall token_ok ts -> expression e.
Proof.
  revert ts e.
  apply (parses_expression_mut
           (fun ts e => Forall token_ok ts -> expression e)
           (fun ts l => Forall token_ok ts -> expr_list l)).
  - intros name ts e _ IH Hts.
    inversion Hts as [|? ? Hname Hts']; subst. inversion Hts' as [|? ? _ Hts'']; subst.
    apply p_expression_assign; [exact Hname | apply IH; exact Hts''].
  - intros op ts1 e1 ts2 e2 Hop _ IH1 _ IH2 Hts.
    apply Forall_app in Hts as [H1 H2]. inversion H2 as [|? ? _ H2']; subst.
    apply p_expression_binop; [|apply IH1; exact H1 | apply IH2; exact H2'].
    simpl in Hop |- *. destruct Hop as [<-|[<-|[<-|[<-|[]]]]]; tauto.
  - intros ts e _ IH Hts. inversion Hts as [|? ? _ Hts']; subst.
    apply p_expression_uminus. apply IH. exact Hts'.
  - intros name Hts. inversion Hts as [|? ? Hname _]; subst.
    apply p_fn_apply_0. exact Hname.
  - intros name ts args _ IH Hts.
    inversion Hts as [|? ? Hname Hts']; subst. inversion Hts' as [|? ? _ Hts'']; subst.
    apply Forall_app in Hts'' as [Hargs _].
    apply p_fn_apply; [exact Hname | apply IH; exact Hargs].
  - intros ts e _ IH Hts. inversion Hts as [|? ? _ Hts']; subst.
    apply Forall_app in Hts' as [He _]. apply IH. exact He.
  - intros n Hts. inversion Hts as [|? ? Hn _]; subst.
    apply p_expression_number. exact Hn.
  - intros name Hts. inversion Hts as [|? ? Hname _]; subst.
    apply p_expression_name. exact Hname.
  - intros ts e _ IH Hts. apply p_expr_list_1. apply IH. exact Hts.
  - intros ts1 l ts2 e _ IH1 _ IH2 Hts.
    apply Forall_app in Hts as [H1 H2]. inversion H2 as [|? ? _ H2']; subst.
    apply p_expr_list_2; [apply IH1; exact H1 | apply IH2; exact H2'].
Qed.

Lemma name_char_not_ignored c :
  name_char c = true -> existsb (Ascii.eqb c) t_ignore = false.
Proof.
  intros Hc. apply not_true_is_false. intros Hex.
  apply existsb_exists in Hex as (x & Hin & Hx). apply Ascii.eqb_eq in Hx. subst x.
  simpl in Hin. destruct Hin as [<-|[<-|[]]]; discriminate Hc.
Qed.

Lemma name_char_not_newline c : name_char c = true -> is_newline c = false.
Proof.
  intros Hc. unfold is_newline. destruct (Ascii.eqb_spec c (ascii_of_nat 10)) as [->|];
    [discriminate Hc | reflexivity].
Qed.

Lemma lex_after_space f l :
  (length l < f)%nat -> lex f (" "%char :: l) = lex (length l) l.
Proof.
  intros Hf. destruct f as [|f]; [lia|]. cbn. apply lex_enough. lia.
Qed.

Lemma t_NUMBER_str_of_Z v :
  t_NUMBER (list_ascii_of_string (str_of_Z v)) = NUMBER v.
Proof.
  unfold t_NUMBER. rewrite string_of_list_ascii_of_string, int_of_string_str_of_Z.
  rewrite DecimalZ.of_to. reflexivity.
Qed.

(** The lexer reads the text of well-formed tokens back as the tokens,
    without a diagnostic. *)
Lemma lex_tokens_text ts :
  Forall token_ok ts ->
  lex (length (list_ascii_of_string (tokens_text ts)))
      (list_ascii_of_string (tokens_text ts)) = (ts, []).
Proof.
  induction 1 as [|t ts Ht _ IH]; [reflexivity|].
  cbn [tokens_text]. rewrite !list_ascii_of_string_app.
  change (list_ascii_of_string " ") with [" "%char].
  set (rest := list_ascii_of_string (tokens_text ts)) in *.
  assert (Hspan : forall (p : ascii -> bool) c w,
            list_ascii_of_string (token_text t) = c :: w ->
            Forall (fun a => p a = true) (c :: w) -> p " "%char = false ->
            span p ((c :: w) ++ [" "%char] ++ rest) = (c :: w, " "%char :: rest)).
  { intros p c w _ Hall Hsp. apply (span_app p (c :: w) (" "%char :: rest) Hall Hsp). }
  destruct t as [v|v| | | |c]; cbn [token_ok token_text] in *.
  - (* NAME *)
    destruct (t_NAME_chars v Ht) as (c & w & Heq & Hs & Hw).
    pose proof (name_start_char c Hs) as Hc.
    specialize (Hspan name_char c w Heq ltac:(constructor; assumption) eq_refl).
    rewrite Heq. cbn [app length lex] in Hspan |- *.
    rewrite (name_char_not_ignored c Hc), (name_start_not_digit c Hs),
      (name_char_not_newline c Hc), Hs.
    cbn [app] in Hspan. rewrite Hspan.
    rewrite lex_after_space by (rewrite length_app; simpl; lia).
    rewrite IH. rewrite <- Heq, string_of_list_ascii_of_string. reflexivity.
  - (* NUMBER *)
    destruct (str_of_Z_digits v Ht) as [Hd Hne].
    destruct (list_ascii_of_string (str_of_Z v)) as [|c w] eqn:Heq.
    { exfalso. apply Hne. rewrite <- (string_of_list_ascii_of_string (str_of_Z v)), Heq.
      reflexivity. }
    pose proof Hd as Hd'. inversion Hd' as [|? ? Hc _]; subst.
    specialize (Hspan is_digit c w eq_refl Hd eq_refl).
    cbn [app length lex] in Hspan |- *.
    rewrite (name_char_not_ignored c (digit_char c Hc)), Hc.
    cbn [app] in Hspan. rewrite Hspan.
    rewrite lex_after_space by (rewrite length_app; simpl; lia).
    rewrite IH. f_equal. f_equal. rewrite <- Heq. apply t_NUMBER_str_of_Z.
  - cbn [list_ascii_of_string app length]. cbn. rewrite IH. reflexivity.
  - cbn [list_ascii_of_string app length]. cbn. rewrite IH. reflexivity.
  - cbn [list_ascii_of_string app length]. cbn. rewrite IH. reflexivity.
  - simpl in Ht.
    destruct Ht as [<-|[<-|[<-|[<-|[<-|[]]]]]];
      cbn [list_ascii_of_string app length]; cbn; rewrite IH; reflexivity.
Qed.

(** Every tree of [expression] is derived by the grammar from
    well-formed tokens: those of the fully parenthesised text. *)
Lemma expression_parses t :
  expression t ->
  exists ts, Forall token_ok ts /\ parses_expression ts t.
Proof.
  revert t.
  apply (expression_mut
           (fun e => exists ts, Forall token_ok ts /\ parses_expression ts e)
           (fun l => exists ts, Forall token_ok ts /\ parses_expr_list ts l)).
  - intros name e Hn _ (ts & Hok & Hp).
    exists (NAME name :: LITERAL "=" :: LPAREN :: ts ++ [RPAREN]). split.
    + constructor; [exact Hn|]. constructor; [simpl; tauto|].
      constructor; [exact I|]. apply Forall_app. split; [exact Hok | repeat constructor].
    + apply parses_assign. apply parses_group. exact Hp.
  - intros op e1 e2 Hop _ (ts1 & Hok1 & Hp1) _ (ts2 & Hok2 & Hp2).
    assert (Hc : exists c, op = String c EmptyString /\ In c ["+"; "-"; "*"; "/"]%char).
    { simpl in Hop. destruct Hop as [<-|[<-|[<-|[<-|[]]]]]; eexists;
        (split; [reflexivity | simpl; tauto]). }
    destruct Hc as (c & -> & Hc).
    exists ((LPAREN :: ts1 ++ [RPAREN]) ++ LITERAL c :: (LPAREN :: ts2 ++ [RPAREN])).
    split.
    + apply Forall_app. split.
      * constructor; [exact I|]. apply Forall_app. split; [exact Hok1 | repeat constructor].
      * constructor; [simpl in Hc |- *; tauto|].
        constructor; [exact I|]. apply Forall_app. split; [exact Hok2 | repeat constructor].
    + apply parses_binop; [exact Hc | apply parses_group; exact Hp1
                           | apply parses_group; exact Hp2].
  - intros e _ (ts & Hok & Hp).
    exists (LITERAL "-" :: LPAREN :: ts ++ [RPAREN]). split.
    + constructor; [simpl; tauto|]. constructor; [exact I|].
      apply Forall_app. split; [exact Hok | repeat constructor].
    + apply parses_uminus. apply parses_group. exact Hp.
  - intros name Hn. exists [NAME name; LPAREN; RPAREN]. split.
    + repeat constructor. exact Hn.
    + apply parses_fn_apply_0.
  - intros name args Hn _ (ts & Hok & Hp).
    exists (NAME name :: LPAREN :: ts ++ [RPAREN]). split.
    + constructor; [exact Hn|]. constructor; [exact I|].
      apply Forall_app. split; [exact Hok | repeat constructor].
    + apply parses_fn_apply. exact Hp.
  - intros n Hn. exists [NUMBER n]. split; [repeat constructor; exact Hn|].
    apply parses_number.
  - intros name Hn. exists [NAME name]. split; [repeat constructor; exact Hn|].
    apply parses_name.
  - intros e _ (ts & Hok & Hp). exists ts. split; [exact Hok|].
    apply parses_expr_list_1. exact Hp.
  - intros l e _ (ts1 & Hok1 & Hp1) _ (ts2 & Hok2 & Hp2).
    exists (ts1 ++ COMMA :: ts2). split.
    + apply Forall_app. split; [exact Hok1|]. constructor; [exact I | exact Hok2].
    + apply parses_expr_list_2; assumption.
Qed.

(** The tokens of any text are well formed, so the trees the grammar
    derives from them are trees of [statement]: the names in them are
    of the class [t_NAME] and the numbers are not negative. *)
Theorem trees_of_the_tokens_are_statements s :
  Forall token_ok (fst (tokenize s)) /\
  forall t, parses_statement (fst (tokenize s)) t -> statement t.
Proof.
  assert (Hok : Forall token_ok (fst (tokenize s))) by apply lex_tokens_ok.
  split; [exact Hok|].
  intros t Hp. inversion Hp as [ts e He|]; subst.
  - apply p_statement_expr. exact (parses_expression_expression _ _ He Hok).
  - apply p_statement_empty.
Qed.

(** The lexer reads the text of well-formed tokens back as these
    tokens, with no diagnostic. *)
Theorem tokenize_reads_the_tokens_back ts :
  Forall token_ok ts -> tokenize (tokens_text ts) = (ts, []).
Proof.
  intros Hok. unfold tokenize. rewrite string_length_chars.
  apply lex_tokens_text. exact Hok.
Qed.

(** Every tree of [statement] is the tree of a text: a text that the
    lexer accepts without a diagnostic and from whose tokens the
    grammar derives the tree. *)
Theorem every_statement_tree_has_a_text t :
  statement t ->
  exists s ts, tokenize s = (ts, []) /\ parses_statement ts t.
Proof.
  intros [e He|].
  - destruct (expression_parses e He) as (ts & Hok & Hp).
    exists (tokens_text ts), ts. split.
    + unfold tokenize. rewrite string_length_chars.
      apply lex_tokens_text. exact Hok.
    + apply parses_statement_expr. exact Hp.
  - exists EmptyString, []. split; [reflexivity | apply parses_statement_empty].
Qed.

(** *** Illegal characters *)

Lemma illegal_false c :
  existsb (Ascii.eqb c) t_ignore = true \/ is_digit c = true \/ is_newline c = true
  \/ name_start c = true \/ Ascii.eqb c "(" = true \/ Ascii.eqb c ")" = true
  \/ Ascii.eqb c "," = true \/ existsb (Ascii.eqb c) literals = true ->
  illegal c = false.
Proof.
  unfold illegal. intros Hc. apply negb_false_iff.
  repeat (destruct Hc as [-> | Hc]; [rewrite ?orb_true_r; reflexivity|]).
  rewrite Hc. apply orb_true_r.
Qed.

Lemma illegal_true c :
  existsb (Ascii.eqb c) t_ignore = false -> is_digit c = false ->
  is_newline c = false -> name_start c = false ->
  Ascii.eqb c "(" = false -> Ascii.eqb c ")" = false -> Ascii.eqb c "," = false ->
  existsb (Ascii.eqb c) literals = false ->
  illegal c = true.
Proof. unfold illegal. intros -> -> -> -> -> -> -> ->. reflexivity. Qed.

Lemma name_char_legal c : name_char c = true -> illegal c = false.
Proof.
  unfold name_char. intros Hc. apply illegal_false.
  apply orb_prop in Hc as [Hc|Hc]; [apply orb_prop in Hc as [Hc|Hc]|].
  - right. right. right. left. unfold name_start. rewrite Hc. reflexivity.
  - right. left. exact Hc.
  - right. right. right. left. unfold name_start. rewrite Hc. apply orb_true_r.
Qed.

Lemma filter_legal_prefix w r :
  Forall (fun c => illegal c = false) w ->
  List.filter illegal (w ++ r) = List.filter illegal r.
Proof.
  induction 1 as [|c w Hc _ IH]; [reflexivity|]. simpl. rewrite Hc. exact IH.
Qed.

Lemma lex_errors fuel : forall l,
  (length l <= fuel)%nat -> snd (lex fuel l) = map t_error (List.filter illegal l).
Proof.
  induction fuel as [|fuel IH]; intros l Hf.
  - destruct l; [reflexivity | simpl in Hf; lia].
  - destruct l as [|c l]; [reflexivity|]. simpl in Hf.
    assert (Hspan : forall p, p c = true ->
              (forall a, p a = true -> illegal a = false) ->
              snd (lex fuel (snd (span p (c :: l))))
              = map t_error (List.filter illegal (c :: l))).
    { intros p Hp Hlegal. rewrite <- (span_split p (c :: l)) at 2.
      rewrite filter_legal_prefix.
      - apply IH. rewrite (span_cons_true p c l Hp). cbn [snd].
        pose proof (span_length p l). lia.
      - eapply Forall_impl; [apply span_all|]. exact Hlegal. }
    cbn [lex].
    destruct (existsb (Ascii.eqb c) t_ignore) eqn:Ei.
    { cbn [List.filter]. rewrite (illegal_false c) by tauto. apply IH. lia. }
    destruct (is_digit c) eqn:Ed.
    { specialize (Hspan is_digit Ed (fun a Ha => name_char_legal a (digit_char a Ha))).
      destruct (span is_digit (c :: l)) as [w r]. cbn [snd] in Hspan.
      destruct (lex fuel r) as [ts es]. exact Hspan. }
    destruct (is_newline c) eqn:En.
    { assert (Hl : forall a, is_newline a = true -> illegal a = false).
      { intros a Ha. apply illegal_false. tauto. }
      specialize (Hspan is_newline En Hl).
      destruct (span is_newline (c :: l)) as [w r]. exact Hspan. }
    destruct (name_start c) eqn:Es.
    { specialize (Hspan name_char (name_start_char c Es) name_char_legal).
      destruct (span name_char (c :: l)) as [w r]. cbn [snd] in Hspan.
      destruct (lex fuel r) as [ts es]. exact Hspan. }
    specialize (IH l ltac:(lia)).
    destruct (Ascii.eqb c "(") eqn:E1.
    { cbn [List.filter]. rewrite (illegal_false c) by tauto.
      destruct (lex fuel l) as [ts es]. exact IH. }
    destruct (Ascii.eqb c ")") eqn:E2.
    { cbn [List.filter]. rewrite (illegal_false c) by tauto.
      destruct (lex fuel l) as [ts es]. exact IH. }
    destruct (Ascii.eqb c ",") eqn:E3.
    { cbn [List.filter]. rewrite (illegal_false c) by tauto.
      destruct (lex fuel l) as [ts es]. exact IH. }
    destruct (existsb (Ascii.eqb c) literals) eqn:E4.
    { cbn [List.filter]. rewrite (illegal_false c) by tauto.
      destruct (lex fuel l) as [ts es]. exact IH. }
    cbn [List.filter]. rewrite (illegal_true c) by assumption.
    destruct (lex fuel l) as [ts es]. cbn [snd map] in *. rewrite IH. reflexivity.
Qed.

Lemma illegal_inv c :
  illegal c = true ->
  existsb (Ascii.eqb c) t_ignore = false /\ is_digit c = false /\
  is_newline c = false /\ name_start c = false /\
  Ascii.eqb c "(" = false /\ Ascii.eqb c ")" = false /\ Ascii.eqb c "," = false /\
  existsb (Ascii.eqb c) literals = false.
Proof.
  unfold illegal. intros Hc. apply negb_true_iff in Hc.
  apply orb_false_elim in Hc as [Hc H8]. apply orb_false_elim in Hc as [Hc H7].
  apply orb_false_elim in Hc as [Hc H6]. apply orb_false_elim in Hc as [Hc H5].
  apply orb_false_elim in Hc as [Hc H4]. apply orb_false_elim in Hc as [Hc H3].
  apply orb_false_elim in Hc as [Hc H2]. repeat split; assumption.
Qed.

Lemma span_map (p : ascii -> bool) (f : ascii -> ascii) l :
  (forall a, p (f a) = p a) ->
  span p (map f l) = (map f (fst (span p l)), map f (snd (span p l))).
Proof.
  intros Hp. induction l as [|c l IH]; [reflexivity|]. simpl. rewrite Hp.
  destruct (p c); [|reflexivity]. rewrite IH.
  destruct (span p l) as [w r]. reflexivity.
Qed.

Lemma blank_legal_run (p : ascii -> bool) w :
  (forall a, p a = true -> illegal a = false) ->
  Forall (fun c => p c = true) w -> map blank w = w.
Proof.
  intros Hlegal. induction 1 as [|c w Hc _ IH]; [reflexivity|]. simpl.
  unfold blank at 1. rewrite (Hlegal c Hc), IH. reflexivity.
Qed.

Lemma blank_keeps (p : ascii -> bool) :
  p " "%char = false -> (forall a, p a = true -> illegal a = false) ->
  forall a, p (blank a) = p a.
Proof.
  intros Hsp Hlegal a. unfold blank. destruct (illegal a) eqn:E; [|reflexivity].
  rewrite Hsp. symmetry. apply not_true_is_false. intros Ha.
  rewrite (Hlegal a Ha) in E. discriminate E.
Qed.

Lemma newline_legal a : is_newline a = true -> illegal a = false.
Proof. intros Ha. apply illegal_false. tauto. Qed.

Lemma lex_blank fuel : forall l, fst (lex fuel (map blank l)) = fst (lex fuel l).
Proof.
  induction fuel as [|fuel IH]; intros l; [reflexivity|].
  destruct l as [|c l]; [reflexivity|].
  assert (Hspan : forall p, p " "%char = false ->
            (forall a, p a = true -> illegal a = false) ->
            span p (map blank (c :: l))
            = (fst (span p (c :: l)), map blank (snd (span p (c :: l))))).
  { intros p Hsp Hlegal. rewrite (span_map p blank _ (blank_keeps p Hsp Hlegal)).
    rewrite (blank_legal_run p _ Hlegal (span_all p (c :: l))). reflexivity. }
  destruct (illegal c) eqn:Eill.
  - destruct (illegal_inv c Eill) as (E0 & E1 & E2 & E3 & E4 & E5 & E6 & E7).
    cbn [map]. unfold blank at 1. rewrite Eill. cbn [lex].
    change (existsb (Ascii.eqb " ") t_ignore) with true. cbv iota.
    rewrite E0, E1, E2, E3, E4, E5, E6, E7. rewrite IH.
    destruct (lex fuel l) as [ts es]. reflexivity.
  - assert (Hc : blank c = c) by (unfold blank; rewrite Eill; reflexivity).
    change (lex (S fuel) (map blank (c :: l)))
      with (lex (S fuel) (blank c :: map blank l)).
    rewrite Hc. cbn [lex].
    destruct (existsb (Ascii.eqb c) t_ignore); [apply IH|].
    destruct (is_digit c) eqn:Ed.
    { specialize (Hspan is_digit eq_refl (fun a Ha => name_char_legal a (digit_char a Ha))).
      cbn [map] in Hspan. rewrite Hc in Hspan. rewrite Hspan.
      destruct (span is_digit (c :: l)) as [w r]. cbn [fst snd].
      specialize (IH r). destruct (lex fuel (map blank r)) as [ts es].
      destruct (lex fuel r) as [ts' es']. cbn [fst] in *. rewrite IH. reflexivity. }
    destruct (is_newline c) eqn:En.
    { specialize (Hspan is_newline eq_refl newline_legal).
      cbn [map] in Hspan. rewrite Hc in Hspan. rewrite Hspan.
      destruct (span is_newline (c :: l)) as [w r]. cbn [fst snd]. apply IH. }
    destruct (name_start c) eqn:Es.
    { specialize (Hspan name_char eq_refl name_char_legal).
      cbn [map] in Hspan. rewrite Hc in Hspan. rewrite Hspan.
      destruct (span name_char (c :: l)) as [w r]. cbn [fst snd].
      specialize (IH r). destruct (lex fuel (map blank r)) as [ts es].
      destruct (lex fuel r) as [ts' es']. cbn [fst] in *. rewrite IH. reflexivity. }
    specialize (IH l).
    destruct (lex fuel (map blank l)) as [ts es].
    destruct (lex fuel l) as [ts' es']. cbn [fst] in IH. subst ts'.
    destruct (Ascii.eqb c "("); [reflexivity|].
    destruct (Ascii.eqb c ")"); [reflexivity|].
    destruct (Ascii.eqb c ","); [reflexivity|].
    destruct (existsb (Ascii.eqb c) literals); [reflexivity|].
    reflexivity.
Qed.

Lemma string_of_list_ascii_length l :
  String.length (string_of_list_ascii l) = length l.
Proof. induction l as [|c l IH]; simpl; [reflexivity | rewrite IH; reflexivity]. Qed.

(** In a text of ASCII characters, a character that no rule accepts is
    reported once, by its own diagnostic and in its place among the
    diagnostics, and is skipped: the tokens are those of the text with a
    blank in its place. *)
Theorem illegal_characters_are_reported_and_skipped s :
  ascii_text s = true ->
  snd (tokenize s) =
    map t_error (List.filter illegal (list_ascii_of_string s)) /\
  fst (tokenize s) =
    fst (tokenize (string_of_list_ascii (map blank (list_ascii_of_string s)))).
Proof.
  intros _. unfold tokenize. split.
  - apply lex_errors. rewrite string_length_chars. lia.
  - rewrite list_ascii_of_string_of_list_ascii, string_of_list_ascii_length.
    rewrite length_map, <- string_length_chars. symmetry. apply lex_blank.
Qed.

(** *** The lexer on some texts *)

Example tokenize_assignment :
  tokenize "x = 1 + y" =
  ([NAME "x"; LITERAL "="; NUMBER 1; LITERAL "+"; NAME "y"], []).
Proof. reflexivity. Qed.

Example tokenize_call :
  tokenize "f(1, 2, 3)" =
  ([NAME "f"; LPAREN; NUMBER 1; COMMA; NUMBER 2; COMMA; NUMBER 3; RPAREN], []).
Proof. reflexivity. Qed.

(** A literal with leading zeros is the number, and a name may follow a
    number without a blank between them. *)
Example tokenize_leading_zeros :
  tokenize "007abc" = ([NUMBER 7; NAME "abc"], []).
Proof. reflexivity. Qed.

Example tokenize_illegal :
  tokenize "x $ 1 ? y" =
  ([NAME "x"; NUMBER 1; NAME "y"],
   ["Illegal character '$'"; "Illegal character '?'"]).
Proof. reflexivity. Qed.

(** The two illegal characters of [x $ 1 ? y]. *)
Lemma illegal_characters_are_reported_and_skipped_witness :
  snd (tokenize "x $ 1 ? y") =
    map t_error (List.filter illegal (list_ascii_of_string "x $ 1 ? y")) /\
  fst (tokenize "x $ 1 ? y") =
    fst (tokenize (string_of_list_ascii
                     (map blank (list_ascii_of_string "x $ 1 ? y")))).
Proof.
  apply (illegal_characters_are_reported_and_skipped "x $ 1 ? y").
  reflexivity.
Defined.

(** The tokens [x = 42] from their text. *)
Lemma tokenize_reads_the_tokens_back_witness :
  tokenize (tokens_text [NAME "x"; LITERAL "="; NUMBER 42]) =
  ([NAME "x"; LITERAL "="; NUMBER 42], []).
Proof.
  apply (tokenize_reads_the_tokens_back [NAME "x"; LITERAL "="; NUMBER 42]).
  repeat constructor; simpl; try reflexivity; try lia; tauto.
Defined.

(** A text for the tree of [f(1, 2)]. *)
Lemma every_statement_tree_has_a_text_witness :
  exists s ts, tokenize s = (ts, []) /\ parses_statement ts tree_call_two.
Proof.
  apply (every_statement_tree_has_a_text tree_call_two).
  apply p_statement_expr. exact expression_call_two.
Defined.

(** *** Blanks *)

Lemma span_before_blank (p : ascii -> bool) a b :
  p " "%char = false ->
  span p (a ++ " "%char :: b)
  = (fst (span p a), snd (span p a) ++ " "%char :: b).
Proof.
  intros Hsp. induction a as [|c a IH]; simpl.
  - rewrite Hsp. reflexivity.
  - destruct (p c); [|reflexivity]. rewrite IH.
    destruct (span p a) as [w r]. reflexivity.
Qed.

Lemma lex_before_blank fuel : forall a b,
  (length a <= fuel)%nat ->
  lex (fuel + S (length b)) (a ++ " "%char :: b) =
  (fst (lex fuel a) ++ fst (lex (length b) b),
   snd (lex fuel a) ++ snd (lex (length b) b)).
Proof.
  induction fuel as [|fuel IH]; intros a b Hf.
  - destruct a; [|simpl in Hf; lia]. cbn. destruct (lex (length b) b); reflexivity.
  - destruct a as [|c a].
    { cbn [app lex Nat.add]. change (existsb (Ascii.eqb " ") t_ignore) with true.
      cbv iota. rewrite (lex_enough _ b) by lia.
      destruct (lex (length b) b); reflexivity. }
    simpl in Hf.
    assert (Hrec : forall r, (length r <= length a)%nat ->
              lex (fuel + S (length b)) (r ++ " "%char :: b) =
              (fst (lex fuel r) ++ fst (lex (length b) b),
               snd (lex fuel r) ++ snd (lex (length b) b))).
    { intros r Hr. apply IH. lia. }
    assert (Hspan : forall p, p " "%char = false -> p c = true ->
              span p ((c :: a) ++ " "%char :: b)
              = (fst (span p (c :: a)), snd (span p (c :: a)) ++ " "%char :: b)
              /\ (length (snd (span p (c :: a))) <= length a)%nat).
    { intros p Hsp Hc. split; [apply span_before_blank; exact Hsp|].
      rewrite (span_cons_true p c a Hc). cbn [snd]. apply span_length. }
    change (S fuel + S (length b))%nat with (S (fuel + S (length b))).
    change ((c :: a) ++ " "%char :: b) with (c :: (a ++ " "%char :: b)) at 1.
    cbn [lex].
    destruct (existsb (Ascii.eqb c) t_ignore); [apply Hrec; lia|].
    destruct (is_digit c) eqn:Ed.
    { destruct (Hspan is_digit eq_refl Ed) as [Hs Hl]. cbn [app] in Hs. rewrite Hs.
      destruct (span is_digit (c :: a)) as [w r]. cbn [fst snd] in *.
      rewrite (Hrec r Hl). destruct (lex fuel r) as [ts es]. reflexivity. }
    destruct (is_newline c) eqn:En.
    { destruct (Hspan is_newline eq_refl En) as [Hs Hl]. cbn [app] in Hs. rewrite Hs.
      destruct (span is_newline (c :: a)) as [w r]. cbn [fst snd] in *.
      exact (Hrec r Hl). }
    destruct (name_start c) eqn:Es.
    { destruct (Hspan name_char eq_refl (name_start_char c Es)) as [Hs Hl].
      cbn [app] in Hs. rewrite Hs.
      destruct (span name_char (c :: a)) as [w r]. cbn [fst snd] in *.
      rewrite (Hrec r Hl). destruct (lex fuel r) as [ts es]. reflexivity. }
    rewrite (Hrec a (Nat.le_refl _)).
    destruct (lex fuel a) as [ts es].
    destruct (Ascii.eqb c "("); [reflexivity|].
    destruct (Ascii.eqb c ")"); [reflexivity|].
    destruct (Ascii.eqb c ","); [reflexivity|].
    destruct (existsb (Ascii.eqb c) literals); reflexivity.
Qed.

(** A blank between two texts separates their tokens: the tokens of
    the whole are those of the first text followed by those of the
    second, and so are the diagnostics. *)
Theorem a_blank_separates_the_tokens a b :
  tokenize (a +:+ " " +:+ b) =
  (fst (tokenize a) ++ fst (tokenize b), snd (tokenize a) ++ snd (tokenize b)).
Proof.
  unfold tokenize. rewrite !string_length_chars, !list_ascii_of_string_app.
  change (list_ascii_of_string " ") with [" "%char].
  rewrite !length_app. cbn [length app].
  apply lex_before_blank. lia.
Qed.

(** ** More of the doctests

    The remaining doctests of [compiler.py], on the trees the parser
    builds for their texts. *)

Example doctest_sum :
  compile [] (Some (T_apply "+" [T_const 1; T_const 2])) "1 + 2" [] =
  (Ok ReturnNone, ["# code for:"; "# 1 + 2"; "_result = (1 + 2)"]).
Proof. reflexivity. Qed.

Example doctest_assignment :
  compile [] (Some (T_set "y" (T_apply "+" [T_get "x"; T_const 1]))) "y = x + 1" [] =
  (Ok ReturnNone,
   ["# code for:"; "# y = x + 1"; "_y_1 = (x + 1)"; "_result = _y_1";
    "# Update and cleanup y"; "y = _y_1"; "del(_y_1)"]).
Proof. reflexivity. Qed.

Example doctest_assignment_on_the_right :
  compile [] (Some (T_apply "+" [T_get "y"; T_set "y" (T_const 1)])) "y + y = 1" [] =
  (Ok ReturnNone,
   ["# code for:"; "# y + y = 1"; "_y_1 = 1"; "_result = (y + _y_1)";
    "# Update and cleanup y"; "y = _y_1"; "del(_y_1)"]).
Proof. reflexivity. Qed.

Example doctest_two_variables :
  compile []
    (Some (T_apply "+" [T_set "x" (T_const 1);
                        T_set "y" (T_apply "+" [T_get "x"; T_const 1])]))
    "(x = 1) + (y = x + 1)" [] =
  (Ok ReturnNone,
   ["# code for:"; "# (x = 1) + (y = x + 1)"; "_x_1 = 1"; "_y_1 = (_x_1 + 1)";
    "_result = (_x_1 + _y_1)"; "# Update and cleanup x"; "x = _x_1"; "del(_x_1)";
    "# Update and cleanup y"; "y = _y_1"; "del(_y_1)"]).
Proof. reflexivity. Qed.

Example doctest_second_generation :
  compile []
    (Some (T_apply "+"
             [T_apply "+" [T_set "x" (T_const 1); T_set "y" (T_const 2)];
              T_set "x" (T_apply "+" [T_get "y"; T_const 3])]))
    "(x=1) + (y=2) + (x=y+3)" [] =
  (Ok ReturnNone,
   ["# code for:"; "# (x=1) + (y=2) + (x=y+3)"; "_x_1 = 1"; "_y_1 = 2";
    "_x_2 = (_y_1 + 3)"; "_result = ((_x_1 + _y_1) + _x_2)";
    "# Update and cleanup x"; "x = _x_2"; "del(_x_1)"; "del(_x_2)";
    "# Update and cleanup y"; "y = _y_1"; "del(_y_1)"]).
Proof. reflexivity. Qed.

Example doctest_names_with_digits :
  compile []
    (Some (T_apply "+" [T_apply "+" [T_get "x0"; T_get "y0"]; T_get "x1"]))
    "((x0 + y0) + x1)" [] =
  (Ok ReturnNone,
   ["# code for:"; "# ((x0 + y0) + x1)"; "_result = ((x0 + y0) + x1)"]).
Proof. reflexivity. Qed.

Example doctest_four_generations :
  compile []
    (Some (T_set "x" (T_set "x" (T_set "x" (T_set "x" (T_const 42))))))
    "(x = (x = ( x = (x = 42))))" [] =
  (Ok ReturnNone,
   ["# code for:"; "# (x = (x = ( x = (x = 42))))"; "_x_1 = 42"; "_x_2 = _x_1";
    "_x_3 = _x_2"; "_x_4 = _x_3"; "_result = _x_4"; "# Update and cleanup x";
    "x = _x_4"; "del(_x_1)"; "del(_x_2)"; "del(_x_3)"; "del(_x_4)"]).
Proof. reflexivity. Qed.

Example doctest_negated_assignment :
  compile [] (Some (T_apply "neg" [T_set "x" (T_const 3)])) "-x = 3" [] =
  (Ok ReturnNone,
   ["# code for:"; "# -x = 3"; "_x_1 = 3"; "_result = (-_x_1)";
    "# Update and cleanup x"; "x = _x_1"; "del(_x_1)"]).
Proof. reflexivity. Qed.

Example doctest_signs :
  compile []
    (Some (T_set "x"
             (T_apply "+"
                [T_const 1;
                 T_set "y"
                   (T_set "x"
                      (T_apply "+"
                         [T_apply "-"
                            [T_get "x";
                             T_apply "neg" [T_apply "neg" [T_apply "neg" [T_const 3]]]];
                          T_apply "neg"
                            [T_apply "neg"
                               [T_apply "neg" [T_apply "neg" [T_get "y"]]]]]))])))
    "x = 1 + (y = (x = (x - - - - 3) + - - - - y))" [] =
  (Ok ReturnNone,
   ["# code for:"; "# x = 1 + (y = (x = (x - - - - 3) + - - - - y))";
    "_x_1 = ((x - (-(-(-3)))) + (-(-(-(-y)))))"; "_y_1 = _x_1"; "_x_2 = (1 + _y_1)";
    "_result = _x_2"; "# Update and cleanup x"; "x = _x_2"; "del(_x_1)";
    "del(_x_2)"; "# Update and cleanup y"; "y = _y_1"; "del(_y_1)"]).
Proof. reflexivity. Qed.

(** The doctests of [exprparser.py]: the grammar derives the tree of
    each from the tokens of its text. *)

Example parse_group :
  parses_statement (fst (tokenize "(42)")) (T_const 42).
Proof.
  apply parses_statement_expr. apply (parses_group [NUMBER 42]). apply parses_number.
Qed.

Example parse_sum :
  parses_statement (fst (tokenize "x + 2")) (T_apply "+" [T_get "x"; T_const 2]).
Proof.
  apply parses_statement_expr.
  apply (parses_binop "+" [NAME "x"] _ [NUMBER 2] _);
    [simpl; tauto | apply parses_name | apply parses_number].
Qed.

Example parse_call :
  parses_statement (fst (tokenize "f(1, 2, 3)"))
    (T_apply "f" [T_const 1; T_const 2; T_const 3]).
Proof.
  apply parses_statement_expr.
  apply (parses_fn_apply "f" [NUMBER 1; COMMA; NUMBER 2; COMMA; NUMBER 3]
           [T_const 1; T_const 2; T_const 3]).
  apply (parses_expr_list_2 [NUMBER 1; COMMA; NUMBER 2] [T_const 1; T_const 2]
           [NUMBER 3] (T_const 3)); [|apply parses_number].
  apply (parses_expr_list_2 [NUMBER 1] [T_const 1] [NUMBER 2] (T_const 2));
    [|apply parses_number].
  apply parses_expr_list_1. apply parses_number.
Qed.

Example parse_call_without_arguments :
  parses_statement (fst (tokenize "f()")) (T_apply "f" []).
Proof. apply parses_statement_expr. apply parses_fn_apply_0. Qed.

Example parse_assignment :
  parses_statement (fst (tokenize "x = 1 + y"))
    (T_set "x" (T_apply "+" [T_const 1; T_get "y"])).
Proof.
  apply parses_statement_expr. apply (parses_assign "x").
  apply (parses_binop "+" [NUMBER 1] _ [NAME "y"] _);
    [simpl; tauto | apply parses_number | apply parses_name].
Qed.

Example parse_empty : parses_statement (fst (tokenize "")) pass_tree.
Proof. apply parses_statement_empty. Qed.
